(** * SDN controller: routing and failure-recovery engine

    A shallow embedding of [SDNController] and of the handlers of [SDNCLI]
    (main.py), and of the parts of networkx they call ([Graph],
    [all_simple_paths], [shortest_path]), followed by the properties of the
    engine.

    Python dictionaries keep insertion order, and that order drives both
    the enumeration of paths and the tie-breaks of the selection, so every
    dictionary is an association list with unique keys: assigning to an
    existing key keeps its position, a new key goes to the end. *)

From Stdlib Require Import List String Ascii ZArith Bool Lia Arith PeanoNat.
Import ListNotations.
Open Scope string_scope.
Open Scope Z_scope.
Open Scope list_scope.

(** ** Keys with a boolean equality *)

Class EqKey (K : Type) := {
  keqb : K -> K -> bool;
  keqb_spec : forall x y, reflect (x = y) (keqb x y)
}.

Arguments keqb : simpl never.

#[global] Instance string_EqKey : EqKey string :=
  {| keqb := String.eqb; keqb_spec := String.eqb_spec |}.

Definition pair_eqb {A B} `{EqKey A} `{EqKey B} (x y : A * B) : bool :=
  keqb (fst x) (fst y) && keqb (snd x) (snd y).

Lemma pair_eqb_spec {A B} `{EqKey A} `{EqKey B} (x y : A * B) :
  reflect (x = y) (pair_eqb x y).
Proof.
  destruct x as [a b], y as [c d]; unfold pair_eqb; simpl.
  destruct (keqb_spec a c), (keqb_spec b d); simpl; constructor; congruence.
Qed.

#[global] Instance pair_EqKey {A B} `{EqKey A} `{EqKey B} : EqKey (A * B) :=
  {| keqb := pair_eqb; keqb_spec := pair_eqb_spec |}.

Lemma keqb_refl {K} `{EqKey K} (k : K) : keqb k k = true.
Proof. destruct (keqb_spec k k); congruence. Qed.

Lemma keqb_neq {K} `{EqKey K} (k k' : K) : k <> k' -> keqb k k' = false.
Proof. destruct (keqb_spec k k'); congruence. Qed.

Lemma keqb_eq {K} `{EqKey K} (k k' : K) : keqb k k' = true -> k = k'.
Proof. destruct (keqb_spec k k'); congruence. Qed.

(** ** Insertion-ordered dictionaries *)

Module OD.
Section Dict.
Context {K V : Type} `{EqKey K}.

Definition t := list (K * V).

(** [d.get(k)] *)
Fixpoint get (k : K) (d : t) : option V :=
  match d with
  | [] => None
  | (k', v) :: d' => if keqb k k' then Some v else get k d'
  end.

(** [k in d] *)
Definition mem (k : K) (d : t) : bool :=
  match get k d with Some _ => true | None => false end.

(** [d[k] = v] *)
Fixpoint set (k : K) (v : V) (d : t) : t :=
  match d with
  | [] => [(k, v)]
  | (k', v') :: d' =>
      if keqb k k' then (k', v) :: d' else (k', v') :: set k v d'
  end.

(** [d.pop(k, None)], the popped value dropped *)
Fixpoint pop (k : K) (d : t) : t :=
  match d with
  | [] => []
  | (k', v') :: d' => if keqb k k' then d' else (k', v') :: pop k d'
  end.

Definition keys (d : t) : list K := map fst d.

End Dict.
Arguments t : clear implicits.
End OD.

(** ** Nodes, paths, exceptions *)

Definition node := string.
Definition path := list node.

Definition path_eqb (p q : path) : bool :=
  if list_eq_dec string_dec p q then true else false.

(** The Python exceptions the engine can meet. [NetworkXNoPath] is the only
    one [_compute_path_with_priority] catches. [RecursionLimit] stands for a
    search loop that has used up its iteration budget; [bidi_loop_total]
    shows that it never occurs. *)
Inductive exn :=
| KeyError | ValueError | ZeroDivisionError
| NodeNotFound | NetworkXNoPath | RecursionLimit.

Inductive result (A : Type) :=
| Ok (a : A)
| Err (e : exn).
Arguments Ok {A} a.
Arguments Err {A} e.

(** ** The part of networkx the controller uses *)

(** Edge attributes as [add_link] sets them: [weight=..., capacity=...]. *)
Record EdgeData := { weight : Z; capacity : Z }.

Module nx.

(** [nx.Graph]: the adjacency dictionary [_adj]; the node dictionary [_node]
    has the same keys in the same order. *)
Definition Graph := OD.t node (OD.t node EdgeData).

Definition empty : Graph := [].

(** [G.nodes], in insertion order *)
Definition nodes (G : Graph) : list node := OD.keys G.

(** [G.add_node(n)]: a node already present is left alone *)
Definition add_node (n : node) (G : Graph) : Graph :=
  if OD.mem n G then G else OD.set n [] G.

(** [G._adj[u]] for a node of the graph *)
Definition adj (G : Graph) (u : node) : OD.t node EdgeData :=
  match OD.get u G with Some a => a | None => [] end.

(** [G.add_edge(u, v, weight=w, capacity=c)]: both end points are added when
    missing, then the same data is stored under [_adj[u][v]] and
    [_adj[v][u]] *)
Definition add_edge (u v : node) (e : EdgeData) (G : Graph) : Graph :=
  let G1 := add_node v (add_node u G) in
  let G2 := OD.set u (OD.set v e (adj G1 u)) G1 in
  OD.set v (OD.set u e (adj G2 v)) G2.

(** [G.has_edge(u, v)] *)
Definition has_edge (u v : node) (G : Graph) : bool :=
  match OD.get u G with
  | Some a => OD.mem v a
  | None => false
  end.

(** [G.remove_edge(u, v)], called only when [has_edge u v G] *)
Definition remove_edge (u v : node) (G : Graph) : Graph :=
  let G1 := OD.set u (OD.pop v (adj G u)) G in
  if keqb u v then G1 else OD.set v (OD.pop u (adj G1 v)) G1.

(** [G.edges[u, v]] *)
Definition edge_data (G : Graph) (u v : node) : option EdgeData :=
  match OD.get u G with
  | Some a => OD.get v a
  | None => None
  end.

(** *** [all_simple_paths]

    Depth-first enumeration in adjacency order. [visited] is the current
    path from the source, [v] its last node. A child already on the path is
    skipped, the target is yielded and not expanded, any other child is
    expanded while the path is shorter than [cutoff]. *)
Fixpoint simple_paths_from (cutoff : nat) (G : Graph) (target : node)
    (visited : path) (v : node) : list path :=
  match cutoff with
  | O => []
  | S cutoff' =>
      flat_map
        (fun child =>
           if existsb (keqb child) visited then []
           else if keqb child target then [visited ++ [child]]
           else simple_paths_from cutoff' G target (visited ++ [child]) child)
        (OD.keys (adj G v))
  end.

(** [list(nx.all_simple_paths(G, source, target))], with the default
    [cutoff = len(G) - 1]; [source] and [target] are two different nodes of
    [G], as [compute_paths] passes them. Equal nodes, where the versions
    of networkx differ, and a source outside [G], where networkx raises
    [NodeNotFound], are not modelled. *)
Definition all_simple_paths (G : Graph) (source target : node) : list path :=
  simple_paths_from (List.length (nodes G) - 1) G target [source] source.

(** *** [shortest_path] with [weight='weight']

    With a source, a target and a weight, [nx.shortest_path] (networkx 2 and
    3) is [bidirectional_dijkstra]: two Dijkstra searches, one from each
    end, that take turns. The heap holds triples [(distance, counter,
    node)]; the counter is unique, so [heappop] returns the entry that is
    least in [(distance, counter)]. *)
Definition entry := (Z * nat * node)%type.

Definition entry_ltb (a b : entry) : bool :=
  let '(d1, c1, _) := a in
  let '(d2, c2, _) := b in
  (d1 <? d2) || ((d1 =? d2) && (c1 <? c2)%nat).

Fixpoint pop_least (best : entry) (rest : list entry) : entry * list entry :=
  match rest with
  | [] => (best, [])
  | x :: r =>
      if entry_ltb x best
      then let '(m, r') := pop_least x r in (m, best :: r')
      else let '(m, r') := pop_least best r in (m, x :: r')
  end.

Definition heappop (h : list entry) : option (entry * list entry) :=
  match h with
  | [] => None
  | x :: r => Some (pop_least x r)
  end.

Definition heappush (h : list entry) (x : entry) : list entry := x :: h.

(** One direction of the search: [dists[dir]], [seen[dir]], [paths[dir]],
    [fringe[dir]]. *)
Record Search := {
  dists : OD.t node Z;
  seen : OD.t node Z;
  paths : OD.t node path;
  fringe : list entry
}.

(** The whole search: both directions, the counter [c], and the best
    source-target path found so far. [finaldist] has no value in Python
    until [finalpath] is set; it holds 0 until then here. *)
Record Bidi := {
  side0 : Search;
  side1 : Search;
  count : nat;
  finaldist : Z;
  finalpath : path
}.

(** [true] is direction 1 (backward), [false] direction 0 (forward). *)
Definition side (dir : bool) (b : Bidi) : Search :=
  if dir then side1 b else side0 b.

Definition with_side (dir : bool) (x : Search) (b : Bidi) : Bidi :=
  if dir
  then {| side0 := side0 b; side1 := x; count := count b;
          finaldist := finaldist b; finalpath := finalpath b |}
  else {| side0 := x; side1 := side1 b; count := count b;
          finaldist := finaldist b; finalpath := finalpath b |}.

Definition init (source target : node) : Bidi :=
  {| side0 := {| dists := []; seen := [(source, 0)];
                 paths := [(source, [source])];
                 fringe := [(0, 0%nat, source)] |};
     side1 := {| dists := []; seen := [(target, 0)];
                 paths := [(target, [target])];
                 fringe := [(0, 1%nat, target)] |};
     count := 2; finaldist := 0; finalpath := [] |}.

(** After [w] was relaxed: if it has been seen from both ends, compare the
    path through it with the best one so far. *)
Definition meet (w : node) (b : Bidi) : result Bidi :=
  match OD.get w (seen (side0 b)), OD.get w (seen (side1 b)) with
  | Some d0, Some d1 =>
      let totaldist := d0 + d1 in
      if match finalpath b with [] => true | _ => finaldist b >? totaldist end
      then
        match OD.get w (paths (side0 b)), OD.get w (paths (side1 b)) with
        | Some p0, Some p1 =>
            Ok {| side0 := side0 b; side1 := side1 b; count := count b;
                  finaldist := totaldist;
                  finalpath := p0 ++ tl (rev p1) |}
        | _, _ => Err KeyError
        end
      else Ok b
  | _, _ => Ok b
  end.

(** The body of [for w, d in neighs[dir][v].items()], with
    [dist = dists[dir][v]]. *)
Definition relax (dir : bool) (v : node) (dist : Z) (w : node) (e : EdgeData)
    (b : Bidi) : result Bidi :=
  let cur := side dir b in
  let vwLength := dist + weight e in
  match OD.get w (dists cur) with
  | Some dw => if vwLength <? dw then Err ValueError else Ok b
  | None =>
      if match OD.get w (seen cur) with
         | None => true
         | Some sw => vwLength <? sw
         end
      then
        match OD.get v (paths cur) with
        | None => Err KeyError
        | Some pv =>
            let cur' := {| dists := dists cur;
                         seen := OD.set w vwLength (seen cur);
                         paths := OD.set w (pv ++ [w]) (paths cur);
                         fringe := heappush (fringe cur) (vwLength, count b, w) |} in
            let b' := with_side dir cur' b in
            meet w {| side0 := side0 b'; side1 := side1 b';
                      count := S (count b);
                      finaldist := finaldist b'; finalpath := finalpath b' |}
        end
      else Ok b
  end.

Fixpoint scan (dir : bool) (v : node) (dist : Z) (nbrs : OD.t node EdgeData)
    (b : Bidi) : result Bidi :=
  match nbrs with
  | [] => Ok b
  | (w, e) :: rest =>
      match relax dir v dist w e b with
      | Ok b' => scan dir v dist rest b'
      | Err x => Err x
      end
  end.

Inductive step_result :=
| Continue (b : Bidi)
| Return (p : path)
| Fail (e : exn).

(** One iteration of [while fringe[0] and fringe[1]] in direction [dir]. *)
Definition step (G : Graph) (dir : bool) (b : Bidi) : step_result :=
  let cur := side dir b in
  match heappop (fringe cur) with
  | None => Fail KeyError
  | Some ((dist, _, v), rest) =>
      if OD.mem v (dists cur)
      then Continue (with_side dir {| dists := dists cur; seen := seen cur;
                                      paths := paths cur; fringe := rest |} b)
      else
        let cur1 := {| dists := OD.set v dist (dists cur); seen := seen cur;
                     paths := paths cur; fringe := rest |} in
        if OD.mem v (dists (side (negb dir) b))
        then Return (finalpath b)
        else
          match OD.get v G with
          | None => Fail KeyError
          | Some nbrs =>
              match scan dir v dist nbrs (with_side dir cur1 b) with
              | Ok b' => Continue b'
              | Err x => Fail x
              end
          end
  end.

(** The loop; [dir] is the direction of the previous iteration. *)
Fixpoint bidi_loop (fuel : nat) (G : Graph) (dir : bool) (b : Bidi)
    : result path :=
  match fuel with
  | O => Err RecursionLimit
  | S fuel' =>
      match fringe (side0 b), fringe (side1 b) with
      | _ :: _, _ :: _ =>
          match step G (negb dir) b with
          | Continue b' => bidi_loop fuel' G (negb dir) b'
          | Return p => Ok p
          | Fail x => Err x
          end
      | _, _ => Err NetworkXNoPath
      end
  end.

(** Every iteration pops one heap entry, and entries are pushed only while a
    node is scanned, once per direction: this many iterations are enough. *)
Definition degree_sum (G : Graph) : nat :=
  fold_right (fun kv n => (List.length (snd kv) + n)%nat) 0%nat G.

Definition iteration_bound (G : Graph) : nat :=
  (3 + 2 * degree_sum G)%nat.

Definition bidirectional_dijkstra (G : Graph) (source target : node)
    : result path :=
  if negb (OD.mem source G) || negb (OD.mem target G) then Err NodeNotFound
  else if keqb source target then Ok [source]
  else bidi_loop (iteration_bound G) G true (init source target).

Definition shortest_path (G : Graph) (source target : node) : result path :=
  bidirectional_dijkstra G source target.

End nx.

(** ** The controller *)

Record TrafficInfo := { ttype : string; priority : Z }.

(** A flow-table entry is a path or Python's [None]. *)
Definition FlowTable := OD.t node (option path).

Record SDNController := {
  topology : nx.Graph;
  flow_tables : OD.t node FlowTable;
  traffic : OD.t (node * node) TrafficInfo;
  link_utilization : OD.t (node * node) Z;
  backup_paths : OD.t (node * node) (list path)
}.

Definition init : SDNController :=
  {| topology := nx.empty; flow_tables := []; traffic := [];
     link_utilization := []; backup_paths := [] |}.

Definition priority_map : OD.t string Z :=
  [("critical", 3); ("important", 2); ("default", 1)].

(** What the engine prints. *)
Inductive report :=
| AddedNode (n : node)
| Routing (traffic_type : string) (src dst : node) (p : path)
| NoAvailablePath (src dst : node)
| NoRoutingInfo (src dst : node)
| Rerouted (src dst : node) (backup : path)
| NoBackup (src dst : node)
| LinkUsage (u v : node) (usage cap : Z).

(** How a call ends: normally, or with an exception that leaves the state
    as it was when raised. [out] is what was printed. *)
Inductive outcome :=
| Done (out : list report) (s : SDNController)
| Raised (out : list report) (e : exn) (s : SDNController).

Definition state_of (r : outcome) : SDNController :=
  match r with Done _ s => s | Raised _ _ s => s end.

Definition bind (r : outcome) (f : SDNController -> outcome) : outcome :=
  match r with
  | Done o s =>
      match f s with
      | Done o' s' => Done (o ++ o') s'
      | Raised o' e s' => Raised (o ++ o') e s'
      end
  | Raised _ _ _ => r
  end.

(** [for x in xs: body(x)] *)
Fixpoint for_each {X : Type} (xs : list X) (body : X -> SDNController -> outcome)
    (s : SDNController) : outcome :=
  match xs with
  | [] => Done [] s
  | x :: xs' => bind (body x s) (for_each xs' body)
  end.

Definition set_topology (G : nx.Graph) (s : SDNController) :=
  {| topology := G; flow_tables := flow_tables s; traffic := traffic s;
     link_utilization := link_utilization s; backup_paths := backup_paths s |}.

Definition set_flow_tables (ft : OD.t node FlowTable) (s : SDNController) :=
  {| topology := topology s; flow_tables := ft; traffic := traffic s;
     link_utilization := link_utilization s; backup_paths := backup_paths s |}.

Definition set_traffic (t : OD.t (node * node) TrafficInfo) (s : SDNController) :=
  {| topology := topology s; flow_tables := flow_tables s; traffic := t;
     link_utilization := link_utilization s; backup_paths := backup_paths s |}.

Definition set_link_utilization (lu : OD.t (node * node) Z) (s : SDNController) :=
  {| topology := topology s; flow_tables := flow_tables s; traffic := traffic s;
     link_utilization := lu; backup_paths := backup_paths s |}.

Definition set_backup_paths (bp : OD.t (node * node) (list path)) (s : SDNController) :=
  {| topology := topology s; flow_tables := flow_tables s; traffic := traffic s;
     link_utilization := link_utilization s; backup_paths := bp |}.

(** [add_node]: one node of [*nodes] *)
Definition add_one_node (n : node) (s : SDNController) : outcome :=
  Done [AddedNode n]
    (set_flow_tables (OD.set n [] (flow_tables s))
       (set_topology (nx.add_node n (topology s)) s)).

Definition add_node (nodes : list node) (s : SDNController) : outcome :=
  for_each nodes add_one_node s.

Definition add_link (u v : node) (w c : Z) (s : SDNController) : outcome :=
  let G := nx.add_edge u v {| weight := w; capacity := c |} (topology s) in
  let lu := OD.set (v, u) 0 (OD.set (u, v) 0 (link_utilization s)) in
  Done [] (set_link_utilization lu (set_topology G s)).

(** [self.flow_tables[src][dst] = entry]; [None] when [flow_tables] has no
    key [src] (a [KeyError]) *)
Definition assign_flow (src dst : node) (entry : option path)
    (ft : OD.t node FlowTable) : option (OD.t node FlowTable) :=
  match OD.get src ft with
  | Some row => Some (OD.set src (OD.set dst entry row) ft)
  | None => None
  end.

Definition install (src dst : node) (entry : option path) (s : SDNController)
    : outcome :=
  match assign_flow src dst entry (flow_tables s) with
  | Some ft => Done [] (set_flow_tables ft s)
  | None => Raised [] KeyError s
  end.

(** [sum(self.link_utilization.get((path[i], path[i + 1]), 0) ...)] *)
Fixpoint path_utilization (lu : OD.t (node * node) Z) (p : path) : Z :=
  match p with
  | a :: ((b :: _) as rest) =>
      match OD.get (a, b) lu with Some x => x | None => 0 end
      + path_utilization lu rest
  | _ => 0
  end.

(** [min(..., key=itemgetter(0))]: the first of the least *)
Fixpoint min_by_first (best : Z * path) (rest : list (Z * path)) : Z * path :=
  match rest with
  | [] => best
  | x :: r =>
      if fst x <? fst best then min_by_first x r else min_by_first best r
  end.

Definition _select_load_balanced_path (lu : OD.t (node * node) Z)
    (paths : list path) : result path :=
  match map (fun p => (path_utilization lu p, p)) paths with
  | [] => Err ValueError
  | x :: r => Ok (snd (min_by_first x r))
  end.

Definition critical : Z :=
  match OD.get "critical" priority_map with Some p => p | None => 0 end.

Definition priority_for (src dst : node) (s : SDNController) : Z :=
  match OD.get (src, dst) (traffic s) with
  | Some info => priority info
  | None => 1
  end.

Definition _compute_path_with_priority (src dst : node) (s : SDNController)
    : outcome :=
  let all_paths := nx.all_simple_paths (topology s) src dst in
  match all_paths with
  | [] => install src dst None s
  | _ :: _ =>
      let chosen :=
        if priority_for src dst s =? critical
        then nx.shortest_path (topology s) src dst
        else _select_load_balanced_path (link_utilization s) all_paths in
      match chosen with
      | Ok p =>
          match install src dst (Some p) s with
          | Done o s1 =>
              if (1 <? List.length all_paths)%nat
              then Done o (set_backup_paths
                             (OD.set (src, dst)
                                (filter (fun q => negb (path_eqb q p)) all_paths)
                                (backup_paths s1)) s1)
              else Done o s1
          | r => r
          end
      | Err NetworkXNoPath => install src dst None s
      | Err e => Raised [] e s
      end
  end.

(** The pairs [compute_paths] visits, in its order. *)
Definition ordered_pairs (ns : list node) : list (node * node) :=
  flat_map (fun src =>
              map (fun dst => (src, dst))
                  (filter (fun dst => negb (keqb src dst)) ns)) ns.

Definition compute_paths (s : SDNController) : outcome :=
  for_each (ordered_pairs (nx.nodes (topology s)))
           (fun sd => _compute_path_with_priority (fst sd) (snd sd)) s.

(** [str.lower] on ASCII letters *)
Definition lower_ascii (c : ascii) : ascii :=
  let n := nat_of_ascii c in
  if ((65 <=? n) && (n <=? 90))%nat then ascii_of_nat (n + 32) else c.

Fixpoint lower (s : string) : string :=
  match s with
  | EmptyString => EmptyString
  | String c s' => String (lower_ascii c) (lower s')
  end.

(** The loop that adds one unit to both directed counters of every hop; a
    missing counter raises [KeyError] where it is met. *)
Fixpoint bump (p : path) (lu : OD.t (node * node) Z)
    : OD.t (node * node) Z * option exn :=
  match p with
  | a :: ((b :: _) as rest) =>
      match OD.get (a, b) lu with
      | None => (lu, Some KeyError)
      | Some x =>
          let lu1 := OD.set (a, b) (x + 1) lu in
          match OD.get (b, a) lu1 with
          | None => (lu1, Some KeyError)
          | Some y => bump rest (OD.set (b, a) (y + 1) lu1)
          end
      end
  | _ => (lu, None)
  end.

Definition bump_utilization (out : list report) (p : path) (s : SDNController)
    : outcome :=
  match bump p (link_utilization s) with
  | (lu, None) => Done out (set_link_utilization lu s)
  | (lu, Some e) => Raised out e (set_link_utilization lu s)
  end.

(** [self.flow_tables.get(src, {}).get(dst)]: [None] when there is no entry,
    [Some None] when the entry is Python's [None]. *)
Definition flow_entry (ft : OD.t node FlowTable) (src dst : node)
    : option (option path) :=
  match OD.get src ft with
  | Some row => OD.get dst row
  | None => None
  end.

(** [self.priority_map.get(traffic_type.lower(), 1)] *)
Definition priority_of (traffic_type : string) : Z :=
  match OD.get (lower traffic_type) priority_map with
  | Some p => p
  | None => 1
  end.

Definition inject_flow (src dst : node) (traffic_type : string)
    (s : SDNController) : outcome :=
  let s1 :=
    set_traffic (OD.set (src, dst) {| ttype := traffic_type;
                                      priority := priority_of traffic_type |}
                        (traffic s)) s in
  match flow_entry (flow_tables s1) src dst with
  | Some (Some (n :: p)) =>
      bump_utilization [Routing traffic_type src dst (n :: p)] (n :: p) s1
  | Some _ => Done [NoAvailablePath src dst] s1
  | None => Done [NoRoutingInfo src dst] s1
  end.

(** [any((u, v) == (path[i], path[i + 1]) or (v, u) == ... )] *)
Fixpoint uses_link (u v : node) (p : path) : bool :=
  match p with
  | a :: ((b :: _) as rest) =>
      keqb (u, v) (a, b) || keqb (v, u) (a, b) || uses_link u v rest
  | _ => false
  end.

Definition affected_flows (u v : node) (ft : OD.t node FlowTable)
    : list (node * node) :=
  flat_map
    (fun row : node * FlowTable =>
       flat_map
         (fun e : node * option path =>
            match snd e with
            | Some (n :: p) =>
                if uses_link u v (n :: p) then [(fst row, fst e)] else []
            | _ => []
            end)
         (snd row))
    ft.

Definition reroute (sd : node * node) (s : SDNController) : outcome :=
  let (src, dst) := sd in
  match OD.get (src, dst) (backup_paths s) with
  | Some (backup :: rest) =>
      let s1 := set_backup_paths (OD.set (src, dst) rest (backup_paths s)) s in
      match assign_flow src dst (Some backup) (flow_tables s1) with
      | None => Raised [] KeyError s1
      | Some ft =>
          bump_utilization [Rerouted src dst backup] backup (set_flow_tables ft s1)
      end
  | _ =>
      match assign_flow src dst None (flow_tables s) with
      | None => Raised [NoBackup src dst] KeyError s
      | Some ft => Done [NoBackup src dst] (set_flow_tables ft s)
      end
  end.

Definition _handle_link_failure (u v : node) (s : SDNController) : outcome :=
  for_each (affected_flows u v (flow_tables s)) reroute s.

Definition remove_link (u v : node) (s : SDNController) : outcome :=
  if nx.has_edge u v (topology s)
  then
    let G := nx.remove_edge u v (topology s) in
    let lu := OD.pop (v, u) (OD.pop (u, v) (link_utilization s)) in
    _handle_link_failure u v (set_link_utilization lu (set_topology G s))
  else Done [] s.

(** [show_utilization]: one line per counter; the printed percentage is a
    float and is left out, and so is the heading printed before the loop. *)
Definition usage_line (kv : node * node * Z) (s : SDNController) : outcome :=
  let '(u, v, usage) := kv in
  match nx.edge_data (topology s) u v with
  | None => Raised [] KeyError s
  | Some d =>
      if capacity d =? 0 then Raised [] ZeroDivisionError s
      else Done [LinkUsage u v usage (capacity d)] s
  end.

Definition show_utilization (s : SDNController) : outcome :=
  for_each (link_utilization s) usage_line s.

(** ** Command sequences *)

Inductive command :=
| AddNode (nodes : list node)
| AddLink (u v : node) (w c : Z)
| RemoveLink (u v : node)
| InjectFlow (src dst : node) (traffic_type : string)
| ComputePaths
| ShowUtilization.

Definition exec (c : command) (s : SDNController) : outcome :=
  match c with
  | AddNode ns => add_node ns s
  | AddLink u v w c => add_link u v w c s
  | RemoveLink u v => remove_link u v s
  | InjectFlow src dst ty => inject_flow src dst ty s
  | ComputePaths => compute_paths s
  | ShowUtilization => show_utilization s
  end.

(** Run a script, stopping at the first exception. *)
Definition run (cs : list command) (s : SDNController) : outcome :=
  for_each cs exec s.

(** ** Reachable states

    A caller may go on after an exception, so the state a raising call
    leaves behind is reachable too. *)
Inductive reachable : SDNController -> Prop :=
| reach_init : reachable init
| reach_exec c s : reachable s -> reachable (state_of (exec c s)).

(** ** The command line

    [SDNCLI]: each [do_...] method splits its argument and calls the
    controller. [cmd.Cmd] catches no exception, so one raised by the
    controller, or by [int], ends the command loop. What the command line
    prints itself comes after what the controller printed. *)

Inductive line :=
| Said (r : report)
| NodeAdded (arg : string)
| LinkAdded (u v : node) (w c : Z)
| Usage (command : string)
| Recomputed.

Inductive cli_outcome :=
| Returned (out : list line) (s : SDNController)
| Crashed (out : list line) (e : exn) (s : SDNController).

Definition cli_state (r : cli_outcome) : SDNController :=
  match r with Returned _ s => s | Crashed _ _ s => s end.

(** A call of the controller followed by the prints in [after] *)
Definition and_then (r : outcome) (after : list line) : cli_outcome :=
  match r with
  | Done o s => Returned (map Said o ++ after) s
  | Raised o e s => Crashed (map Said o) e s
  end.

Section CommandLine.

(** [str.split()] and [int(...)] are Python's; [int] gives [None] where
    Python raises [ValueError]. *)
Variable split : string -> list string.
Variable int : string -> option Z.

Definition do_add_node (arg : string) (s : SDNController) : cli_outcome :=
  and_then (add_node (split arg) s) [NodeAdded arg].

Definition do_add_link (arg : string) (s : SDNController) : cli_outcome :=
  match split arg with
  | u :: v :: rest =>
      match (match rest with w :: _ => int w | [] => Some 1 end) with
      | None => Crashed [] ValueError s
      | Some w =>
          match (match rest with _ :: c :: _ => int c | _ => Some 100 end) with
          | None => Crashed [] ValueError s
          | Some c => and_then (add_link u v w c s) [LinkAdded u v w c]
          end
      end
  | _ => Returned [Usage "add_link"] s
  end.

Definition do_remove_link (arg : string) (s : SDNController) : cli_outcome :=
  match split arg with
  | [u; v] => and_then (remove_link u v s) []
  | _ => Returned [Usage "remove_link"] s
  end.

Definition do_inject_flow (arg : string) (s : SDNController) : cli_outcome :=
  match split arg with
  | src :: dst :: rest =>
      let traffic_type := match rest with t :: _ => t | [] => "default" end in
      and_then (inject_flow src dst traffic_type s) []
  | _ => Returned [Usage "inject_flow"] s
  end.

Definition do_fail_link (arg : string) (s : SDNController) : cli_outcome :=
  match split arg with
  | [u; v] => and_then (remove_link u v s) []
  | _ => Returned [Usage "fail_link"] s
  end.

Definition do_show_util (arg : string) (s : SDNController) : cli_outcome :=
  and_then (show_utilization s) [].

Definition do_compute_paths (arg : string) (s : SDNController) : cli_outcome :=
  and_then (compute_paths s) [Recomputed].

End CommandLine.

(** ** The vocabulary of the properties *)

(** *** Paths of the topology *)

Definition linked (G : nx.Graph) (u v : node) : Prop :=
  nx.has_edge u v G = true.

(** Consecutive nodes are joined by a link. *)
Fixpoint walk (G : nx.Graph) (p : path) : Prop :=
  match p with
  | a :: ((b :: _) as rest) => linked G a b /\ walk G rest
  | _ => True
  end.

(** A simple path between [src] and [dst]: it starts at [src], ends at
    [dst], repeats no node, and follows links. *)
Definition simple_path (G : nx.Graph) (src dst : node) (p : path) : Prop :=
  hd_error p = Some src /\ last p src = dst /\ NoDup p /\ walk G p.

(** [p] starts at [a] and ends at [b]. *)
Definition joins (p : path) (a b : node) : Prop :=
  hd_error p = Some a /\ last p a = b.

(** The weight of the link between two nodes (0 when there is none). *)
Definition link_weight (G : nx.Graph) (u v : node) : Z :=
  match nx.edge_data G u v with
  | Some d => weight d
  | None => 0
  end.

(** The total edge weight of a path. *)
Fixpoint path_weight (G : nx.Graph) (p : path) : Z :=
  match p with
  | a :: ((b :: _) as rest) => link_weight G a b + path_weight G rest
  | _ => 0
  end.

(** The total utilization of a path as the specification words it: the sum,
    over the consecutive node pairs of the path, of the directed counter of
    the pair, a missing counter counting 0. *)
Definition counter_or_zero (lu : OD.t (node * node) Z) (uv : node * node) : Z :=
  match OD.get uv lu with
  | Some x => x
  | None => 0
  end.

Definition consecutive_pairs (p : path) : list (node * node) :=
  combine p (tl p).

Definition total_utilization (lu : OD.t (node * node) Z) (p : path) : Z :=
  fold_right Z.add 0 (map (counter_or_zero lu) (consecutive_pairs p)).

(** [p] is a shortest way from [source] to [target]: it follows links and
    no walk between the two has a smaller total weight. *)
Definition shortest (G : nx.Graph) (source target : node) (p : path) : Prop :=
  walk G p /\ joins p source target /\
  forall q, walk G q -> joins q source target -> path_weight G p <= path_weight G q.

(** *** States *)

(** What every [nx.Graph] built by [add_node], [add_edge] and [remove_edge]
    satisfies: keys are unique, and both directions of a link carry the same
    data. *)
Record well_formed (G : nx.Graph) : Prop := {
  wf_nodes : NoDup (OD.keys G);
  wf_adj : forall v a, OD.get v G = Some a -> NoDup (OD.keys a);
  wf_sym : forall u v, nx.edge_data G u v = nx.edge_data G v u
}.

Definition nonnegative (G : nx.Graph) : Prop :=
  forall u v d, nx.edge_data G u v = Some d -> 0 <= weight d.

(** A check for non-negative weights. *)
Definition nonnegativeb (G : nx.Graph) : bool :=
  forallb (fun kv : node * OD.t node EdgeData =>
             forallb (fun e : node * EdgeData => 0 <=? weight (snd e)) (snd kv)) G.

Definition owners (s : SDNController) : Prop :=
  forall n, In n (nx.nodes (topology s)) -> OD.mem n (flow_tables s) = true.

Definition paired (lu : OD.t (node * node) Z) : Prop :=
  NoDup (OD.keys lu) /\ forall u v, OD.get (u, v) lu = OD.get (v, u) lu.

(** Both directed counters of every hop of the path exist. *)
Fixpoint hops_present (lu : OD.t (node * node) Z) (p : path) : bool :=
  match p with
  | a :: ((b :: _) as rest) =>
      OD.mem (a, b) lu && OD.mem (b, a) lu && hops_present lu rest
  | _ => true
  end.

(** The counters are those of the links: a directed counter exists exactly
    when the link does. *)
Definition counted (s : SDNController) : Prop :=
  forall u v, OD.mem (u, v) (link_utilization s) = nx.has_edge u v (topology s).

(** Flow tables as dictionaries of dictionaries: no key twice. *)
Definition table_shape (ft : OD.t node FlowTable) : Prop :=
  NoDup (OD.keys ft) /\
  forall n row, OD.get n ft = Some row -> NoDup (OD.keys row).

(** Every flow-table entry is for two different nodes of [N]. *)
Definition entries_between (N : list node) (ft : OD.t node FlowTable) : Prop :=
  forall src dst e,
    flow_entry ft src dst = Some e -> In src N /\ In dst N /\ src <> dst.

(** What every state the commands can produce satisfies. *)
Record consistent (s : SDNController) : Prop := {
  c_wf : well_formed (topology s);
  c_paired : paired (link_utilization s);
  c_counted : counted s;
  c_nonneg : forall k x, OD.get k (link_utilization s) = Some x -> 0 <= x;
  c_shape : table_shape (flow_tables s);
  c_pairs : entries_between (nx.nodes (topology s)) (flow_tables s)
}.

(** What the failure handler installs for a pair whose backups are [bk],
    and what it leaves of them. *)
Definition next_route (bk : option (list path)) : option path :=
  match bk with Some (b :: _) => Some b | _ => None end.

Definition rest_backups (bk : option (list path)) : option (list path) :=
  match bk with Some (_ :: rest) => Some rest | _ => bk end.

(** *** Careful use

    Two things a caller can do wrong: join nodes it has not added, and give
    a link a negative weight. *)

Definition returned (r : outcome) : bool :=
  match r with Done _ _ => true | Raised _ _ _ => false end.

Definition declared (s : SDNController) (c : command) : bool :=
  match c with
  | AddLink u v _ _ => OD.mem u (topology s) && OD.mem v (topology s)
  | _ => true
  end.

Definition weighted (c : command) : bool :=
  match c with
  | AddLink _ _ w _ => 0 <=? w
  | _ => true
  end.

(** The states reached with links between added nodes and of non-negative
    weight only. *)
Inductive careful : SDNController -> Prop :=
| careful_init : careful init
| careful_exec c s :
    careful s -> declared s c = true -> weighted c = true ->
    careful (state_of (exec c s)).

(** The states reached with links of non-negative weight by calls that all
    returned. *)
Inductive steady : SDNController -> Prop :=
| steady_init : steady init
| steady_exec c s :
    steady s -> weighted c = true -> returned (exec c s) = true ->
    steady (state_of (exec c s)).

(** Every installed path follows links of the topology and joins its
    pair. *)
Definition routes_valid (s : SDNController) : Prop :=
  forall src dst p,
    flow_entry (flow_tables s) src dst = Some (Some p) ->
    walk (topology s) p /\ joins p src dst.

(** Every backup joins its pair and visits no node twice. *)
Definition backups_join (s : SDNController) : Prop :=
  forall src dst l q,
    OD.get (src, dst) (backup_paths s) = Some l -> In q l ->
    joins q src dst /\ NoDup q.

(** How many of the flows that [remove_link u v] reroutes are moved to a
    backup over the link [k]. *)
Definition moved_over (s : SDNController) (k sd : node * node) : bool :=
  match next_route (OD.get sd (backup_paths s)) with
  | Some b => uses_link (fst k) (snd k) b
  | None => false
  end.

Definition rerouted_over (s : SDNController) (u v : node) (k : node * node)
    : Z :=
  Z.of_nat (List.length (filter (moved_over s k)
                           (affected_flows u v (flow_tables s)))).

(** The line that [show_utilization] prints for a counter. *)
Definition usage_of (G : nx.Graph) (kv : node * node * Z) (r : report) : Prop :=
  exists d,
    nx.edge_data G (fst (fst kv)) (snd (fst kv)) = Some d /\
    r = LinkUsage (fst (fst kv)) (snd (fst kv)) (snd kv) (capacity d).

(** A sample network: a triangle with its paths computed. *)
Definition triangle : SDNController :=
  state_of (exec ComputePaths
    (state_of (exec (AddLink "A" "C" 5 10)
      (state_of (exec (AddLink "B" "C" 1 10)
        (state_of (exec (AddLink "A" "B" 1 10)
          (state_of (exec (AddNode ["A"; "B"; "C"]) init))))))))).

(** Another one: three nodes in a row, the two ends not linked. *)
Definition chain : SDNController :=
  state_of (exec ComputePaths
    (state_of (exec (AddLink "B" "C" 1 10)
      (state_of (exec (AddLink "A" "B" 1 10)
        (state_of (exec (AddNode ["A"; "B"; "C"]) init))))))).

(** *** The decision of one step of the path computation *)

(** The decision of [_compute_path_with_priority] for a pair: the flow-table
    entry and, when there is more than one simple path, the backup list. It
    reads the topology, the traffic descriptors and the counters only. *)
Definition plan (s : SDNController) (src dst : node)
    : result (option path * option (list path)) :=
  let all_paths := nx.all_simple_paths (topology s) src dst in
  match all_paths with
  | [] => Ok (None, None)
  | _ :: _ =>
      match (if priority_for src dst s =? critical
             then nx.shortest_path (topology s) src dst
             else _select_load_balanced_path (link_utilization s) all_paths) with
      | Ok p =>
          Ok (Some p,
              if (1 <? List.length all_paths)%nat
              then Some (filter (fun q => negb (path_eqb q p)) all_paths)
              else None)
      | Err NetworkXNoPath => Ok (None, None)
      | Err e => Err e
      end
  end.

Definition write_backup (src dst : node) (bk : option (list path))
    (s : SDNController) : SDNController :=
  match bk with
  | Some l => set_backup_paths (OD.set (src, dst) l (backup_paths s)) s
  | None => s
  end.

Definition apply_plan (src dst : node) (pl : option path * option (list path))
    (s : SDNController) : outcome :=
  match assign_flow src dst (fst pl) (flow_tables s) with
  | Some ft => Done [] (write_backup src dst (snd pl) (set_flow_tables ft s))
  | None => Raised [] KeyError s
  end.

Definition same_inputs (s s' : SDNController) : Prop :=
  topology s' = topology s /\ traffic s' = traffic s /\
  link_utilization s' = link_utilization s /\
  forall n, OD.mem n (flow_tables s') = OD.mem n (flow_tables s).

Definition compute_body (sd : node * node) : SDNController -> outcome :=
  _compute_path_with_priority (fst sd) (snd sd).

(** ** Facts about insertion-ordered dictionaries *)

Module ODFacts.
Import OD.
Section Facts.
Context {K V : Type} `{EqKey K}.
Implicit Types (d : OD.t K V) (k : K) (v : V).

Lemma get_set_same k v d : get k (set k v d) = Some v.
Proof.
  induction d as [|[k' v'] d IH]; simpl.
  - now rewrite keqb_refl.
  - destruct (keqb k k') eqn:E; simpl; rewrite E; auto.
Qed.

Lemma get_set_other k k' v d : k <> k' -> get k' (set k v d) = get k' d.
Proof.
  intros Hne. induction d as [|[k0 v0] d IH]; simpl.
  - rewrite keqb_neq; auto.
  - destruct (keqb_spec k k0) as [->|]; simpl.
    + rewrite keqb_neq; auto.
    + now rewrite IH.
Qed.

Lemma get_set k k' v d :
  get k' (set k v d) = if keqb k' k then Some v else get k' d.
Proof.
  destruct (keqb_spec k' k) as [->|].
  - apply get_set_same.
  - apply get_set_other; auto.
Qed.

Lemma set_id k v d : get k d = Some v -> set k v d = d.
Proof.
  induction d as [|[k' v'] d IH]; simpl; [discriminate|].
  destruct (keqb k k'); intros E.
  - congruence.
  - now rewrite IH.
Qed.

Lemma set_set k v v' d : set k v (set k v' d) = set k v d.
Proof.
  induction d as [|[k0 v0] d IH]; simpl.
  - now rewrite keqb_refl.
  - destruct (keqb k k0) eqn:E; simpl; rewrite E; congruence.
Qed.

Lemma get_pop_other k k' d : k <> k' -> get k' (pop k d) = get k' d.
Proof.
  intros Hne. induction d as [|[k0 v0] d IH]; simpl; auto.
  destruct (keqb_spec k k0) as [->|]; simpl.
  - rewrite keqb_neq; auto.
  - now rewrite IH.
Qed.

Lemma get_pop_same k d : NoDup (keys d) -> get k (pop k d) = None.
Proof.
  induction d as [|[k0 v0] d IH]; simpl; auto.
  intros Hnd. inversion Hnd as [|? ? Hnin Hnd']; subst.
  destruct (keqb_spec k k0) as [->|]; simpl.
  - clear IH Hnd Hnd'. induction d as [|[k1 v1] d IH]; simpl; auto.
    destruct (keqb_spec k0 k1) as [->|].
    + exfalso. apply Hnin. simpl. auto.
    + apply IH. intros Hin. apply Hnin. simpl. auto.
  - rewrite keqb_neq by auto. auto.
Qed.

Lemma get_pop k k' d :
  NoDup (keys d) -> get k' (pop k d) = if keqb k' k then None else get k' d.
Proof.
  intros Hnd. destruct (keqb_spec k' k) as [->|Hne].
  - now apply get_pop_same.
  - apply get_pop_other. congruence.
Qed.

Lemma get_In k v d : get k d = Some v -> In (k, v) d.
Proof.
  induction d as [|[k0 v0] d IH]; simpl; [discriminate|].
  destruct (keqb_spec k k0) as [->|]; intros E.
  - left. congruence.
  - right. auto.
Qed.

Lemma In_get k v d : NoDup (keys d) -> In (k, v) d -> get k d = Some v.
Proof.
  induction d as [|[k0 v0] d IH]; simpl; [tauto|].
  intros Hnd [E|Hin]; inversion Hnd; subst.
  - inversion E; subst. now rewrite keqb_refl.
  - destruct (keqb_spec k k0) as [->|]; auto.
    exfalso. apply H2. change k0 with (fst (k0, v)). now apply in_map.
Qed.

Lemma get_None_keys k d : get k d = None <-> ~ In k (keys d).
Proof.
  induction d as [|[k0 v0] d IH]; simpl; [tauto|].
  destruct (keqb_spec k k0) as [->|]; split; intros Hx.
  - discriminate.
  - exfalso. apply Hx. auto.
  - intros [E|Hin]; [congruence|]. now apply IH.
  - apply IH. tauto.
Qed.

Lemma mem_keys k d : mem k d = true <-> In k (keys d).
Proof.
  unfold mem. destruct (get k d) eqn:E.
  - split; auto. intros _.
    apply get_In in E. change k with (fst (k, v)). now apply in_map.
  - split; [discriminate|]. intros Hin. now apply get_None_keys in E.
Qed.

Lemma keys_set_mem k v d : mem k d = true -> keys (set k v d) = keys d.
Proof.
  unfold mem. induction d as [|[k0 v0] d IH]; simpl; [discriminate|].
  destruct (keqb k k0); simpl; auto.
  intros E. now rewrite IH.
Qed.

Lemma keys_set_new k v d : mem k d = false -> keys (set k v d) = keys d ++ [k].
Proof.
  unfold mem. induction d as [|[k0 v0] d IH]; simpl; auto.
  destruct (keqb k k0); simpl; [discriminate|].
  intros E. now rewrite IH.
Qed.

Lemma In_keys_set k k' v d : In k' (keys (set k v d)) <-> k' = k \/ In k' (keys d).
Proof.
  rewrite <- !mem_keys. unfold mem. rewrite get_set.
  destruct (keqb_spec k' k) as [->|]; [intuition|].
  destruct (get k' d); intuition congruence.
Qed.

Lemma NoDup_keys_set k v d : NoDup (keys d) -> NoDup (keys (set k v d)).
Proof.
  intros Hnd. destruct (mem k d) eqn:E.
  - now rewrite keys_set_mem.
  - rewrite keys_set_new by auto.
    apply NoDup_app; auto.
    + repeat constructor. simpl. tauto.
    + intros x Hx [<-|[]]. apply mem_keys in Hx. congruence.
Qed.

Lemma In_keys_pop k k' d : In k' (keys (pop k d)) -> In k' (keys d).
Proof.
  induction d as [|[k0 v0] d IH]; simpl; auto.
  destruct (keqb k k0); simpl; tauto.
Qed.

Lemma NoDup_keys_pop k d : NoDup (keys d) -> NoDup (keys (pop k d)).
Proof.
  induction d as [|[k0 v0] d IH]; simpl; auto.
  intros Hnd. inversion Hnd; subst.
  destruct (keqb k k0); simpl; auto.
  constructor; auto. intros Hin. apply In_keys_pop in Hin. auto.
Qed.

End Facts.
End ODFacts.



Import ODFacts.

(** ** Records and loops *)

Lemma set_flow_tables_id s : set_flow_tables (flow_tables s) s = s.
Proof. now destruct s. Qed.

Lemma set_backup_paths_id s : set_backup_paths (backup_paths s) s = s.
Proof. now destruct s. Qed.

Lemma bind_Done_inv r f o s :
  bind r f = Done o s ->
  exists o1 s1 o2, r = Done o1 s1 /\ f s1 = Done o2 s /\ o = o1 ++ o2.
Proof.
  destruct r as [o1 s1|]; simpl; [|discriminate].
  destruct (f s1) as [o2 s2|] eqn:E; [|discriminate].
  intros [= <- <-]. now exists o1, s1, o2.
Qed.

(** A property that every call of the body keeps, whether it returns or
    raises, holds after the loop. *)
Lemma for_each_invariant {X} (P : SDNController -> Prop) (xs : list X) body :
  (forall x s, P s -> P (state_of (body x s))) ->
  forall s, P s -> P (state_of (for_each xs body s)).
Proof.
  intros Hbody. induction xs as [|x xs IH]; intros s Hs; simpl; auto.
  specialize (Hbody x s Hs).
  destruct (body x s) as [o1 s1|o1 e s1]; simpl in *; auto.
  specialize (IH s1 Hbody).
  destruct (for_each xs body s1); simpl in *; auto.
Qed.

(** ** Utilization counters come in equal pairs *)

Lemma swap_pair_eq (a b c d : node) : (a, b) = (c, d) <-> (b, a) = (d, c).
Proof. split; intros [= -> ->]; reflexivity. Qed.

Lemma keqb_swap (a b c d : node) : keqb (a, b) (c, d) = keqb (b, a) (d, c).
Proof.
  destruct (keqb_spec (a, b) (c, d)) as [E|E], (keqb_spec (b, a) (d, c)) as [E'|E'];
    auto; exfalso; apply swap_pair_eq in E || apply swap_pair_eq in E'; auto.
Qed.

Lemma paired_bump_hop a b x lu :
  paired lu -> OD.get (a, b) lu = Some x ->
  exists y, OD.get (b, a) (OD.set (a, b) (x + 1) lu) = Some y /\
            paired (OD.set (b, a) (y + 1) (OD.set (a, b) (x + 1) lu)).
Proof.
  intros [Hnd Hsym] Hx.
  assert (Hy : OD.get (b, a) lu = Some x) by now rewrite <- Hsym.
  rewrite get_set.
  destruct (keqb_spec (b, a) (a, b)) as [E|E].
  - injection E as -> _. eexists; split; [reflexivity|].
    split; [now repeat apply NoDup_keys_set|].
    intros u v. rewrite !get_set, (keqb_swap v u).
    destruct (keqb (u, v) (a, a)); auto.
  - eexists; split; [exact Hy|].
    split; [now repeat apply NoDup_keys_set|].
    intros u v. rewrite !get_set, (keqb_swap v u a b), (keqb_swap v u b a).
    destruct (keqb (u, v) (b, a)), (keqb (u, v) (a, b)); auto.
Qed.

Lemma paired_bump p : forall lu, paired lu -> paired (fst (bump p lu)).
Proof.
  induction p as [|a [|b rest] IH]; intros lu Hp; simpl; auto.
  destruct (OD.get (a, b) lu) as [x|] eqn:Hx; simpl; auto.
  destruct (paired_bump_hop a b x lu Hp Hx) as (y & Hy & Hp').
  rewrite Hy. apply (IH _ Hp').
Qed.

Lemma paired_bump_utilization out p s :
  paired (link_utilization s) ->
  paired (link_utilization (state_of (bump_utilization out p s))).
Proof.
  intros Hp. unfold bump_utilization.
  pose proof (paired_bump p _ Hp) as H.
  destruct (bump p (link_utilization s)) as [lu [e|]]; simpl in *; auto.
Qed.

Lemma paired_reroute sd s :
  paired (link_utilization s) ->
  paired (link_utilization (state_of (reroute sd s))).
Proof.
  intros Hp. destruct sd as [src dst]. unfold reroute.
  destruct (OD.get (src, dst) (backup_paths s)) as [[|backup rest]|]; simpl.
  1,3: destruct (assign_flow src dst None (flow_tables s)); simpl; auto.
  destruct (assign_flow src dst (Some backup) (flow_tables s)); simpl; auto.
  now apply paired_bump_utilization.
Qed.

Lemma paired_add_link u v lu :
  paired lu -> paired (OD.set (v, u) 0 (OD.set (u, v) 0 lu)).
Proof.
  intros [Hnd Hsym]. split; [now repeat apply NoDup_keys_set|].
  intros a b. rewrite !get_set, (keqb_swap b a v u), (keqb_swap b a u v).
  destruct (keqb (a, b) (u, v)), (keqb (a, b) (v, u)); auto.
Qed.

Lemma paired_remove_link u v lu :
  paired lu -> paired (OD.pop (v, u) (OD.pop (u, v) lu)).
Proof.
  intros [Hnd Hsym]. split; [now repeat apply NoDup_keys_pop|].
  intros a b. rewrite !get_pop by now repeat apply NoDup_keys_pop.
  rewrite (keqb_swap b a v u), (keqb_swap b a u v).
  destruct (keqb (a, b) (u, v)), (keqb (a, b) (v, u)); auto.
Qed.

Lemma compute_step_keeps_utilization src dst s :
  link_utilization (state_of (_compute_path_with_priority src dst s))
  = link_utilization s.
Proof.
  unfold _compute_path_with_priority, install.
  destruct (nx.all_simple_paths (topology s) src dst).
  - destruct (assign_flow src dst None (flow_tables s)); reflexivity.
  - match goal with |- context [match ?c with Ok _ => _ | Err _ => _ end] =>
      destruct c as [q|[]] end; simpl; try reflexivity.
    + destruct (assign_flow src dst (Some q) (flow_tables s)); simpl; auto.
      destruct (1 <? _)%nat; reflexivity.
    + destruct (assign_flow src dst None (flow_tables s)); reflexivity.
Qed.

Lemma paired_exec c s :
  paired (link_utilization s) -> paired (link_utilization (state_of (exec c s))).
Proof.
  intros Hp. destruct c as [ns|u v w c|u v|src dst ty| |]; simpl.
  - unfold add_node.
    apply (for_each_invariant (fun s => paired (link_utilization s))); auto.
  - now apply paired_add_link.
  - unfold remove_link. destruct (nx.has_edge u v (topology s)); simpl; auto.
    unfold _handle_link_failure.
    apply (for_each_invariant (fun s => paired (link_utilization s))).
    + intros; now apply paired_reroute.
    + simpl. now apply paired_remove_link.
  - unfold inject_flow.
    match goal with |- context [flow_entry ?ft src dst] =>
      destruct (flow_entry ft src dst) as [[[|n p]|]|] end; simpl; auto.
    now apply paired_bump_utilization.
  - unfold compute_paths.
    apply (for_each_invariant (fun s => paired (link_utilization s))); auto.
    intros x s0 H0. now rewrite compute_step_keeps_utilization.
  - unfold show_utilization.
    apply (for_each_invariant (fun s => paired (link_utilization s))); auto.
    intros [[a b] n] s0 H0. unfold usage_line.
    destruct (nx.edge_data (topology s0) a b); simpl; auto.
    destruct (capacity e =? 0); auto.
Qed.

(** C10: in every reachable state the counter of (u, v) exists exactly when
    the counter of (v, u) exists, and the two hold the same value. *)
Theorem utilization_counters_paired s :
  reachable s ->
  forall u v,
    OD.get (u, v) (link_utilization s) = OD.get (v, u) (link_utilization s).
Proof.
  intros Hr. enough (paired (link_utilization s)) as [_ H] by exact H.
  induction Hr as [|c s Hr IH].
  - split; [constructor|reflexivity].
  - now apply paired_exec.
Qed.

Lemma utilization_counters_paired_witness :
  let s := state_of (exec (InjectFlow "A" "B" "default")
             (state_of (exec ComputePaths
               (state_of (exec (AddLink "A" "B" 1 10)
                 (state_of (exec (AddNode ["A"; "B"]) init))))))) in
  reachable s /\
  OD.get ("A", "B") (link_utilization s) = OD.get ("B", "A") (link_utilization s).
Proof.
  split.
  - repeat apply reach_exec. apply reach_init.
  - apply utilization_counters_paired. repeat apply reach_exec. apply reach_init.
Defined.

(** ** Injection *)

(** C3, as the code has it: for a pair with no flow-table entry,
    [inject_flow] reports missing routing information and nothing else,
    records the traffic descriptor of the pair, and leaves the topology, the
    flow tables, the backup paths and the utilization counters as they
    were. *)
Theorem inject_flow_unrouted s src dst ty :
  flow_entry (flow_tables s) src dst = None ->
  inject_flow src dst ty s
  = Done [NoRoutingInfo src dst]
      (set_traffic
         (OD.set (src, dst) {| ttype := ty; priority := priority_of ty |}
                 (traffic s)) s).
Proof.
  intros H. unfold inject_flow. simpl. now rewrite H.
Qed.

Lemma inject_flow_unrouted_witness :
  flow_entry (flow_tables init) "A" "B" = None /\
  traffic (state_of (inject_flow "A" "B" "Critical" init))
  = [(("A", "B"), {| ttype := "Critical"; priority := 3 |})].
Proof.
  split; [reflexivity|].
  rewrite (inject_flow_unrouted init "A" "B" "Critical"); reflexivity.
Defined.

(** C3 as stated fails: the traffic descriptors change. *)
Lemma inject_flow_unrouted_changes_state :
  flow_entry (flow_tables init) "A" "B" = None /\
  state_of (inject_flow "A" "B" "default" init) <> init.
Proof. split; [reflexivity|discriminate]. Qed.

(** C7: with [A; B; C] installed for the pair and the four counters of its
    hops present, [inject_flow] adds exactly 1 to each of (A,B), (B,A),
    (B,C), (C,B) and leaves every other counter alone. The nodes of an
    installed path are distinct. *)
Theorem inject_flow_counts_hops s src dst ty A B C ab ba bc cb :
  flow_entry (flow_tables s) src dst = Some (Some [A; B; C]) ->
  NoDup [A; B; C] ->
  OD.get (A, B) (link_utilization s) = Some ab ->
  OD.get (B, A) (link_utilization s) = Some ba ->
  OD.get (B, C) (link_utilization s) = Some bc ->
  OD.get (C, B) (link_utilization s) = Some cb ->
  exists s',
    inject_flow src dst ty s = Done [Routing ty src dst [A; B; C]] s' /\
    OD.get (A, B) (link_utilization s') = Some (ab + 1) /\
    OD.get (B, A) (link_utilization s') = Some (ba + 1) /\
    OD.get (B, C) (link_utilization s') = Some (bc + 1) /\
    OD.get (C, B) (link_utilization s') = Some (cb + 1) /\
    (forall k, k <> (A, B) -> k <> (B, A) -> k <> (B, C) -> k <> (C, B) ->
       OD.get k (link_utilization s') = OD.get k (link_utilization s)) /\
    OD.keys (link_utilization s') = OD.keys (link_utilization s).
Proof.
  intros Hflow Hnd Hab Hba Hbc Hcb.
  assert (A <> B /\ A <> C /\ B <> C) as (nAB & nAC & nBC).
  { inversion Hnd as [|? ? H1 H2]; subst. inversion H2 as [|? ? H3 _]; subst.
    simpl in *. intuition congruence. }
  unfold inject_flow. simpl flow_tables. rewrite Hflow.
  unfold bump_utilization. simpl link_utilization. simpl bump.
  rewrite Hab.
  rewrite (get_set_other (A, B) (B, A)) by congruence. rewrite Hba.
  rewrite !(get_set_other _ (B, C)) by congruence. rewrite Hbc.
  rewrite !(get_set_other _ (C, B)) by congruence. rewrite Hcb.
  eexists; split; [reflexivity|]. simpl link_utilization.
  repeat split.
  - rewrite !(get_set_other _ (A, B)) by congruence. apply get_set_same.
  - rewrite !(get_set_other _ (B, A)) by congruence. apply get_set_same.
  - rewrite !(get_set_other _ (B, C)) by congruence. apply get_set_same.
  - apply get_set_same.
  - intros k n1 n2 n3 n4. rewrite !get_set_other by congruence. reflexivity.
  - rewrite !keys_set_mem; auto; unfold OD.mem;
      repeat (rewrite get_set_other by congruence);
      rewrite ?Hab, ?Hba, ?Hbc, ?Hcb; reflexivity.
Qed.

Lemma inject_flow_counts_hops_witness :
  let s := state_of (run [AddNode ["A"; "B"; "C"]; AddLink "A" "B" 1 10;
                          AddLink "B" "C" 1 10; AddLink "A" "C" 5 10;
                          ComputePaths] init) in
  exists s',
    inject_flow "A" "C" "default" s
    = Done [Routing "default" "A" "C" ["A"; "B"; "C"]] s' /\
    OD.get ("A", "B") (link_utilization s') = Some (0 + 1) /\
    OD.get ("B", "A") (link_utilization s') = Some (0 + 1) /\
    OD.get ("B", "C") (link_utilization s') = Some (0 + 1) /\
    OD.get ("C", "B") (link_utilization s') = Some (0 + 1) /\
    (forall k, k <> ("A", "B") -> k <> ("B", "A") ->
               k <> ("B", "C") -> k <> ("C", "B") ->
       OD.get k (link_utilization s') = OD.get k (link_utilization s)) /\
    OD.keys (link_utilization s') = OD.keys (link_utilization s).
Proof.
  intros s.
  apply (inject_flow_counts_hops s "A" "C" "default" "A" "B" "C" 0 0 0 0);
    try reflexivity.
  repeat constructor; simpl; intuition discriminate.
Defined.

(** ** Adding a node *)

Lemma nx_add_node_present n G : In n (nx.nodes G) -> nx.add_node n G = G.
Proof.
  intros Hin. unfold nx.add_node.
  apply mem_keys in Hin. unfold nx.nodes in *. now rewrite Hin.
Qed.

(** C9, as the code has it: adding a node that is already in the topology
    leaves the topology, the traffic descriptors, the utilization counters
    and the backup paths as they were and resets the flow-table destination
    map of that node to the empty map. So adding the node twice gives the
    state that adding it once gives, and the state is unchanged when the
    map of the node was empty. *)
Theorem add_node_existing s n :
  In n (nx.nodes (topology s)) ->
  add_node [n] s
  = Done [AddedNode n] (set_flow_tables (OD.set n [] (flow_tables s)) s) /\
  state_of (add_node [n] (state_of (add_node [n] s))) = state_of (add_node [n] s) /\
  (OD.get n (flow_tables s) = Some [] -> state_of (add_node [n] s) = s).
Proof.
  intros Hin.
  assert (E : add_node [n] s
              = Done [AddedNode n] (set_flow_tables (OD.set n [] (flow_tables s)) s)).
  { unfold add_node, add_one_node. simpl.
    rewrite nx_add_node_present by assumption. now destruct s. }
  split; [exact E|]. split.
  - rewrite E. unfold add_node, add_one_node. simpl.
    rewrite nx_add_node_present by assumption. now rewrite set_set.
  - intros Hrow. rewrite E. simpl.
    rewrite set_id by assumption. apply set_flow_tables_id.
Qed.

Lemma add_node_existing_witness :
  let s := state_of (run [AddNode ["A"; "B"]; AddLink "A" "B" 1 10;
                          ComputePaths] init) in
  add_node ["A"] s
  = Done [AddedNode "A"] (set_flow_tables (OD.set "A" [] (flow_tables s)) s) /\
  state_of (add_node ["A"] (state_of (add_node ["A"] s)))
  = state_of (add_node ["A"] s) /\
  (OD.get "A" (flow_tables s) = Some [] -> state_of (add_node ["A"] s) = s).
Proof.
  intros s. apply (add_node_existing s "A"). simpl. auto.
Defined.

(** C9 as stated fails: the flow-table map of the node is emptied. *)
Lemma add_node_existing_loses_flows :
  let s := state_of (run [AddNode ["A"; "B"]; AddLink "A" "B" 1 10;
                          ComputePaths] init) in
  In "A" (nx.nodes (topology s)) /\
  OD.get "A" (flow_tables s) = Some [("B", Some ["A"; "B"])] /\
  OD.get "A" (flow_tables (state_of (add_node ["A"] s))) = Some [] /\
  state_of (add_node ["A"] s) <> s.
Proof.
  repeat split; [simpl; auto | discriminate].
Qed.

(** ** Path computation: what one step decides and what it writes *)

Lemma compute_step_plan src dst s :
  _compute_path_with_priority src dst s
  = match plan s src dst with
    | Ok pl => apply_plan src dst pl s
    | Err e => Raised [] e s
    end.
Proof.
  unfold _compute_path_with_priority, plan, apply_plan, install.
  destruct (nx.all_simple_paths (topology s) src dst) as [|p0 ps]; simpl fst.
  - destruct (assign_flow src dst None (flow_tables s)); reflexivity.
  - match goal with |- context [match ?c with Ok _ => _ | Err _ => _ end] =>
      destruct c as [q|[]] end; simpl fst; simpl snd; try reflexivity.
    destruct (assign_flow src dst (Some q) (flow_tables s)); [|reflexivity].
    destruct (1 <? _)%nat; reflexivity.
Qed.

Lemma plan_same_inputs s s' src dst :
  same_inputs s s' -> plan s' src dst = plan s src dst.
Proof.
  intros (HG & Ht & Hu & _). unfold plan, priority_for.
  now rewrite HG, Ht, Hu.
Qed.

Lemma same_inputs_refl s : same_inputs s s.
Proof. repeat split. Qed.

Lemma same_inputs_trans s1 s2 s3 :
  same_inputs s1 s2 -> same_inputs s2 s3 -> same_inputs s1 s3.
Proof.
  intros (a & b & c & d) (a' & b' & c' & d').
  repeat split; try congruence; intros n; now rewrite d'.
Qed.

Lemma mem_set_present {V} (k k' : node) (v v0 : V) (d : OD.t node V) :
  OD.get k d = Some v0 -> OD.mem k' (OD.set k v d) = OD.mem k' d.
Proof.
  intros Hk. unfold OD.mem. rewrite get_set.
  destruct (keqb_spec k' k) as [->|]; auto. now rewrite Hk.
Qed.

Lemma flow_entry_assign a b e ft ft' src dst :
  assign_flow a b e ft = Some ft' ->
  flow_entry ft' src dst
  = if keqb (src, dst) (a, b) then Some e else flow_entry ft src dst.
Proof.
  unfold assign_flow, flow_entry.
  destruct (OD.get a ft) as [row|] eqn:Ha; [|discriminate].
  intros [= <-]. rewrite get_set.
  change (keqb (src, dst) (a, b)) with (keqb src a && keqb dst b).
  destruct (keqb_spec src a) as [->|]; simpl; auto.
  rewrite Ha, get_set. reflexivity.
Qed.

Lemma backup_write a b bk s src dst :
  OD.get (src, dst) (backup_paths (write_backup a b bk s))
  = if keqb (src, dst) (a, b)
    then match bk with Some l => Some l | None => OD.get (src, dst) (backup_paths s) end
    else OD.get (src, dst) (backup_paths s).
Proof.
  destruct bk as [l|]; unfold write_backup.
  - simpl backup_paths. apply get_set.
  - now destruct (keqb (src, dst) (a, b)).
Qed.

Lemma write_backup_fields a b bk s :
  topology (write_backup a b bk s) = topology s /\
  traffic (write_backup a b bk s) = traffic s /\
  link_utilization (write_backup a b bk s) = link_utilization s /\
  flow_tables (write_backup a b bk s) = flow_tables s.
Proof. destruct bk; repeat split. Qed.

(** What a step that returns has done. *)
Lemma compute_step_done a b s o s1 :
  _compute_path_with_priority a b s = Done o s1 ->
  o = [] /\ same_inputs s s1 /\
  exists e bk,
    plan s a b = Ok (e, bk) /\
    forall src dst,
      flow_entry (flow_tables s1) src dst
      = (if keqb (src, dst) (a, b) then Some e
         else flow_entry (flow_tables s) src dst) /\
      OD.get (src, dst) (backup_paths s1)
      = (if keqb (src, dst) (a, b)
         then match bk with
              | Some l => Some l
              | None => OD.get (src, dst) (backup_paths s)
              end
         else OD.get (src, dst) (backup_paths s)).
Proof.
  rewrite compute_step_plan.
  destruct (plan s a b) as [[e bk]|x] eqn:Hplan; [|discriminate].
  unfold apply_plan. simpl fst. simpl snd.
  destruct (assign_flow a b e (flow_tables s)) as [ft|] eqn:Hft; [|discriminate].
  intros [= <- <-]. split; [reflexivity|].
  destruct (write_backup_fields a b bk (set_flow_tables ft s)) as (f1 & f2 & f3 & f4).
  split.
  - repeat split; try assumption.
    intros n. rewrite f4. simpl. unfold assign_flow in Hft.
    destruct (OD.get a (flow_tables s)) as [row|] eqn:Ha; [|discriminate].
    injection Hft as <-. now apply mem_set_present with (v0 := row).
  - exists e, bk. split; [reflexivity|]. intros src dst. split.
    + rewrite f4. simpl. now apply flow_entry_assign.
    + rewrite backup_write. reflexivity.
Qed.

(** A step that raises leaves the state as it was. *)
Lemma compute_step_raised a b s o x s1 :
  _compute_path_with_priority a b s = Raised o x s1 -> o = [] /\ s1 = s.
Proof.
  rewrite compute_step_plan.
  destruct (plan s a b) as [pl|y].
  - unfold apply_plan. destruct (assign_flow _ _ _ _); [discriminate|].
    now intros [= <- _ <-].
  - now intros [= <- _ <-].
Qed.

Lemma In_ordered_pairs ns src dst :
  In (src, dst) (ordered_pairs ns) <-> In src ns /\ In dst ns /\ src <> dst.
Proof.
  unfold ordered_pairs. rewrite in_flat_map. split.
  - intros (a & Ha & Hin). apply in_map_iff in Hin as (d & [= <- <-] & Hd).
    apply filter_In in Hd as [Hd Hne]. repeat split; auto.
    intros ->. now rewrite keqb_refl in Hne.
  - intros (Hs & Hd & Hne). exists src. split; auto.
    apply in_map_iff. exists dst. split; auto.
    apply filter_In. split; auto. now rewrite keqb_neq.
Qed.

(** What the loop over the pairs has done when it returns. *)
Lemma compute_loop_done l : forall s o s',
  for_each l compute_body s = Done o s' ->
  o = [] /\ same_inputs s s' /\
  forall src dst,
    (In (src, dst) l ->
       exists e bk,
         plan s src dst = Ok (e, bk) /\
         flow_entry (flow_tables s') src dst = Some e /\
         OD.get (src, dst) (backup_paths s')
         = match bk with
           | Some x => Some x
           | None => OD.get (src, dst) (backup_paths s)
           end) /\
    (~ In (src, dst) l ->
       flow_entry (flow_tables s') src dst = flow_entry (flow_tables s) src dst /\
       OD.get (src, dst) (backup_paths s') = OD.get (src, dst) (backup_paths s)).
Proof.
  induction l as [|[a b] l IH]; intros s o s' Hrun; simpl in Hrun.
  - injection Hrun as <- <-. split; [reflexivity|]. split; [apply same_inputs_refl|].
    intros src dst. split; [intros []|auto].
  - apply bind_Done_inv in Hrun as (o1 & s1 & o2 & Hstep & Hrest & ->).
    unfold compute_body in Hstep. simpl in Hstep.
    apply compute_step_done in Hstep as (-> & Hsame1 & e & bk & Hplan & Heff).
    apply IH in Hrest as (-> & Hsame2 & Hloop).
    split; [reflexivity|]. split; [eapply same_inputs_trans; eauto|].
    intros src dst. destruct (Heff src dst) as [Hf Hb].
    destruct (Hloop src dst) as [Hin Hout].
    destruct (in_dec (fun x y : node * node =>
                        reflect_dec _ _ (keqb_spec x y)) (src, dst) l) as [Hl|Hl].
    + split; [|intros Hn; exfalso; apply Hn; now right].
      intros _. destruct (Hin Hl) as (e' & bk' & Hplan' & Hf' & Hb').
      rewrite (plan_same_inputs s s1) in Hplan' by assumption.
      exists e', bk'. repeat split; auto.
      rewrite Hb', Hb. destruct (keqb_spec (src, dst) (a, b)) as [E|E]; auto.
      injection E as -> ->. rewrite Hplan in Hplan'. injection Hplan' as <- <-.
      now destruct bk.
    + destruct (Hout Hl) as [Hf' Hb']. rewrite Hf', Hb', Hf, Hb.
      destruct (keqb_spec (src, dst) (a, b)) as [E|E].
      * injection E as -> ->.
        split; [|intros Hn; exfalso; apply Hn; now left].
        intros _. exists e, bk. auto.
      * split; [|auto]. intros [E'|Hl']; [congruence|contradiction].
Qed.

(** ** Running the computation again *)

Lemma assign_flow_same src dst e ft :
  flow_entry ft src dst = Some e -> assign_flow src dst e ft = Some ft.
Proof.
  unfold flow_entry, assign_flow, FlowTable in *.
  destruct (OD.get src ft) as [row|] eqn:Hrow; [|discriminate].
  intros Hdst. now rewrite (set_id dst e row Hdst), (set_id src row ft Hrow).
Qed.

(** A step whose decision is already in the tables writes nothing new. *)
Lemma compute_step_settled src dst s e bk :
  plan s src dst = Ok (e, bk) ->
  flow_entry (flow_tables s) src dst = Some e ->
  (forall l, bk = Some l -> OD.get (src, dst) (backup_paths s) = Some l) ->
  _compute_path_with_priority src dst s = Done [] s.
Proof.
  intros Hplan Hflow Hbk. rewrite compute_step_plan, Hplan.
  unfold apply_plan. simpl fst. simpl snd.
  rewrite (assign_flow_same _ _ _ _ Hflow), set_flow_tables_id.
  destruct bk as [l|]; simpl; [|reflexivity].
  rewrite (set_id _ _ _ (Hbk l eq_refl)). now rewrite set_backup_paths_id.
Qed.

Lemma for_each_app {X} (l1 l2 : list X) body s :
  for_each (l1 ++ l2) body s = bind (for_each l1 body s) (for_each l2 body).
Proof.
  revert s. induction l1 as [|x l1 IH]; intros s; simpl.
  - destruct (for_each l2 body s); reflexivity.
  - destruct (body x s) as [o1 s1|o1 e s1]; simpl; [|reflexivity].
    rewrite IH. destruct (for_each l1 body s1) as [o2 s2|o2 e s2]; simpl.
    + destruct (for_each l2 body s2); simpl; now rewrite app_assoc.
    + reflexivity.
Qed.

(** Where a loop that raises stopped. *)
Lemma for_each_Raised_inv {X} (l : list X) body : forall s o e s',
  for_each l body s = Raised o e s' ->
  exists l1 x l2 o1 s1 o2,
    l = l1 ++ x :: l2 /\ for_each l1 body s = Done o1 s1 /\
    body x s1 = Raised o2 e s' /\ o = o1 ++ o2.
Proof.
  induction l as [|x l IH]; intros s o e s' Hrun; simpl in Hrun; [discriminate|].
  destruct (body x s) as [o1 s1|o1 e1 s1] eqn:Hx; simpl in Hrun.
  - destruct (for_each l body s1) as [o2 s2|o2 e2 s2] eqn:Hl; [discriminate|].
    injection Hrun as <- <- <-.
    destruct (IH _ _ _ _ Hl) as (l1 & y & l2 & p1 & t1 & p2 & -> & Hl1 & Hy & ->).
    exists (x :: l1), y, l2, (o1 ++ p1), t1, p2. simpl. rewrite Hx. simpl. rewrite Hl1.
    repeat split; auto. now rewrite app_assoc.
  - injection Hrun as <- <- <-.
    exists [], x, l, [], s, o1. simpl. auto.
Qed.

Lemma compute_loop_again l s s' :
  for_each l compute_body s = Done [] s' ->
  for_each l compute_body s' = Done [] s'.
Proof.
  intros Hrun. apply compute_loop_done in Hrun as (_ & Hsame & Heff).
  assert (Hall : forall sd, In sd l -> compute_body sd s' = Done [] s').
  { intros [src dst] Hin. destruct (Heff src dst) as [Hin' _].
    destruct (Hin' Hin) as (e & bk & Hplan & Hf & Hb).
    unfold compute_body. simpl. apply compute_step_settled with (e := e) (bk := bk).
    - now rewrite (plan_same_inputs s s').
    - exact Hf.
    - intros x ->. exact Hb. }
  clear Heff Hsame. induction l as [|sd l IH]; simpl; [reflexivity|].
  rewrite Hall by now left. simpl. rewrite IH; [reflexivity|].
  intros sd' Hin. apply Hall. now right.
Qed.

(** C8: a second [compute_paths] right after the first ends as the first
    did and leaves the flow tables and the backup paths as the first left
    them. *)
Theorem compute_paths_twice s :
  let first := compute_paths s in
  let second := compute_paths (state_of first) in
  second = first /\
  flow_tables (state_of second) = flow_tables (state_of first) /\
  backup_paths (state_of second) = backup_paths (state_of first).
Proof.
  cbv zeta.
  enough (E : compute_paths (state_of (compute_paths s)) = compute_paths s)
    by (rewrite E; auto).
  unfold compute_paths.
  change (fun sd : node * node => _compute_path_with_priority (fst sd) (snd sd))
    with compute_body.
  destruct (for_each (ordered_pairs (nx.nodes (topology s))) compute_body s)
    as [o s'|o e s'] eqn:Hrun; simpl state_of.
  - destruct (compute_loop_done _ _ _ _ Hrun) as (-> & (HG & _) & _).
    rewrite HG. now apply (compute_loop_again _ s).
  - apply for_each_Raised_inv in Hrun
      as (l1 & [a b] & l2 & o1 & s1 & o2 & Hl & Hl1 & Hx & ->).
    unfold compute_body in Hx. simpl in Hx.
    destruct (compute_step_raised _ _ _ _ _ _ Hx) as [-> ->].
    destruct (compute_loop_done _ _ _ _ Hl1) as (-> & (HG & _) & _).
    rewrite HG, Hl, for_each_app, (compute_loop_again _ _ _ Hl1).
    simpl. unfold compute_body at 1. simpl. now rewrite Hx.
Qed.

(** ** What [compute_paths] overwrites *)


(** The backup list a decision carries. *)
Lemma plan_backup s src dst e bk :
  plan s src dst = Ok (e, bk) ->
  let all_paths := nx.all_simple_paths (topology s) src dst in
  ((List.length all_paths <= 1)%nat -> bk = None) /\
  (forall p, e = Some p -> (1 < List.length all_paths)%nat ->
     bk = Some (filter (fun q => negb (path_eqb q p)) all_paths)).
Proof.
  unfold plan. cbv zeta.
  destruct (nx.all_simple_paths (topology s) src dst) as [|p0 ps] eqn:Hall.
  - intros [= <- <-]. split; [reflexivity|discriminate].
  - match goal with |- context [match ?c with Ok _ => _ | Err _ => _ end] =>
      destruct c as [q|[]] end; try discriminate.
    + intros [= <- <-]. split.
      * intros Hlen. apply Nat.ltb_ge in Hlen.
        change (List.length (p0 :: ps)) with (S (List.length ps)) in Hlen.
        now rewrite Hlen.
      * intros p [= <-] Hlen. apply Nat.ltb_lt in Hlen.
        change (List.length (p0 :: ps)) with (S (List.length ps)) in Hlen.
        now rewrite Hlen.
    + intros [= <- <-]. split; [reflexivity|discriminate].
Qed.

Lemma pair_in_dec (x : node * node) l : In x l \/ ~ In x l.
Proof.
  destruct (in_dec (fun a b : node * node =>
                      match keqb_spec a b with
                      | ReflectT _ E => left E
                      | ReflectF _ N => right N
                      end) x l); auto.
Qed.





(** Both cases occur. After [AddNode [A; B]; AddLink A B] and after
    [AddLink A B] alone the topology, the traffic descriptors and the
    counters are the same; the first run returns and has written [A; B] for
    (A, B), the second raises [KeyError] on the missing flow table of A
    and leaves the pair without an entry, as before. *)
Lemma compute_paths_raises_before_pair :
  let s1 := state_of (run [AddNode ["A"; "B"]; AddLink "A" "B" 1 10] init) in
  let s2 := state_of (run [AddLink "A" "B" 1 10] init) in
  topology s1 = topology s2 /\ traffic s1 = traffic s2 /\
  link_utilization s1 = link_utilization s2 /\
  (exists t1, compute_paths s1 = Done [] t1 /\
     flow_entry (flow_tables t1) "A" "B" = Some (Some ["A"; "B"])) /\
  compute_paths s2 = Raised [] KeyError s2 /\
  flow_entry (flow_tables s2) "A" "B" = None.
Proof.
  cbv zeta. repeat split.
  eexists. split; vm_compute; reflexivity.
Qed.


(** ** Simple paths of the topology *)

Lemma linked_adj G u v : linked G u v <-> In v (OD.keys (nx.adj G u)).
Proof.
  unfold linked, nx.has_edge, nx.adj.
  destruct (OD.get u G) as [a|].
  - apply mem_keys.
  - simpl. split; [discriminate|tauto].
Qed.

Lemma linked_node G u v : linked G u v -> In u (nx.nodes G).
Proof.
  unfold linked, nx.has_edge, nx.nodes. intros H. apply mem_keys. unfold OD.mem.
  destruct (OD.get u G); [reflexivity|discriminate].
Qed.

Lemma existsb_keqb (x : node) l : existsb (keqb x) l = true <-> In x l.
Proof.
  rewrite existsb_exists. split.
  - intros (y & Hy & E). apply keqb_eq in E. now subst.
  - intros Hin. exists x. split; auto. apply keqb_refl.
Qed.

Lemma last_default (l : path) a b : l <> [] -> last l a = last l b.
Proof.
  induction l as [|x [|y l] IH]; intros H; [contradiction|reflexivity|].
  change (last (y :: l) a = last (y :: l) b). apply IH. discriminate.
Qed.

Lemma last_In (l : path) a : l <> [] -> In (last l a) l.
Proof.
  induction l as [|x [|y l] IH]; intros H; [contradiction|now left|].
  right. change (In (last (y :: l) a) (y :: l)). apply IH. discriminate.
Qed.

Lemma walk_nodes G p dst :
  walk G p -> last p dst = dst -> In dst (nx.nodes G) ->
  forall x, In x p -> In x (nx.nodes G).
Proof.
  induction p as [|a [|b r] IH]; intros Hw Hlast Hdst x Hin.
  - destruct Hin.
  - destruct Hin as [<-|[]]. simpl in Hlast. now subst.
  - destruct Hw as [Hl Hw]. destruct Hin as [<-|Hin].
    + eapply linked_node; eauto.
    + apply IH; auto.
Qed.

(** Every enumerated path extends the current path by a walk to the target
    that repeats no node. *)
Lemma simple_paths_from_sound G target cutoff : forall visited v q,
  In q (nx.simple_paths_from cutoff G target visited v) ->
  exists ext,
    q = visited ++ ext /\ ext <> [] /\ last ext target = target /\
    walk G (v :: ext) /\ (NoDup visited -> NoDup q).
Proof.
  induction cutoff as [|c IH]; intros visited v q Hin; simpl in Hin.
  { exfalso; exact Hin. }
  apply in_flat_map in Hin as (child & Hchild & Hq).
  apply linked_adj in Hchild.
  revert Hq. destruct (existsb (keqb child) visited) eqn:Hvis; intros Hq; [exfalso; exact Hq|].
  assert (Hfresh : ~ In child visited).
  { intros Hc. apply existsb_keqb in Hc. congruence. }
  assert (Hnd : NoDup visited -> NoDup (visited ++ [child])).
  { intros H. apply NoDup_app; auto.
    - repeat constructor. simpl. tauto.
    - intros x Hx [<-|[]]. contradiction. }
  revert Hq. destruct (keqb_spec child target) as [->|Hne]; intros Hq.
  - destruct Hq as [<-|[]]. exists [target]. simpl. repeat split; auto.
    discriminate.
  - apply IH in Hq as (ext & -> & Hext & Hlast & Hw & Hnd').
    exists (child :: ext). rewrite <- app_assoc. simpl. repeat split; auto.
    + discriminate.
    + destruct ext; [contradiction|exact Hlast].
    + intros H. specialize (Hnd' (Hnd H)). now rewrite <- app_assoc in Hnd'.
Qed.

(** Every such extension that fits the cutoff is enumerated. *)
Lemma simple_paths_from_complete G target cutoff : forall visited v ext,
  ext <> [] -> last ext target = target -> walk G (v :: ext) ->
  NoDup (visited ++ ext) -> (List.length ext <= cutoff)%nat ->
  In (visited ++ ext) (nx.simple_paths_from cutoff G target visited v).
Proof.
  induction cutoff as [|c IH]; intros visited v ext Hext Hlast Hw Hnd Hlen.
  - destruct ext; [contradiction|simpl in Hlen; lia].
  - destruct ext as [|child ext]; [contradiction|]. simpl.
    apply in_flat_map. exists child. destruct Hw as [Hl Hw]. split.
    + now apply linked_adj.
    + assert (Hfresh : ~ In child visited).
      { intros Hc. apply NoDup_remove_2 in Hnd. apply Hnd.
        apply in_or_app. now left. }
      destruct (existsb (keqb child) visited) eqn:Hvis.
      { apply existsb_keqb in Hvis. contradiction. }
      destruct (keqb_spec child target) as [->|Hne].
      * destruct ext as [|x ext]; [now left|]. exfalso.
        apply NoDup_app_remove_l in Hnd. inversion Hnd as [|? ? Hnin _]; subst.
        apply Hnin. rewrite <- Hlast at 1.
        change (last (target :: x :: ext) target) with (last (x :: ext) target).
        apply last_In. discriminate.
      * destruct ext as [|x ext]; [simpl in Hlast; congruence|].
        replace (visited ++ child :: x :: ext)
          with ((visited ++ [child]) ++ x :: ext) by now rewrite <- app_assoc.
        apply IH.
        -- discriminate.
        -- exact Hlast.
        -- exact Hw.
        -- now rewrite <- app_assoc.
        -- simpl in *. lia.
Qed.

(** [all_simple_paths] enumerates exactly the simple paths between two
    distinct nodes. *)
Lemma all_simple_paths_sound G src dst p :
  In p (nx.all_simple_paths G src dst) -> simple_path G src dst p.
Proof.
  intros Hin. apply simple_paths_from_sound in Hin as (ext & -> & Hext & Hlast & Hw & Hnd).
  repeat split; auto.
  - destruct ext as [|n ext]; [contradiction|].
    change (last (n :: ext) src = dst).
    rewrite (last_default _ src dst) by discriminate. exact Hlast.
  - apply Hnd. repeat constructor. simpl. tauto.
Qed.

Lemma all_simple_paths_complete G src dst p :
  src <> dst -> In dst (nx.nodes G) ->
  simple_path G src dst p -> In p (nx.all_simple_paths G src dst).
Proof.
  intros Hne Hdst (Hhd & Hlast & Hnd & Hw).
  destruct p as [|a ext]; [discriminate|]. injection Hhd as ->.
  assert (Hext : ext <> []).
  { intros ->. simpl in Hlast. contradiction. }
  assert (Hlast' : last ext dst = dst).
  { destruct ext as [|x ext]; [contradiction|].
    change (last (x :: ext) src = dst) in Hlast.
    rewrite (last_default _ dst src) by discriminate. exact Hlast. }
  apply (simple_paths_from_complete G dst _ [src] src ext); auto.
  assert (Hincl : incl (src :: ext) (nx.nodes G)).
  { intros x Hx. apply (walk_nodes G (src :: ext) dst); auto.
    destruct ext as [|y ext]; [contradiction|exact Hlast']. }
  pose proof (NoDup_incl_length Hnd Hincl) as Hlen. simpl in Hlen. lia.
Qed.

(** ** Load-balanced selection *)

(** [min] returns the first of the least entries. *)
Lemma min_by_first_spec rest : forall best,
  exists l1 l2,
    best :: rest = l1 ++ min_by_first best rest :: l2 /\
    (forall x, In x l1 -> fst (min_by_first best rest) < fst x) /\
    (forall x, In x l2 -> fst (min_by_first best rest) <= fst x).
Proof.
  induction rest as [|x r IH]; intros best; simpl.
  - exists [], []. repeat split; intros ? [].
  - destruct (Z.ltb_spec (fst x) (fst best)) as [Hlt|Hge].
    + destruct (IH x) as (l1 & l2 & E & H1 & H2).
      exists (best :: l1), l2. rewrite E. repeat split; auto.
      intros y [<-|Hy]; auto.
      assert (Hx : In x (l1 ++ min_by_first x r :: l2)) by (rewrite <- E; now left).
      apply in_app_or in Hx as [Hx|[Hx|Hx]].
      * specialize (H1 _ Hx). lia.
      * rewrite Hx. lia.
      * specialize (H2 _ Hx). lia.
    + destruct (IH best) as (l1 & l2 & E & H1 & H2).
      destruct l1 as [|b l1].
      * injection E as Eb Er. exists [], (x :: r).
        split; [simpl; congruence|]. split; [intros ? []|].
        intros y [<-|Hy]; [rewrite <- Eb; lia|]. apply H2. rewrite <- Er. exact Hy.
      * injection E as <- Er. exists (best :: x :: l1), l2.
        split; [simpl; do 2 f_equal; exact Er|]. split; [|exact H2].
        assert (Hb : fst (min_by_first best r) < fst best) by (apply H1; now left).
        intros y [<-|[<-|Hy]]; try lia. apply H1. now right.
Qed.

Lemma select_load_balanced_spec lu paths p :
  _select_load_balanced_path lu paths = Ok p ->
  exists before after,
    paths = before ++ p :: after /\
    (forall q, In q before -> path_utilization lu p < path_utilization lu q) /\
    (forall q, In q after -> path_utilization lu p <= path_utilization lu q).
Proof.
  unfold _select_load_balanced_path.
  destruct paths as [|p0 ps]; simpl; [discriminate|]. intros [= <-].
  destruct (min_by_first_spec (map (fun p => (path_utilization lu p, p)) ps)
              (path_utilization lu p0, p0)) as (l1 & l2 & E & H1 & H2).
  set (m := min_by_first _ _) in *.
  change ((path_utilization lu p0, p0) :: map (fun p => (path_utilization lu p, p)) ps)
    with (map (fun p => (path_utilization lu p, p)) (p0 :: ps)) in E.
  apply map_eq_app in E as (before & rest & Ep & <- & Er).
  apply map_eq_cons in Er as (q & after & -> & Em & <-).
  exists before, after. rewrite <- Em in *. simpl in *. repeat split; auto.
  - intros x Hx. apply (H1 (path_utilization lu x, x)).
    apply in_map_iff. now exists x.
  - intros x Hx. apply (H2 (path_utilization lu x, x)).
    apply in_map_iff. now exists x.
Qed.

Lemma select_load_balanced_nonempty lu p0 ps :
  exists p, _select_load_balanced_path lu (p0 :: ps) = Ok p.
Proof. unfold _select_load_balanced_path. simpl. eauto. Qed.

(** The sum that [_select_load_balanced_path] computes for a path is its
    total utilization. *)
Lemma path_utilization_total lu p :
  path_utilization lu p = total_utilization lu p.
Proof.
  induction p as [|a [|b rest] IH]; try reflexivity.
  change (path_utilization lu (a :: b :: rest))
    with (match OD.get (a, b) lu with Some x => x | None => 0 end
          + path_utilization lu (b :: rest)).
  rewrite IH. reflexivity.
Qed.

(** C6: for a pair whose priority is not critical, the path that
    [compute_paths] installs is a simple path of least total utilization
    (the sum of the directed counters over its consecutive node pairs,
    missing counters counting 0), and the first such path in the order of
    the enumeration; with no simple path the entry is [None]. *)
Theorem load_balanced_path_is_first_least s o s' src dst :
  compute_paths s = Done o s' ->
  In src (nx.nodes (topology s)) ->
  In dst (nx.nodes (topology s)) ->
  src <> dst ->
  priority_for src dst s <> critical ->
  let G := topology s in
  let lu := link_utilization s in
  match flow_entry (flow_tables s') src dst with
  | Some (Some p) =>
      simple_path G src dst p /\
      (forall q, simple_path G src dst q ->
         total_utilization lu p <= total_utilization lu q) /\
      exists before after,
        nx.all_simple_paths G src dst = before ++ p :: after /\
        forall q, In q before -> total_utilization lu p < total_utilization lu q
  | Some None => forall q, ~ simple_path G src dst q
  | None => False
  end.
Proof.
  intros Hrun Hsrc Hdst Hne Hprio. cbv zeta.
  unfold compute_paths in Hrun.
  apply compute_loop_done in Hrun as (_ & _ & Heff).
  destruct (Heff src dst) as [Hin _].
  destruct Hin as (e & bk & Hplan & -> & _).
  { apply In_ordered_pairs. auto. }
  unfold plan in Hplan.
  apply Z.eqb_neq in Hprio. rewrite Hprio in Hplan.
  destruct (nx.all_simple_paths (topology s) src dst) as [|p0 ps] eqn:Hall.
  - injection Hplan as <- _. intros q Hq.
    apply all_simple_paths_complete in Hq; auto. now rewrite Hall in Hq.
  - destruct (select_load_balanced_nonempty (link_utilization s) p0 ps) as [p Hp].
    rewrite Hp in Hplan. injection Hplan as <- _.
    apply select_load_balanced_spec in Hp as (before & after & E & Hb & Ha).
    assert (Hmem : In p (nx.all_simple_paths (topology s) src dst)).
    { rewrite Hall, E. apply in_or_app. right. now left. }
    split; [now apply all_simple_paths_sound|]. split.
    + intros q Hq. rewrite <- !path_utilization_total.
      apply all_simple_paths_complete in Hq; auto.
      rewrite Hall, E in Hq. apply in_app_or in Hq as [Hq|[<-|Hq]].
      * specialize (Hb _ Hq). lia.
      * lia.
      * auto.
    + exists before, after. split; [exact E|].
      intros q Hq. rewrite <- !path_utilization_total. auto.
Qed.

(** On the sample state one flow has been injected over [A; B; C]: the path
    [A; B; C], enumerated first, has total utilization 2, the path [A; C]
    has 0, and the computation installs [A; C]. *)
Lemma load_balanced_path_is_first_least_witness :
  let s := state_of (run [AddNode ["A"; "B"; "C"]; AddLink "A" "B" 1 10;
                          AddLink "B" "C" 1 10; AddLink "A" "C" 5 10;
                          ComputePaths; InjectFlow "A" "C" "default"] init) in
  let s' := state_of (compute_paths s) in
  let G := topology s in
  let lu := link_utilization s in
  (nx.all_simple_paths G "A" "C" = [["A"; "B"; "C"]; ["A"; "C"]] /\
   total_utilization lu ["A"; "B"; "C"] = 2 /\
   total_utilization lu ["A"; "C"] = 0 /\
   flow_entry (flow_tables s') "A" "C" = Some (Some ["A"; "C"])) /\
  match flow_entry (flow_tables s') "A" "C" with
  | Some (Some p) =>
      simple_path G "A" "C" p /\
      (forall q, simple_path G "A" "C" q ->
         total_utilization lu p <= total_utilization lu q) /\
      exists before after,
        nx.all_simple_paths G "A" "C" = before ++ p :: after /\
        forall q, In q before -> total_utilization lu p < total_utilization lu q
  | Some None => forall q, ~ simple_path G "A" "C" q
  | None => False
  end.
Proof.
  intros s s'. split.
  - repeat split; vm_compute; reflexivity.
  - apply (load_balanced_path_is_first_least s [] s' "A" "C").
    + vm_compute. reflexivity.
    + vm_compute. auto.
    + vm_compute. auto.
    + discriminate.
    + vm_compute. discriminate.
Defined.

(** ** Weights of paths *)

Lemma linked_data G u v : linked G u v <-> exists d, nx.edge_data G u v = Some d.
Proof.
  unfold linked, nx.has_edge, nx.edge_data, OD.mem.
  destruct (OD.get u G) as [a|].
  - destruct (OD.get v a) as [d|]; split; eauto; try discriminate.
    intros [d Hd]. discriminate.
  - split; [discriminate|]. intros [d Hd]. discriminate.
Qed.

Lemma joins_snoc p a b : joins p a b -> exists p', p = p' ++ [b].
Proof.
  intros [Hhd Hlast]. destruct p as [|x p]; [discriminate|].
  destruct (exists_last (l := x :: p)) as (p' & y & E); [discriminate|].
  rewrite E in *. rewrite last_last in Hlast. subst. now exists p'.
Qed.

Lemma joins_app_snoc p a b c : joins (p ++ [b]) a b -> joins ((p ++ [b]) ++ [c]) a c.
Proof.
  intros [Hhd _]. split.
  - destruct p; simpl in *; auto.
  - apply last_last.
Qed.

Lemma walk_snoc G p b c : walk G (p ++ [b]) -> linked G b c -> walk G ((p ++ [b]) ++ [c]).
Proof.
  induction p as [|x p IH]; intros Hw Hl.
  - simpl. auto.
  - destruct p as [|y p].
    + simpl in *. tauto.
    + change (linked G x y /\ walk G ((y :: p) ++ [b])) in Hw.
      change (linked G x y /\ walk G (((y :: p) ++ [b]) ++ [c])).
      destruct Hw; split; auto.
Qed.

Lemma walk_join G p q b : walk G (p ++ [b]) -> walk G (b :: q) -> walk G (p ++ b :: q).
Proof.
  induction p as [|x p IH]; intros Hp Hq.
  - exact Hq.
  - destruct p as [|y p].
    + simpl in *. tauto.
    + change (linked G x y /\ walk G ((y :: p) ++ [b])) in Hp.
      change (linked G x y /\ walk G ((y :: p) ++ b :: q)).
      destruct Hp; split; auto.
Qed.

Lemma walk_split G p q b : walk G (p ++ b :: q) -> walk G (p ++ [b]) /\ walk G (b :: q).
Proof.
  induction p as [|x p IH]; intros Hw.
  - simpl. auto.
  - destruct p as [|y p].
    + simpl in *. tauto.
    + change (linked G x y /\ walk G ((y :: p) ++ b :: q)) in Hw.
      change ((linked G x y /\ walk G ((y :: p) ++ [b])) /\ walk G (b :: q)).
      destruct Hw as [Hxy Hw]. apply IH in Hw. tauto.
Qed.

Lemma path_weight_join G p q b :
  path_weight G (p ++ b :: q) = path_weight G (p ++ [b]) + path_weight G (b :: q).
Proof.
  induction p as [|x p IH].
  - simpl. lia.
  - destruct p as [|y p].
    + simpl. lia.
    + change (link_weight G x y + path_weight G ((y :: p) ++ b :: q)
              = link_weight G x y + path_weight G ((y :: p) ++ [b])
                + path_weight G (b :: q)).
      rewrite IH. lia.
Qed.

Lemma path_weight_snoc G p b c :
  path_weight G ((p ++ [b]) ++ [c]) = path_weight G (p ++ [b]) + link_weight G b c.
Proof.
  rewrite <- app_assoc. simpl app. rewrite path_weight_join. simpl. lia.
Qed.

Section SymmetricGraph.
Variable G : nx.Graph.
Hypothesis G_wf : well_formed G.
Hypothesis G_nonneg : nonnegative G.

Lemma linked_sym u v : linked G u v -> linked G v u.
Proof. rewrite !linked_data, (wf_sym G G_wf v u). auto. Qed.

Lemma link_weight_sym u v : link_weight G u v = link_weight G v u.
Proof. unfold link_weight. now rewrite (wf_sym G G_wf u v). Qed.

Lemma link_weight_nonneg u v : 0 <= link_weight G u v.
Proof.
  unfold link_weight. destruct (nx.edge_data G u v) as [d|] eqn:E; [|lia].
  eapply G_nonneg; eauto.
Qed.

Lemma path_weight_nonneg p : 0 <= path_weight G p.
Proof.
  induction p as [|a [|b r] IH]; simpl; try lia.
  pose proof (link_weight_nonneg a b). simpl in IH. lia.
Qed.

Lemma walk_rev p : walk G p -> walk G (rev p).
Proof.
  induction p as [|a [|b r] IH]; intros Hw; auto.
  destruct Hw as [Hab Hw]. specialize (IH Hw).
  change (rev (a :: b :: r)) with ((rev r ++ [b]) ++ [a]).
  apply walk_snoc; [exact IH|now apply linked_sym].
Qed.

Lemma path_weight_rev p : path_weight G (rev p) = path_weight G p.
Proof.
  induction p as [|a [|b r] IH]; auto.
  change (rev (a :: b :: r)) with ((rev r ++ [b]) ++ [a]).
  rewrite path_weight_snoc. change (rev r ++ [b]) with (rev (b :: r)).
  rewrite IH, (link_weight_sym b a). simpl. lia.
Qed.

(** A node listed in an adjacency dictionary is linked with that weight. *)
Lemma neighbour_data v nbrs w e :
  OD.get v G = Some nbrs -> In (w, e) nbrs ->
  linked G v w /\ link_weight G v w = weight e.
Proof.
  intros Hv Hin.
  assert (Hw : OD.get w nbrs = Some e).
  { apply In_get; auto. eapply wf_adj; eauto. }
  split.
  - apply linked_data. exists e. unfold nx.edge_data. now rewrite Hv.
  - unfold link_weight, nx.edge_data. now rewrite Hv, Hw.
Qed.

Lemma linked_neighbour v w :
  linked G v w -> exists nbrs, OD.get v G = Some nbrs /\ In w (OD.keys nbrs).
Proof.
  intros H. pose proof (proj1 (linked_adj G v w) H) as Hin.
  unfold nx.adj in Hin. destruct (OD.get v G) as [a|]; [eauto|destruct Hin].
Qed.

End SymmetricGraph.

(** ** The heap *)

Definition key_of (x : nx.entry) : Z := fst (fst x).

Lemma entry_ltb_true a b : nx.entry_ltb a b = true -> key_of a <= key_of b.
Proof.
  destruct a as [[d1 c1] u1], b as [[d2 c2] u2]. unfold nx.entry_ltb, key_of. simpl.
  intros H. apply orb_true_iff in H as [H|H].
  - apply Z.ltb_lt in H. lia.
  - apply andb_true_iff in H as [H _]. apply Z.eqb_eq in H. lia.
Qed.

Lemma entry_ltb_false a b : nx.entry_ltb a b = false -> key_of b <= key_of a.
Proof.
  destruct a as [[d1 c1] u1], b as [[d2 c2] u2]. unfold nx.entry_ltb, key_of. simpl.
  intros H. apply orb_false_iff in H as [H _]. apply Z.ltb_ge in H. lia.
Qed.

(** [heappop] takes out an entry of least distance and keeps the others. *)
Lemma pop_least_spec rest : forall best m r,
  nx.pop_least best rest = (m, r) ->
  (forall x, In x (best :: rest) <-> x = m \/ In x r) /\
  (forall x, In x (best :: rest) -> key_of m <= key_of x) /\
  List.length r = List.length rest.
Proof.
  induction rest as [|x rest IH]; intros best m r Hpop; simpl in Hpop.
  - injection Hpop as <- <-. split; [|split]; auto.
    + intros y. simpl. intuition congruence.
    + intros y [<-|[]]. lia.
  - destruct (nx.entry_ltb x best) eqn:Hlt.
    + destruct (nx.pop_least x rest) as [m' r'] eqn:Hrec. injection Hpop as <- <-.
      destruct (IH _ _ _ Hrec) as (Hin & Hmin & Hlen). split; [|split].
      * intros y. specialize (Hin y). simpl in *. tauto.
      * intros y [<-|Hy].
        -- apply entry_ltb_true in Hlt. specialize (Hmin x (or_introl eq_refl)). lia.
        -- now apply Hmin.
      * simpl. now rewrite Hlen.
    + destruct (nx.pop_least best rest) as [m' r'] eqn:Hrec. injection Hpop as <- <-.
      destruct (IH _ _ _ Hrec) as (Hin & Hmin & Hlen). split; [|split].
      * intros y. specialize (Hin y). simpl in *. tauto.
      * intros y [<-|[<-|Hy]].
        -- apply Hmin. now left.
        -- apply entry_ltb_false in Hlt.
           specialize (Hmin best (or_introl eq_refl)). lia.
        -- apply Hmin. now right.
      * simpl. now rewrite Hlen.
Qed.

Lemma heappop_spec h m r :
  nx.heappop h = Some (m, r) ->
  (forall x, In x h <-> x = m \/ In x r) /\
  (forall x, In x h -> key_of m <= key_of x) /\
  List.length h = S (List.length r).
Proof.
  destruct h as [|best rest]; simpl; [discriminate|]. intros [= Hpop].
  destruct (pop_least_spec _ _ _ _ Hpop) as (Hin & Hmin & Hlen).
  split; [exact Hin|split; [exact Hmin|simpl; now rewrite Hlen]].
Qed.

(** ** One direction of the search *)

Section Dijkstra.
Variable G : nx.Graph.
Hypothesis G_wf : well_formed G.
Hypothesis G_nonneg : nonnegative G.

(** The invariant of the search from root [r]. While node [v] is scanned,
    [todo] lists its neighbours that are still to be relaxed; between two
    iterations [todo] is empty. *)
Record search_inv (r v : node) (todo : list node) (X : nx.Search) : Prop := {
  inv_root : OD.get r (nx.seen X) = Some 0;
  inv_path : forall u d, OD.get u (nx.seen X) = Some d ->
    exists p, OD.get u (nx.paths X) = Some p /\
              walk G p /\ joins p r u /\ path_weight G p = d;
  inv_final : forall u d, OD.get u (nx.dists X) = Some d ->
    OD.get u (nx.seen X) = Some d;
  inv_fringe : forall d c u, In (d, c, u) (nx.fringe X) ->
    exists d', OD.get u (nx.seen X) = Some d' /\ d' <= d;
  inv_pending : forall u d, OD.get u (nx.seen X) = Some d ->
    OD.get u (nx.dists X) = None -> exists c, In (d, c, u) (nx.fringe X);
  inv_closed : forall x dx w, OD.get x (nx.dists X) = Some dx -> linked G x w ->
    (x = v /\ In w todo) \/
    exists dw, OD.get w (nx.seen X) = Some dw /\ dw <= dx + link_weight G x w;
  inv_mono : forall x dx d c u, OD.get x (nx.dists X) = Some dx ->
    In (d, c, u) (nx.fringe X) -> dx <= d;
  inv_first : nx.dists X = [] ->
    forall d c u, In (d, c, u) (nx.fringe X) -> u = r;
  inv_rooted : nx.dists X <> [] -> OD.mem r (nx.dists X) = true
}.

Lemma search_inv_idle r v v' X :
  search_inv r v [] X -> search_inv r v' [] X.
Proof.
  intros H. destruct H. constructor; auto.
  intros x dx w Hx Hl. destruct (inv_closed0 x dx w Hx Hl) as [[_ []]|Hb]. now right.
Qed.

Lemma seen_nonneg r v todo X u d :
  search_inv r v todo X -> OD.get u (nx.seen X) = Some d -> 0 <= d.
Proof.
  intros H Hu. destruct (inv_path _ _ _ _ H u d Hu) as (p & _ & _ & _ & <-).
  now apply path_weight_nonneg.
Qed.

(** A neighbour whose bound already holds needs no relaxation. *)
Lemma search_skip r v w todo X :
  search_inv r v (w :: todo) X ->
  (forall dx, OD.get v (nx.dists X) = Some dx ->
     exists dw, OD.get w (nx.seen X) = Some dw /\ dw <= dx + link_weight G v w) ->
  search_inv r v todo X.
Proof.
  intros H Hw. destruct H. constructor; auto.
  intros x dx w' Hx Hl.
  destruct (inv_closed0 x dx w' Hx Hl) as [[-> [<-|Hin]]|Hb]; auto.
Qed.

(** Relaxing the link from [v] to [w] to a smaller distance. *)
Lemma search_improve r v w e todo X nbrs dist pv c :
  search_inv r v (w :: todo) X ->
  OD.get v G = Some nbrs -> In (w, e) nbrs ->
  OD.get v (nx.dists X) = Some dist ->
  (forall x dx, OD.get x (nx.dists X) = Some dx -> dx <= dist) ->
  OD.get w (nx.dists X) = None ->
  match OD.get w (nx.seen X) with
  | None => true
  | Some sw => dist + weight e <? sw
  end = true ->
  OD.get v (nx.paths X) = Some pv ->
  search_inv r v todo
    {| nx.dists := nx.dists X;
       nx.seen := OD.set w (dist + weight e) (nx.seen X);
       nx.paths := OD.set w (pv ++ [w]) (nx.paths X);
       nx.fringe := nx.heappush (nx.fringe X) (dist + weight e, c, w) |}.
Proof.
  intros H Hv Hin Hdv Hmax Hwd Himp Hpv.
  destruct (neighbour_data G G_wf v nbrs w e Hv Hin) as [Hl Hlw].
  assert (He : 0 <= weight e).
  { rewrite <- Hlw. now apply link_weight_nonneg. }
  assert (Hsv : OD.get v (nx.seen X) = Some dist) by (eapply inv_final; eauto).
  assert (Hd0 : 0 <= dist) by (eapply seen_nonneg; eauto).
  assert (Hless : forall sw, OD.get w (nx.seen X) = Some sw -> dist + weight e < sw).
  { intros sw E. rewrite E in Himp. now apply Z.ltb_lt. }
  constructor; simpl.
  - rewrite get_set_other; [eapply inv_root; eauto|].
    intros ->. specialize (Hless 0 (inv_root _ _ _ _ H)). lia.
  - intros u d. rewrite !get_set.
    destruct (keqb_spec u w) as [->|Hne].
    + intros [= <-]. exists (pv ++ [w]). split; [reflexivity|].
      destruct (inv_path _ _ _ _ H v dist Hsv) as (p & Hp & Hwalk & Hj & Hpw).
      rewrite Hpv in Hp. injection Hp as <-.
      destruct (joins_snoc _ _ _ Hj) as [p' ->].
      split; [now apply walk_snoc|]. split; [now apply joins_app_snoc|].
      rewrite path_weight_snoc. lia.
    + eapply inv_path; eauto.
  - intros u d Hu. rewrite get_set_other; [eapply inv_final; eauto|].
    intros <-. congruence.
  - intros d c' u [[= <- <- <-]|Hold].
    + exists (dist + weight e). rewrite get_set_same. split; [reflexivity|lia].
    + destruct (inv_fringe _ _ _ _ H d c' u Hold) as (d' & Hd' & Hle).
      rewrite get_set. destruct (keqb_spec u w) as [->|Hne].
      * eexists; split; [reflexivity|]. specialize (Hless d' Hd'). lia.
      * eauto.
  - intros u d. rewrite get_set. destruct (keqb_spec u w) as [->|Hne].
    + intros [= <-] _. exists c. now left.
    + intros Hu Hnone. destruct (inv_pending _ _ _ _ H u d Hu Hnone) as [c' Hc'].
      exists c'. now right.
  - intros x dx w' Hx Hlink.
    destruct (inv_closed _ _ _ _ H x dx w' Hx Hlink) as [[-> [<-|Ht]]|(dw & Hdw & Hle)].
    + right. exists (dist + weight e). rewrite get_set_same. split; [reflexivity|].
      rewrite Hdv in Hx. injection Hx as <-. lia.
    + now left.
    + right. rewrite get_set. destruct (keqb_spec w' w) as [->|Hne].
      * eexists; split; [reflexivity|]. specialize (Hless dw Hdw). lia.
      * eauto.
  - intros x dx d c' u Hx [[= <- <- <-]|Hold].
    + specialize (Hmax x dx Hx). lia.
    + eapply inv_mono; eauto.
  - intros E. rewrite E in Hdv. discriminate.
  - eapply inv_rooted; eauto.
Qed.

(** Popping an entry of a node that was already finalised. *)
Lemma search_pop_stale r X d c u rest :
  search_inv r r [] X ->
  nx.heappop (nx.fringe X) = Some ((d, c, u), rest) ->
  OD.mem u (nx.dists X) = true ->
  search_inv r r []
    {| nx.dists := nx.dists X; nx.seen := nx.seen X;
       nx.paths := nx.paths X; nx.fringe := rest |}.
Proof.
  intros H Hpop Hmem. apply heappop_spec in Hpop as (Hin & Hmin & _).
  assert (Hsub : forall x, In x rest -> In x (nx.fringe X)).
  { intros x Hx. apply Hin. now right. }
  constructor; cbn [nx.dists nx.seen nx.paths nx.fringe].
  - eapply inv_root; eauto.
  - eapply inv_path; eauto.
  - eapply inv_final; eauto.
  - intros d' c' u' Hx. eapply inv_fringe; eauto.
  - intros u' d' Hs Hn.
    destruct (inv_pending _ _ _ _ H u' d' Hs Hn) as [c' Hc'].
    apply Hin in Hc' as [E|Hc']; [|eauto].
    injection E as -> -> ->. unfold OD.mem in Hmem. now rewrite Hn in Hmem.
  - eapply inv_closed; eauto.
  - intros x dx d' c' u' Hx Hr. eapply inv_mono; eauto.
  - intros E d' c' u' Hr. eapply inv_first; eauto.
  - eapply inv_rooted; eauto.
Qed.

(** Popping the least entry of a node that is not finalised yet: its
    distance is final, and it is about to be scanned. *)
Lemma search_pop_final r X d c u rest nbrs :
  search_inv r r [] X ->
  nx.heappop (nx.fringe X) = Some ((d, c, u), rest) ->
  OD.mem u (nx.dists X) = false ->
  OD.get u G = Some nbrs ->
  search_inv r u (OD.keys nbrs)
    {| nx.dists := OD.set u d (nx.dists X); nx.seen := nx.seen X;
       nx.paths := nx.paths X; nx.fringe := rest |} /\
  OD.get u (nx.seen X) = Some d /\
  (forall x dx, OD.get x (OD.set u d (nx.dists X)) = Some dx -> dx <= d).
Proof.
  intros H Hpop Hmem Hu. apply heappop_spec in Hpop as (Hin & Hmin & _).
  assert (Hnone : OD.get u (nx.dists X) = None).
  { unfold OD.mem in Hmem. now destruct (OD.get u (nx.dists X)). }
  assert (Hpopped : In (d, c, u) (nx.fringe X)) by (apply Hin; now left).
  assert (Hseen : OD.get u (nx.seen X) = Some d).
  { destruct (inv_fringe _ _ _ _ H d c u Hpopped) as (d' & Hd' & Hle).
    destruct (inv_pending _ _ _ _ H u d' Hd' Hnone) as [c' Hc'].
    specialize (Hmin _ Hc'). unfold key_of in Hmin. simpl in Hmin.
    rewrite Hd'. f_equal. lia. }
  assert (Hmax : forall x dx, OD.get x (OD.set u d (nx.dists X)) = Some dx -> dx <= d).
  { intros x dx. rewrite get_set. destruct (keqb_spec x u) as [->|Hne].
    - intros [= <-]. lia.
    - intros Hx. eapply inv_mono; eauto. }
  split; [|split]; auto.
  constructor; cbn [nx.dists nx.seen nx.paths nx.fringe].
  - eapply inv_root; eauto.
  - eapply inv_path; eauto.
  - intros x dx. rewrite get_set. destruct (keqb_spec x u) as [->|Hne].
    + now intros [= <-].
    + eapply inv_final; eauto.
  - intros d' c' u' Hr. apply (inv_fringe _ _ _ _ H d' c' u'). apply Hin. now right.
  - intros x dx Hs. rewrite get_set. destruct (keqb_spec x u) as [->|Hne]; [discriminate|].
    intros Hn. destruct (inv_pending _ _ _ _ H x dx Hs Hn) as [c' Hc'].
    apply Hin in Hc' as [E|Hc']; [|eauto]. injection E as _ _ E. congruence.
  - intros x dx w. rewrite get_set. destruct (keqb_spec x u) as [->|Hne].
    + intros _ Hl. left. split; auto.
      destruct (linked_neighbour G u w Hl) as (nbrs' & Hn' & Hw).
      rewrite Hu in Hn'. now injection Hn' as <-.
    + intros Hx Hl.
      destruct (inv_closed _ _ _ _ H x dx w Hx Hl) as [[_ []]|Hb]. now right.
  - intros x dx d' c' u' Hx Hr.
    assert (Hold : In (d', c', u') (nx.fringe X)) by (apply Hin; now right).
    specialize (Hmax x dx Hx). specialize (Hmin _ Hold).
    unfold key_of in Hmin. simpl in Hmin. lia.
  - intros E. exfalso. clear - E.
    destruct (nx.dists X) as [|[k z] l]; simpl in E; [discriminate|].
    destruct (keqb u k); discriminate.
  - intros _. unfold OD.mem. rewrite get_set.
    destruct (keqb_spec r u) as [->|Hne]; [reflexivity|].
    destruct (nx.dists X) as [|kv l] eqn:Hd.
    + exfalso. apply Hne. symmetry. eapply inv_first; eauto.
    + rewrite <- Hd. apply (inv_rooted _ _ _ _ H). rewrite Hd. discriminate.
Qed.

(** ** Both directions *)

Variables source target : node.

Definition root (dir : bool) : node := if dir then target else source.

(** The best path so far is no longer than the way through any node seen
    from both ends. *)
Definition meet_inv (B : nx.Bidi) : Prop :=
  forall w d0 d1,
    OD.get w (nx.seen (nx.side0 B)) = Some d0 ->
    OD.get w (nx.seen (nx.side1 B)) = Some d1 ->
    nx.finalpath B <> [] /\ nx.finaldist B <= d0 + d1.

(** The best path so far joins source and target and has the recorded
    length. *)
Definition best_inv (B : nx.Bidi) : Prop :=
  nx.finalpath B = [] \/
  (walk G (nx.finalpath B) /\ joins (nx.finalpath B) source target /\
   path_weight G (nx.finalpath B) = nx.finaldist B).

Definition paths_ok (r : node) (X : nx.Search) : Prop :=
  forall u d, OD.get u (nx.seen X) = Some d ->
    exists p, OD.get u (nx.paths X) = Some p /\
              walk G p /\ joins p r u /\ path_weight G p = d.

Lemma last_app_cons (p q : path) x d : last (p ++ x :: q) d = last (x :: q) d.
Proof.
  induction p as [|a p IH]; [reflexivity|].
  rewrite <- IH. simpl. destruct (p ++ x :: q) eqn:E; [|reflexivity].
  now destruct p.
Qed.

(** Joining a path from the source with the reverse of a path from the
    target that ends at the same node. *)
Lemma splice p0 p1 w :
  walk G p0 -> joins p0 source w -> walk G p1 -> joins p1 target w ->
  walk G (p0 ++ tl (rev p1)) /\ joins (p0 ++ tl (rev p1)) source target /\
  path_weight G (p0 ++ tl (rev p1)) = path_weight G p0 + path_weight G p1.
Proof.
  intros Hw0 Hj0 Hw1 Hj1.
  destruct (joins_snoc _ _ _ Hj0) as [q0 ->].
  destruct (joins_snoc _ _ _ Hj1) as [q1 E1].
  assert (Hrev : rev p1 = w :: rev q1) by (rewrite E1; apply rev_unit).
  assert (Hw1' : walk G (w :: rev q1)) by (rewrite <- Hrev; now apply walk_rev).
  rewrite Hrev. simpl tl. rewrite <- app_assoc. simpl app.
  split; [now apply walk_join|]. split.
  - split.
    + destruct Hj0 as [Hhd _]. destruct q0; simpl in *; auto.
    + rewrite last_app_cons, <- Hrev.
      destruct Hj1 as [Hhd _]. destruct p1 as [|a p1]; [discriminate|].
      injection Hhd as ->. simpl rev. apply last_last.
  - rewrite path_weight_join, <- Hrev, path_weight_rev; auto.
Qed.

Lemma meet_keeps w B :
  paths_ok source (nx.side0 B) -> paths_ok target (nx.side1 B) ->
  best_inv B ->
  (forall u d0 d1, u <> w ->
     OD.get u (nx.seen (nx.side0 B)) = Some d0 ->
     OD.get u (nx.seen (nx.side1 B)) = Some d1 ->
     nx.finalpath B <> [] /\ nx.finaldist B <= d0 + d1) ->
  exists B',
    nx.meet w B = Ok B' /\
    nx.side0 B' = nx.side0 B /\ nx.side1 B' = nx.side1 B /\
    nx.count B' = nx.count B /\ meet_inv B' /\ best_inv B'.
Proof.
  intros Hp0 Hp1 Hbest Hold. unfold nx.meet.
  destruct (OD.get w (nx.seen (nx.side0 B))) as [d0|] eqn:H0;
    [destruct (OD.get w (nx.seen (nx.side1 B))) as [d1|] eqn:H1|].
  - destruct (Hp0 w d0 H0) as (p0 & Hg0 & Hw0 & Hj0 & Hpw0).
    destruct (Hp1 w d1 H1) as (p1 & Hg1 & Hw1 & Hj1 & Hpw1).
    destruct (splice p0 p1 w Hw0 Hj0 Hw1 Hj1) as (Hsw & Hsj & Hspw).
    destruct (match nx.finalpath B with
              | [] => true
              | _ :: _ => nx.finaldist B >? d0 + d1
              end) eqn:Hcond.
    + rewrite Hg0, Hg1. eexists. split; [reflexivity|]. simpl.
      split; [reflexivity|]. split; [reflexivity|]. split; [reflexivity|]. split.
      * intros u a b Ha Hb. simpl in *. split.
        -- intros E. apply app_eq_nil in E as [-> _]. destruct Hj0. discriminate.
        -- destruct (keqb_spec u w) as [->|Hne].
           ++ rewrite H0 in Ha. rewrite H1 in Hb. injection Ha as <-. injection Hb as <-. lia.
           ++ destruct (Hold u a b Hne Ha Hb) as [Hnil Hle].
              destruct (nx.finalpath B); [contradiction|].
              apply Z.gtb_lt in Hcond. lia.
      * right. simpl. split; [exact Hsw|]. split; [exact Hsj|]. lia.
    + exists B. split; [reflexivity|].
      split; [reflexivity|]. split; [reflexivity|]. split; [reflexivity|].
      split; [|exact Hbest].
      intros u a b Ha Hb. destruct (keqb_spec u w) as [->|Hne].
      * rewrite H0 in Ha. rewrite H1 in Hb. injection Ha as <-. injection Hb as <-.
        destruct (nx.finalpath B); [discriminate|]. split; [discriminate|].
        rewrite Z.gtb_ltb in Hcond. apply Z.ltb_ge in Hcond. lia.
      * exact (Hold u a b Hne Ha Hb).
  - exists B. split; [reflexivity|].
    split; [reflexivity|]. split; [reflexivity|]. split; [reflexivity|].
    split; [|exact Hbest].
    intros u a b Ha Hb. destruct (keqb_spec u w) as [->|Hne]; [congruence|].
    exact (Hold u a b Hne Ha Hb).
  - exists B. split; [reflexivity|].
    split; [reflexivity|]. split; [reflexivity|]. split; [reflexivity|].
    split; [|exact Hbest].
    intros u a b Ha Hb. destruct (keqb_spec u w) as [->|Hne]; [congruence|].
    exact (Hold u a b Hne Ha Hb).
Qed.

Lemma sides_eq (dir : bool) B B' :
  nx.side0 B' = nx.side0 B -> nx.side1 B' = nx.side1 B ->
  nx.side dir B' = nx.side dir B.
Proof. intros E0 E1. destruct dir; simpl; congruence. Qed.

Lemma paths_ok_side B :
  (forall d, paths_ok (root d) (nx.side d B)) <->
  paths_ok source (nx.side0 B) /\ paths_ok target (nx.side1 B).
Proof.
  split.
  - intros H. split; [apply (H false)|apply (H true)].
  - intros [H0 H1] [|]; assumption.
Qed.

(** One relaxation keeps the invariants of the scan. *)
Lemma relax_keeps (dir : bool) v dist w e todo nbrs B :
  OD.get v G = Some nbrs -> In (w, e) nbrs ->
  search_inv (root dir) v (w :: todo) (nx.side dir B) ->
  search_inv (root (negb dir)) (root (negb dir)) [] (nx.side (negb dir) B) ->
  meet_inv B -> best_inv B ->
  OD.get v (nx.dists (nx.side dir B)) = Some dist ->
  (forall x dx, OD.get x (nx.dists (nx.side dir B)) = Some dx -> dx <= dist) ->
  exists B',
    nx.relax dir v dist w e B = Ok B' /\
    search_inv (root dir) v todo (nx.side dir B') /\
    nx.side (negb dir) B' = nx.side (negb dir) B /\
    nx.dists (nx.side dir B') = nx.dists (nx.side dir B) /\
    meet_inv B' /\ best_inv B'.
Proof.
  intros Hv Hin Hcur Hoth Hmeet Hbest Hdv Hmax.
  destruct (neighbour_data G G_wf v nbrs w e Hv Hin) as [Hl Hlw].
  assert (He : 0 <= weight e).
  { rewrite <- Hlw. now apply link_weight_nonneg. }
  assert (Hsv : OD.get v (nx.seen (nx.side dir B)) = Some dist)
    by (eapply inv_final; eauto).
  unfold nx.relax. cbv zeta.
  destruct (OD.get w (nx.dists (nx.side dir B))) as [dw|] eqn:Hwd.
  - pose proof (Hmax w dw Hwd) as Hdw.
    replace (dist + weight e <? dw) with false by (symmetry; apply Z.ltb_ge; lia).
    exists B. split; [reflexivity|]. split; [|auto].
    apply search_skip with (w := w); auto.
    intros dx Hdx. rewrite Hdv in Hdx. injection Hdx as <-.
    exists dw. split; [eapply inv_final; eauto|lia].
  - destruct (match OD.get w (nx.seen (nx.side dir B)) with
              | None => true
              | Some sw => dist + weight e <? sw
              end) eqn:Himp.
    + destruct (inv_path _ _ _ _ Hcur v dist Hsv) as (pv & Hpv & _).
      rewrite Hpv.
      pose proof (search_improve (root dir) v w e todo (nx.side dir B) nbrs dist pv
                    (nx.count B) Hcur Hv Hin Hdv Hmax Hwd Himp Hpv) as HX'.
      match goal with |- context [nx.meet w ?b] => set (B1 := b) end.
      match type of HX' with search_inv _ _ _ ?x => set (X' := x) in * end.
      assert (Hs1 : nx.side dir B1 = X') by (destruct dir; reflexivity).
      assert (Hs2 : nx.side (negb dir) B1 = nx.side (negb dir) B)
        by (destruct dir; reflexivity).
      assert (Hfp : nx.finalpath B1 = nx.finalpath B) by (destruct dir; reflexivity).
      assert (Hfd : nx.finaldist B1 = nx.finaldist B) by (destruct dir; reflexivity).
      assert (Hpaths : forall d, paths_ok (root d) (nx.side d B1)).
      { intros d u du. destruct (Bool.bool_dec d dir) as [->|Hd].
        - rewrite Hs1. apply (inv_path _ _ _ _ HX').
        - assert (d = negb dir) as -> by (destruct d, dir; simpl; congruence).
          rewrite Hs2. apply (inv_path _ _ _ _ Hoth). }
      apply paths_ok_side in Hpaths as [Hp0 Hp1].
      destruct (meet_keeps w B1 Hp0 Hp1) as (B' & Hm & E0 & E1 & _ & Hmeet' & Hbest').
      * unfold best_inv. now rewrite Hfp, Hfd.
      * intros u d0 d1 Hne H0 H1. rewrite Hfp, Hfd. apply (Hmeet u d0 d1).
        -- destruct dir; simpl in *; auto.
           rewrite get_set_other in H0; auto.
        -- destruct dir; simpl in *; auto.
           rewrite get_set_other in H1; auto.
      * exists B'. split; [exact Hm|].
        rewrite (sides_eq dir B1 B' E0 E1), (sides_eq (negb dir) B1 B' E0 E1), Hs1, Hs2.
        split; [exact HX'|]. split; [reflexivity|]. split; [reflexivity|].
        split; assumption.
    + exists B. split; [reflexivity|]. split; [|auto].
      apply search_skip with (w := w); auto.
      intros dx Hdx. rewrite Hdv in Hdx. injection Hdx as <-.
      destruct (OD.get w (nx.seen (nx.side dir B))) as [sw|]; [|discriminate].
      exists sw. split; [reflexivity|]. apply Z.ltb_ge in Himp. lia.
Qed.

(** Scanning the neighbours of [v] keeps them too. *)
Lemma scan_keeps (dir : bool) v dist nbrs : forall rest B,
  OD.get v G = Some nbrs -> incl rest nbrs ->
  search_inv (root dir) v (OD.keys rest) (nx.side dir B) ->
  search_inv (root (negb dir)) (root (negb dir)) [] (nx.side (negb dir) B) ->
  meet_inv B -> best_inv B ->
  OD.get v (nx.dists (nx.side dir B)) = Some dist ->
  (forall x dx, OD.get x (nx.dists (nx.side dir B)) = Some dx -> dx <= dist) ->
  exists B',
    nx.scan dir v dist rest B = Ok B' /\
    search_inv (root dir) v [] (nx.side dir B') /\
    nx.side (negb dir) B' = nx.side (negb dir) B /\
    nx.dists (nx.side dir B') = nx.dists (nx.side dir B) /\
    meet_inv B' /\ best_inv B'.
Proof.
  induction rest as [|[w e] rest IH]; intros B Hv Hincl Hcur Hoth Hmeet Hbest Hdv Hmax.
  - exists B. simpl. auto 10.
  - simpl.
    destruct (relax_keeps dir v dist w e (OD.keys rest) nbrs B)
      as (B1 & -> & Hcur1 & Hs1 & Hd1 & Hmeet1 & Hbest1); auto.
    { apply Hincl. now left. }
    destruct (IH B1) as (B' & -> & Hcur' & Hs' & Hd' & Hmeet' & Hbest'); auto.
    + intros x Hx. apply Hincl. now right.
    + now rewrite Hs1.
    + now rewrite Hd1.
    + now rewrite Hd1.
    + exists B'. split; [reflexivity|]. rewrite Hs', Hd'. auto 10.
Qed.

(** ** Why the meeting point gives a shortest path *)

Lemma last_cons (p : path) a b : last (b :: p) a = last p b.
Proof.
  destruct p as [|x p]; [reflexivity|].
  change (last (x :: p) a = last (x :: p) b). apply last_default. discriminate.
Qed.

(** Follow a path from a seen node: either its end is finalised within the
    length of the path, or the path meets a node that is seen and not
    finalised, and the rest of the path from there is paid for. *)
Lemma leave r X :
  search_inv r r [] X ->
  forall p a da,
    walk G (a :: p) -> OD.get a (nx.seen X) = Some da ->
    (exists dl, OD.get (last p a) (nx.dists X) = Some dl /\
                dl <= da + path_weight G (a :: p)) \/
    (exists p1 b p2 db,
       a :: p = p1 ++ b :: p2 /\
       OD.get b (nx.dists X) = None /\ OD.get b (nx.seen X) = Some db /\
       db + path_weight G (b :: p2) <= da + path_weight G (a :: p)).
Proof.
  intros H. induction p as [|b p IH]; intros a da Hw Ha.
  - destruct (OD.get a (nx.dists X)) as [d|] eqn:Hd.
    + left. exists d. split; [exact Hd|].
      rewrite (inv_final _ _ _ _ H a d Hd) in Ha. injection Ha as <-. simpl. lia.
    + right. exists [], a, [], da. simpl. auto with zarith.
  - destruct (OD.get a (nx.dists X)) as [d|] eqn:Hd.
    + rewrite (inv_final _ _ _ _ H a d Hd) in Ha. injection Ha as <-.
      destruct Hw as [Hl Hw].
      destruct (inv_closed _ _ _ _ H a d b Hd Hl) as [[_ []]|(db & Hdb & Hle)].
      change (path_weight G (a :: b :: p))
        with (link_weight G a b + path_weight G (b :: p)).
      destruct (IH b db Hw Hdb) as [(dl & Hdl & Hdle)|(p1 & b' & p2 & db' & E & Hn & Hs & Hle')].
      * left. exists dl. rewrite last_cons. split; [exact Hdl|lia].
      * right. exists (a :: p1), b', p2, db'.
        split; [now rewrite E|]. repeat split; auto. lia.
    + right. exists [], a, (b :: p), da. simpl. repeat split; auto. lia.
Qed.

Lemma popped_seen r X d c u rest :
  search_inv r r [] X ->
  nx.heappop (nx.fringe X) = Some ((d, c, u), rest) ->
  OD.get u (nx.dists X) = None ->
  OD.get u (nx.seen X) = Some d /\
  forall b db, OD.get b (nx.dists X) = None -> OD.get b (nx.seen X) = Some db ->
               d <= db.
Proof.
  intros H Hpop Hnone. apply heappop_spec in Hpop as (Hin & Hmin & _).
  assert (Hpopped : In (d, c, u) (nx.fringe X)) by (apply Hin; now left).
  assert (Hfloor : forall b db, OD.get b (nx.dists X) = None ->
                     OD.get b (nx.seen X) = Some db -> d <= db).
  { intros b db Hb Hs. destruct (inv_pending _ _ _ _ H b db Hs Hb) as [c' Hc'].
    apply (Hmin _ Hc'). }
  split; [|exact Hfloor].
  destruct (inv_fringe _ _ _ _ H d c u Hpopped) as (d' & Hd' & Hle).
  specialize (Hfloor u d' Hnone Hd'). rewrite Hd'. f_equal. lia.
Qed.

Lemma finalised_floor r X v dv :
  search_inv r r [] X -> OD.get v (nx.dists X) = Some dv ->
  OD.get v (nx.seen X) = Some dv /\
  forall b db, OD.get b (nx.dists X) = None -> OD.get b (nx.seen X) = Some db ->
               dv <= db.
Proof.
  intros H Hv. split; [eapply inv_final; eauto|].
  intros b db Hb Hs. destruct (inv_pending _ _ _ _ H b db Hs Hb) as [c' Hc'].
  eapply inv_mono; eauto.
Qed.

(** The state in which the loop returns: a node [v] that has, in each
    direction, a seen distance below every distance still pending there. *)
Lemma meeting B v f0 f1 :
  search_inv source source [] (nx.side0 B) ->
  search_inv target target [] (nx.side1 B) ->
  meet_inv B -> best_inv B ->
  OD.get v (nx.seen (nx.side0 B)) = Some f0 ->
  OD.get v (nx.seen (nx.side1 B)) = Some f1 ->
  (forall b db, OD.get b (nx.dists (nx.side0 B)) = None ->
     OD.get b (nx.seen (nx.side0 B)) = Some db -> f0 <= db) ->
  (forall b db, OD.get b (nx.dists (nx.side1 B)) = None ->
     OD.get b (nx.seen (nx.side1 B)) = Some db -> f1 <= db) ->
  shortest G source target (nx.finalpath B).
Proof.
  intros H0 H1 Hmeet Hbest Hv0 Hv1 Hfl0 Hfl1.
  destruct (Hmeet v f0 f1 Hv0 Hv1) as [Hnil Hfv].
  destruct Hbest as [E|(Hwalk & Hjoin & Hpw)]; [contradiction|].
  split; [exact Hwalk|]. split; [exact Hjoin|].
  intros q Hq [Hhd Hlast]. rewrite Hpw.
  destruct q as [|a q]; [discriminate|]. injection Hhd as ->.
  destruct (leave source _ H0 q source 0 Hq (inv_root _ _ _ _ H0))
    as [(dl & Hdl & Hle)|(p1 & b & p2 & db & E & Hbn & Hbs & Hle)].
  - (* the target is finalised from the source *)
    rewrite last_cons in Hlast. rewrite Hlast in Hdl.
    apply (inv_final _ _ _ _ H0) in Hdl.
    destruct (Hmeet target dl 0 Hdl (inv_root _ _ _ _ H1)) as [_ Hm]. lia.
  - (* [b] is pending from the source; walk back from the target *)
    rewrite E in Hq, Hlast. apply walk_split in Hq as [_ Hq2].
    rewrite last_app_cons in Hlast.
    destruct (exists_last (l := b :: p2)) as (pp & z & Epp); [discriminate|].
    rewrite Epp in Hlast. rewrite last_last in Hlast. subst z.
    pose proof (walk_rev G G_wf _ Hq2) as Hrev.
    pose proof (path_weight_rev G G_wf (b :: p2)) as Hrw.
    rewrite Epp, rev_unit in Hrev, Hrw.
    assert (Hfirst : last (rev pp) target = b).
    { destruct pp as [|x pp]; simpl in Epp.
      - now injection Epp as ->.
      - injection Epp as -> _. simpl rev. apply last_last. }
    destruct (leave target _ H1 (rev pp) target 0 Hrev (inv_root _ _ _ _ H1))
      as [(dl & Hdl & Hle')|(p1' & b' & p2' & db' & E' & Hbn' & Hbs' & Hle')].
    + rewrite Hfirst in Hdl. apply (inv_final _ _ _ _ H1) in Hdl.
      destruct (Hmeet b db dl Hbs Hdl) as [_ Hm]. rewrite <- Epp in Hrw. lia.
    + specialize (Hfl0 b db Hbn Hbs). specialize (Hfl1 b' db' Hbn' Hbs').
      pose proof (path_weight_nonneg G G_nonneg (b' :: p2')).
      rewrite <- Epp in Hrw. lia.
Qed.

(** ** One iteration *)

Hypothesis source_in : OD.mem source G = true.
Hypothesis target_in : OD.mem target G = true.
Hypothesis source_target : source <> target.

Record bidi_inv (B : nx.Bidi) : Prop := {
  inv_sides : forall d, search_inv (root d) (root d) [] (nx.side d B);
  inv_meet : meet_inv B;
  inv_best : best_inv B;
  inv_apart : forall u,
    OD.mem u (nx.dists (nx.side0 B)) = true ->
    OD.mem u (nx.dists (nx.side1 B)) = true -> False
}.

Lemma side_with_side (dir : bool) X B : nx.side dir (nx.with_side dir X B) = X.
Proof. now destruct dir. Qed.

Lemma side_with_side_other (dir : bool) X B :
  nx.side (negb dir) (nx.with_side dir X B) = nx.side (negb dir) B.
Proof. now destruct dir. Qed.

Lemma other_dir (d dir : bool) : d <> dir -> d = negb dir.
Proof. destruct d, dir; simpl; congruence. Qed.

Lemma mem_get_None {V} (k : node) (d : OD.t node V) :
  OD.mem k d = false <-> OD.get k d = None.
Proof. unfold OD.mem. destruct (OD.get k d); split; congruence. Qed.

Lemma mem_get_Some {V} (k : node) (d : OD.t node V) :
  OD.mem k d = true <-> exists v, OD.get k d = Some v.
Proof.
  unfold OD.mem. destruct (OD.get k d); split; eauto; try discriminate.
  intros [v Hv]. discriminate.
Qed.

(** Every node a walk from a node of the graph reaches is in the graph. *)
Lemma node_of_walk p r v :
  walk G p -> joins p r v -> OD.mem r G = true -> OD.mem v G = true.
Proof.
  intros Hw Hj Hr. destruct (joins_snoc _ _ _ Hj) as [p' ->].
  destruct p' as [|x p'].
  - destruct Hj as [[= ->] _]. exact Hr.
  - destruct (exists_last (l := x :: p')) as (p'' & u & E); [discriminate|].
    rewrite E in Hw. apply mem_keys.
    apply (linked_node G v u). apply (linked_sym G G_wf).
    rewrite <- app_assoc in Hw. simpl in Hw. apply walk_split in Hw as [_ [Hl _]].
    exact Hl.
Qed.

Lemma root_in dir : OD.mem (root dir) G = true.
Proof. destruct dir; assumption. Qed.

Lemma step_keeps (dir : bool) B :
  bidi_inv B -> nx.fringe (nx.side dir B) <> [] ->
  (exists B', nx.step G dir B = nx.Continue B' /\ bidi_inv B') \/
  (exists p, nx.step G dir B = nx.Return p /\ shortest G source target p).
Proof.
  intros HB Hne. unfold nx.step. cbv zeta.
  destruct (nx.heappop (nx.fringe (nx.side dir B))) as [[[[dist c] v] rest]|] eqn:Hpop.
  2: { destruct (nx.fringe (nx.side dir B)); [contradiction|discriminate]. }
  pose proof (inv_sides B HB dir) as Hcur.
  pose proof (inv_sides B HB (negb dir)) as Hoth.
  destruct (OD.mem v (nx.dists (nx.side dir B))) eqn:Hmem.
  - (* a stale entry *)
    left. eexists. split; [reflexivity|]. constructor.
    + intros d. destruct (Bool.bool_dec d dir) as [->|Hd].
      * rewrite side_with_side. eapply search_pop_stale; eauto.
      * rewrite (other_dir _ _ Hd), side_with_side_other. exact Hoth.
    + pose proof (inv_meet B HB) as Hm. destruct dir; exact Hm.
    + pose proof (inv_best B HB) as Hb. destruct dir; exact Hb.
    + pose proof (inv_apart B HB) as Ha. destruct dir; exact Ha.
  - apply mem_get_None in Hmem.
    destruct (popped_seen _ _ _ _ _ _ Hcur Hpop Hmem) as [Hseen Hfloor].
    destruct (OD.mem v (nx.dists (nx.side (negb dir) B))) eqn:Hmemo.
    + (* [v] is finalised from both ends *)
      right. eexists. split; [reflexivity|].
      apply mem_get_Some in Hmemo as [dv Hdv].
      destruct (finalised_floor _ _ _ _ Hoth Hdv) as [Hseen' Hfloor'].
      pose proof (inv_meet B HB) as Hm. pose proof (inv_best B HB) as Hb.
      destruct dir; simpl in *.
      * apply (meeting B v dv dist); auto.
      * apply (meeting B v dist dv); auto.
    + (* [v] is finalised in this direction and scanned *)
      assert (HvG : OD.mem v G = true).
      { destruct (inv_path _ _ _ _ Hcur v dist Hseen) as (p & _ & Hw & Hj & _).
        eapply node_of_walk; eauto. apply root_in. }
      apply mem_get_Some in HvG as [nbrs HvG]. rewrite HvG.
      apply mem_get_None in Hmem.
      destruct (search_pop_final _ _ _ _ _ _ nbrs Hcur Hpop Hmem HvG)
        as (HX1 & _ & Hmax).
      match goal with |- context [nx.scan dir v dist nbrs ?b] => set (B2 := b) end.
      destruct (scan_keeps dir v dist nbrs nbrs B2)
        as (B' & -> & Hcur' & Hs' & Hd' & Hmeet' & Hbest'); auto.
      * apply incl_refl.
      * unfold B2. now rewrite side_with_side.
      * unfold B2. now rewrite side_with_side_other.
      * pose proof (inv_meet B HB) as Hm. unfold B2. destruct dir; exact Hm.
      * pose proof (inv_best B HB) as Hb. unfold B2. destruct dir; exact Hb.
      * unfold B2. rewrite side_with_side. simpl. apply get_set_same.
      * unfold B2. now rewrite side_with_side.
      * left. exists B'. split; [reflexivity|]. constructor; auto.
        -- intros d. destruct (Bool.bool_dec d dir) as [->|Hd].
           ++ eapply search_inv_idle; eauto.
           ++ rewrite (other_dir _ _ Hd), Hs'. unfold B2.
              now rewrite side_with_side_other.
        -- intros u Hu0 Hu1. unfold B2 in Hs', Hd'.
           rewrite side_with_side_other in Hs'. rewrite side_with_side in Hd'.
           simpl in Hd'.
           assert (Hcase : forall ds : OD.t node Z,
                     OD.mem u (OD.set v dist ds) = true -> u = v \/ OD.mem u ds = true).
           { intros ds. unfold OD.mem. rewrite get_set.
             destruct (keqb_spec u v); auto. }
           pose proof (inv_apart B HB u) as Ha.
           destruct dir; simpl in *.
           ++ rewrite Hd' in Hu1. rewrite Hs' in Hu0.
              apply Hcase in Hu1 as [->|Hu1]; [congruence|auto].
           ++ rewrite Hd' in Hu0. rewrite Hs' in Hu1.
              apply Hcase in Hu0 as [->|Hu0]; [congruence|auto].
Qed.

(** ** The loop *)

Lemma search_init r c :
  search_inv r r []
    {| nx.dists := []; nx.seen := [(r, 0)]; nx.paths := [(r, [r])];
       nx.fringe := [(0, c, r)] |}.
Proof.
  constructor; cbn [nx.dists nx.seen nx.paths nx.fringe].
  - simpl. now rewrite keqb_refl.
  - intros u d. simpl. destruct (keqb_spec u r) as [->|]; [|discriminate].
    intros [= <-]. exists [r]. repeat split; auto.
  - intros u d. discriminate.
  - intros d c' u [[= <- <- <-]|[]]. exists 0. simpl. rewrite keqb_refl. split; [auto|lia].
  - intros u d. simpl. destruct (keqb_spec u r) as [->|]; [|discriminate].
    intros [= <-] _. exists c. now left.
  - intros x dx w. discriminate.
  - intros x dx d c' u. discriminate.
  - intros _ d c' u [[= _ _ <-]|[]]. reflexivity.
  - intros E. now contradiction E.
Qed.

Lemma init_inv : bidi_inv (nx.init source target).
Proof.
  constructor.
  - intros [|]; apply search_init.
  - intros w d0 d1. simpl.
    destruct (keqb_spec w source) as [->|]; [|discriminate].
    destruct (keqb_spec source target); [contradiction|discriminate].
  - now left.
  - intros u. discriminate.
Qed.

(** Whatever the loop returns is right: a path it returns is a shortest
    one. *)
Lemma loop_sound fuel : forall dir B,
  bidi_inv B ->
  match nx.bidi_loop fuel G dir B with
  | Ok p => shortest G source target p
  | Err e => e = NetworkXNoPath \/ e = RecursionLimit
  end.
Proof.
  induction fuel as [|fuel IH]; intros dir B HB; simpl; [now right|].
  destruct (nx.fringe (nx.side0 B)) as [|x0 f0] eqn:E0; [now left|].
  destruct (nx.fringe (nx.side1 B)) as [|x1 f1] eqn:E1; [now left|].
  destruct (step_keeps (negb dir) B HB) as [(B' & -> & HB')|(p & -> & Hp)].
  - destruct dir; simpl; congruence.
  - now apply IH.
  - exact Hp.
Qed.

(** *** The order of the first iterations

    [dir] is the direction of the previous iteration. The first iteration
    finalises the source, the second the target. *)
Definition order_inv (dir : bool) (B : nx.Bidi) : Prop :=
  (nx.dists (nx.side0 B) = [] -> nx.dists (nx.side1 B) = [] /\ dir = true) /\
  (nx.dists (nx.side1 B) = [] -> dir = false ->
     forall u, OD.mem u (nx.dists (nx.side0 B)) = true -> u = source) /\
  (nx.dists (nx.side1 B) = [] -> dir = true -> nx.dists (nx.side0 B) = []).

Lemma relax_sides (dir : bool) v dist w e B B' :
  nx.relax dir v dist w e B = Ok B' ->
  nx.side (negb dir) B' = nx.side (negb dir) B /\
  nx.dists (nx.side dir B') = nx.dists (nx.side dir B) /\
  (List.length (nx.fringe (nx.side dir B'))
   <= S (List.length (nx.fringe (nx.side dir B))))%nat.
Proof.
  unfold nx.relax. cbv zeta.
  destruct (OD.get w (nx.dists (nx.side dir B))).
  - destruct (_ <? _); [discriminate|]. intros [= <-]. auto.
  - destruct (match OD.get w (nx.seen (nx.side dir B)) with
              | None => true | Some sw => dist + weight e <? sw end).
    + destruct (OD.get v (nx.paths (nx.side dir B))); [|discriminate].
      unfold nx.meet.
      repeat match goal with
             | |- context [match ?x with _ => _ end] => destruct x
             end; try discriminate; intros [= <-]; destruct dir; simpl; auto.
    + intros [= <-]. auto.
Qed.

Lemma scan_sides (dir : bool) v dist : forall nbrs B B',
  nx.scan dir v dist nbrs B = Ok B' ->
  nx.side (negb dir) B' = nx.side (negb dir) B /\
  nx.dists (nx.side dir B') = nx.dists (nx.side dir B) /\
  (List.length (nx.fringe (nx.side dir B'))
   <= List.length nbrs + List.length (nx.fringe (nx.side dir B)))%nat.
Proof.
  induction nbrs as [|[w e] nbrs IH]; intros B B'; simpl.
  - intros [= <-]. auto.
  - destruct (nx.relax dir v dist w e B) as [B1|] eqn:Hr; [|discriminate].
    intros Hs. apply relax_sides in Hr as (a1 & b1 & c1).
    apply IH in Hs as (a2 & b2 & c2). rewrite a2, b2, a1, b1. repeat split. lia.
Qed.

(** What an iteration that continues has done. *)
Lemma step_shape (d : bool) B B' :
  nx.step G d B = nx.Continue B' ->
  nx.side (negb d) B' = nx.side (negb d) B /\
  exists dist c v rest,
    nx.heappop (nx.fringe (nx.side d B)) = Some ((dist, c, v), rest) /\
    ((OD.mem v (nx.dists (nx.side d B)) = true /\
      nx.dists (nx.side d B') = nx.dists (nx.side d B) /\
      nx.fringe (nx.side d B') = rest) \/
     (OD.mem v (nx.dists (nx.side d B)) = false /\
      nx.dists (nx.side d B') = OD.set v dist (nx.dists (nx.side d B)) /\
      exists nbrs, OD.get v G = Some nbrs /\
        (List.length (nx.fringe (nx.side d B'))
         <= List.length nbrs + List.length rest)%nat)).
Proof.
  unfold nx.step. cbv zeta.
  destruct (nx.heappop (nx.fringe (nx.side d B))) as [[[[dist c] v] rest]|];
    [|discriminate].
  destruct (OD.mem v (nx.dists (nx.side d B))) eqn:Hmem.
  - intros [= <-]. rewrite side_with_side_other, side_with_side. split; [reflexivity|].
    exists dist, c, v, rest. split; [reflexivity|]. left. auto.
  - destruct (OD.mem v (nx.dists (nx.side (negb d) B))); [discriminate|].
    destruct (OD.get v G) as [nbrs|] eqn:HvG; [|discriminate].
    destruct (nx.scan d v dist nbrs _) as [B1|] eqn:Hscan; [|discriminate].
    intros [= <-]. apply scan_sides in Hscan as (a & b & c0).
    rewrite side_with_side_other in a. rewrite side_with_side in b, c0.
    split; [exact a|]. exists dist, c, v, rest. split; [reflexivity|]. right.
    split; [first [reflexivity|exact Hmem]|]. split; [exact b|]. exists nbrs.
    split; [exact HvG|exact c0].
Qed.

Lemma set_not_nil {V} (k : node) (v : V) d : OD.set k v d <> [].
Proof. destruct d as [|[k' v'] d]; simpl; [|destruct (keqb k k')]; discriminate. Qed.

Lemma step_order dir B B' :
  bidi_inv B -> order_inv dir B ->
  nx.step G (negb dir) B = nx.Continue B' -> order_inv (negb dir) B'.
Proof.
  intros HB (O1 & O2 & O3) Hstep.
  pose proof (inv_sides B HB (negb dir)) as Hcur.
  apply step_shape in Hstep as (Hoth & dist & c & v & rest & Hpop & Hcase).
  rewrite Bool.negb_involutive in Hoth.
  assert (Hpopped : In (dist, c, v) (nx.fringe (nx.side (negb dir) B))).
  { apply heappop_spec in Hpop as (Hin & _). apply Hin. now left. }
  unfold order_inv. destruct dir; simpl in *.
  - (* a forward iteration *)
    rewrite Hoth. destruct Hcase as [(Hmem & Hd & _)|(Hmem & Hd & _)]; rewrite Hd.
    + split; [|split]; try discriminate.
      * intros E. rewrite E in Hmem. discriminate.
      * intros E _. rewrite (O3 E eq_refl) in Hmem. discriminate.
    + split; [|split]; try discriminate.
      * intros E. now apply set_not_nil in E.
      * intros E _ u. rewrite (O3 E eq_refl) in *. simpl. unfold OD.mem. simpl.
        destruct (keqb_spec u v) as [->|]; [|discriminate]. intros _.
        eapply (inv_first _ _ _ _ Hcur); eauto.
  - (* a backward iteration *)
    rewrite Hoth. split; [|split]; try discriminate.
    + intros E. destruct (O1 E) as [_ ?]. discriminate.
    + intros E _. exfalso.
      destruct Hcase as [(Hmem & Hd & _)|(Hmem & Hd & _)]; rewrite Hd in E.
      * rewrite E in Hmem. discriminate.
      * now apply set_not_nil in E.
Qed.

(** With a path between source and target, neither heap runs empty before
    the loop returns. *)
Lemma fringes_last dir B :
  bidi_inv B -> order_inv dir B ->
  (exists q, walk G q /\ joins q source target) ->
  nx.fringe (nx.side0 B) <> [] /\ nx.fringe (nx.side1 B) <> [].
Proof.
  intros HB (O1 & O2 & O3) (q & Hq & Hhd & Hlast).
  pose proof (inv_sides B HB false) as H0. pose proof (inv_sides B HB true) as H1.
  simpl in H0, H1.
  destruct q as [|a q]; [discriminate|]. injection Hhd as ->.
  rewrite last_cons in Hlast.
  assert (Hdone : forall r X, search_inv r r [] X -> nx.fringe X = [] ->
            forall b db, OD.get b (nx.seen X) = Some db ->
                         OD.mem b (nx.dists X) = true).
  { intros r X H E b db Hb. apply mem_get_Some.
    destruct (OD.get b (nx.dists X)) as [d|] eqn:Hd; [eauto|].
    destruct (inv_pending _ _ _ _ H b db Hb Hd) as [c Hc].
    rewrite E in Hc. destruct Hc. }
  assert (Hnil : forall u (ds : OD.t node Z), ds = [] -> OD.mem u ds = true -> False).
  { intros u ds -> Hu. discriminate. }
  split; intros E.
  - (* the forward heap *)
    assert (Ht : OD.mem target (nx.dists (nx.side0 B)) = true).
    { destruct (leave source _ H0 q source 0 Hq (inv_root _ _ _ _ H0))
        as [(dl & Hdl & _)|(p1 & b & p2 & db & _ & Hbn & Hbs & _)].
      - rewrite Hlast in Hdl. apply mem_get_Some. eauto.
      - apply (Hdone _ _ H0 E) in Hbs. apply mem_get_None in Hbn. congruence. }
    destruct (nx.dists (nx.side1 B)) as [|kv l] eqn:E1.
    + destruct dir.
      * apply (Hnil target _ (O3 eq_refl eq_refl) Ht).
      * apply source_target. symmetry. now apply (O2 eq_refl eq_refl).
    + apply (inv_apart B HB target Ht).
      apply (inv_rooted _ _ _ _ H1). rewrite E1. discriminate.
  - (* the backward heap *)
    assert (Hs : OD.mem source (nx.dists (nx.side1 B)) = true).
    { destruct (exists_last (l := source :: q)) as (pp & z & Epp); [discriminate|].
      assert (z = target) as ->.
      { rewrite <- Hlast, <- (last_cons q target source), Epp. symmetry. apply last_last. }
      pose proof (walk_rev G G_wf _ Hq) as Hrev. rewrite Epp, rev_unit in Hrev.
      assert (Hfirst : last (rev pp) target = source).
      { destruct pp as [|x pp]; simpl in Epp.
        - now injection Epp as ->.
        - injection Epp as -> _. simpl rev. apply last_last. }
      destruct (leave target _ H1 (rev pp) target 0 Hrev (inv_root _ _ _ _ H1))
        as [(dl & Hdl & _)|(p1 & b & p2 & db & _ & Hbn & Hbs & _)].
      - rewrite Hfirst in Hdl. apply mem_get_Some. eauto.
      - apply (Hdone _ _ H1 E) in Hbs. apply mem_get_None in Hbn. congruence. }
    destruct (nx.dists (nx.side0 B)) as [|kv l] eqn:E0.
    + destruct (O1 eq_refl) as [E1 _]. apply (Hnil source _ E1 Hs).
    + apply (inv_apart B HB source); [|exact Hs].
      apply (inv_rooted _ _ _ _ H0). rewrite E0. discriminate.
Qed.

(** *** The loop ends within its iteration bound *)

(** The adjacency entries of the nodes that are not finalised yet. *)
Fixpoint unscanned (ds : OD.t node Z) (L : nx.Graph) : nat :=
  match L with
  | [] => 0
  | (k, a) :: L' =>
      ((if OD.mem k ds then 0 else List.length a) + unscanned ds L')%nat
  end.

Definition measure (B : nx.Bidi) : nat :=
  (List.length (nx.fringe (nx.side0 B)) + List.length (nx.fringe (nx.side1 B))
   + unscanned (nx.dists (nx.side0 B)) G + unscanned (nx.dists (nx.side1 B)) G)%nat.

Lemma mem_set (k k' : node) (d : Z) ds :
  OD.mem k' (OD.set k d ds) = keqb k' k || OD.mem k' ds.
Proof. unfold OD.mem. rewrite get_set. now destruct (keqb k' k). Qed.

Lemma unscanned_mono v d ds L : (unscanned (OD.set v d ds) L <= unscanned ds L)%nat.
Proof.
  induction L as [|[k a] L IH]; simpl; [lia|].
  rewrite mem_set. destruct (keqb k v), (OD.mem k ds); simpl; lia.
Qed.

Lemma unscanned_set v d ds nbrs : forall L,
  OD.mem v ds = false -> OD.get v L = Some nbrs ->
  (unscanned (OD.set v d ds) L + List.length nbrs <= unscanned ds L)%nat.
Proof.
  induction L as [|[k a] L IH]; simpl; intros Hmem Hget; [discriminate|].
  rewrite mem_set. destruct (keqb_spec v k) as [->|Hne].
  - injection Hget as ->. rewrite keqb_refl, Hmem. simpl.
    pose proof (unscanned_mono k d ds L). lia.
  - specialize (IH Hmem Hget). rewrite (keqb_neq k v) by congruence. simpl. lia.
Qed.

Lemma unscanned_nil L : unscanned [] L = nx.degree_sum L.
Proof.
  induction L as [|[k a] L IH]; simpl; [reflexivity|]. now rewrite IH.
Qed.

Lemma step_measure (d : bool) B B' :
  nx.step G d B = nx.Continue B' -> (measure B' < measure B)%nat.
Proof.
  intros Hstep. apply step_shape in Hstep as (Hoth & dist & c & v & rest & Hpop & Hcase).
  apply heappop_spec in Hpop as (_ & _ & Hlen).
  unfold measure.
  destruct Hcase as [(Hmem & Hd & Hf)|(Hmem & Hd & nbrs & Hv & Hf)].
  - destruct d; simpl in *; rewrite Hoth, Hd, Hf; lia.
  - pose proof (unscanned_set v dist (nx.dists (nx.side d B)) nbrs G Hmem Hv) as Hu.
    destruct d; simpl in *; rewrite Hoth, Hd; lia.
Qed.

Lemma relax_error (dir : bool) v dist w e B x :
  nx.relax dir v dist w e B = Err x -> x = KeyError \/ x = ValueError.
Proof.
  unfold nx.relax, nx.meet. cbv zeta.
  repeat match goal with
         | |- context [match ?c with _ => _ end] => destruct c
         end; try discriminate; intros [= <-]; auto.
Qed.

Lemma scan_error (dir : bool) v dist x : forall nbrs B,
  nx.scan dir v dist nbrs B = Err x -> x = KeyError \/ x = ValueError.
Proof.
  induction nbrs as [|[w e] nbrs IH]; intros B; simpl; [discriminate|].
  destruct (nx.relax dir v dist w e B) as [B1|y] eqn:Hr.
  - apply IH.
  - intros [= <-]. eapply relax_error; eauto.
Qed.

Lemma step_error (d : bool) B x :
  nx.step G d B = nx.Fail x -> x = KeyError \/ x = ValueError.
Proof.
  unfold nx.step. cbv zeta.
  destruct (nx.heappop _) as [[[[dist c] v] rest]|]; [|intros [= <-]; auto].
  destruct (OD.mem v _); [discriminate|].
  destruct (OD.mem v _); [discriminate|].
  destruct (OD.get v G) as [nbrs|]; [|intros [= <-]; auto].
  destruct (nx.scan d v dist nbrs _) eqn:Hscan; [discriminate|].
  intros [= <-]. eapply scan_error; eauto.
Qed.

(** The loop never uses up a budget above its measure. *)
Lemma loop_within_budget fuel : forall dir B,
  (measure B < fuel)%nat -> nx.bidi_loop fuel G dir B <> Err RecursionLimit.
Proof.
  induction fuel as [|fuel IH]; intros dir B Hm; [lia|]. simpl.
  destruct (nx.fringe (nx.side0 B)); [discriminate|].
  destruct (nx.fringe (nx.side1 B)); [discriminate|].
  destruct (nx.step G (negb dir) B) as [B'|p|x] eqn:Hstep.
  - apply IH. apply step_measure in Hstep. lia.
  - discriminate.
  - apply step_error in Hstep as [->| ->]; discriminate.
Qed.

Lemma init_measure : (measure (nx.init source target) < nx.iteration_bound G)%nat.
Proof.
  unfold measure, nx.iteration_bound. simpl. rewrite !unscanned_nil. lia.
Qed.

(** With a path between source and target the loop returns a shortest
    one. *)
Lemma loop_correct fuel : forall dir B,
  bidi_inv B -> order_inv dir B -> (measure B < fuel)%nat ->
  (exists q, walk G q /\ joins q source target) ->
  exists p, nx.bidi_loop fuel G dir B = Ok p /\ shortest G source target p.
Proof.
  induction fuel as [|fuel IH]; intros dir B HB HO Hm Hq; [lia|]. simpl.
  destruct (fringes_last dir B HB HO Hq) as [Hf0 Hf1].
  destruct (nx.fringe (nx.side0 B)) as [|x0 f0] eqn:E0; [contradiction|].
  destruct (nx.fringe (nx.side1 B)) as [|x1 f1] eqn:E1; [contradiction|].
  destruct (step_keeps (negb dir) B HB) as [(B' & Hstep & HB')|(p & -> & Hp)].
  - destruct dir; simpl; congruence.
  - rewrite Hstep. apply IH; auto.
    + exact (step_order dir B B' HB HO Hstep).
    + apply step_measure in Hstep. lia.
  - eauto.
Qed.

(** Without one it raises [NetworkXNoPath]. *)
Lemma loop_no_path fuel : forall dir B,
  bidi_inv B -> (measure B < fuel)%nat ->
  ~ (exists q, walk G q /\ joins q source target) ->
  nx.bidi_loop fuel G dir B = Err NetworkXNoPath.
Proof.
  intros dir B HB Hm Hq.
  pose proof (loop_sound fuel dir B HB) as Hs.
  pose proof (loop_within_budget fuel dir B Hm) as Hb.
  destruct (nx.bidi_loop fuel G dir B) as [p|e].
  - exfalso. apply Hq. exists p. destruct Hs as (Hw & Hj & _). auto.
  - destruct Hs as [->| ->]; [reflexivity|contradiction].
Qed.

Lemma init_order : order_inv true (nx.init source target).
Proof. repeat split; auto; discriminate. Qed.

Lemma shortest_path_found :
  (exists q, walk G q /\ joins q source target) ->
  exists p, nx.shortest_path G source target = Ok p /\ shortest G source target p.
Proof.
  intros Hq. unfold nx.shortest_path, nx.bidirectional_dijkstra.
  rewrite source_in, target_in, (keqb_neq _ _ source_target). cbn [negb orb].
  apply loop_correct; auto using init_inv, init_order, init_measure.
Qed.

Lemma shortest_path_none :
  ~ (exists q, walk G q /\ joins q source target) ->
  nx.shortest_path G source target = Err NetworkXNoPath.
Proof.
  intros Hq. unfold nx.shortest_path, nx.bidirectional_dijkstra.
  rewrite source_in, target_in, (keqb_neq _ _ source_target). cbn [negb orb].
  apply loop_no_path; auto using init_inv, init_measure.
Qed.

End Dijkstra.

(** [bidirectional_dijkstra] never stops for lack of iterations, whatever
    the graph. *)
Lemma bidi_loop_total G source target :
  nx.shortest_path G source target <> Err RecursionLimit.
Proof.
  unfold nx.shortest_path, nx.bidirectional_dijkstra.
  destruct (negb (OD.mem source G) || negb (OD.mem target G)); [discriminate|].
  destruct (keqb source target); [discriminate|].
  apply loop_within_budget. apply init_measure.
Qed.

(** ** The topology stays well formed *)

Definition adj_nodup (G : nx.Graph) : Prop :=
  forall v a, OD.get v G = Some a -> NoDup (OD.keys a).

Lemma adj_nodup_adj G u : adj_nodup G -> NoDup (OD.keys (nx.adj G u)).
Proof.
  intros H. unfold nx.adj. destruct (OD.get u G) as [a|] eqn:E.
  - eapply H; eauto.
  - constructor.
Qed.

Lemma adj_nodup_set G u a :
  adj_nodup G -> NoDup (OD.keys a) -> adj_nodup (OD.set u a G).
Proof.
  intros H Ha x b. rewrite get_set. destruct (keqb x u).
  - now intros [= <-].
  - apply H.
Qed.

Lemma edge_data_put G u v e a b :
  nx.edge_data (OD.set u (OD.set v e (nx.adj G u)) G) a b
  = if keqb a u && keqb b v then Some e else nx.edge_data G a b.
Proof.
  unfold nx.edge_data, nx.adj. rewrite get_set.
  destruct (keqb_spec a u) as [->|]; simpl; [|reflexivity].
  rewrite get_set. destruct (keqb b v); [reflexivity|].
  now destruct (OD.get u G).
Qed.

Lemma edge_data_drop G u v a b :
  adj_nodup G ->
  nx.edge_data (OD.set u (OD.pop v (nx.adj G u)) G) a b
  = if keqb a u && keqb b v then None else nx.edge_data G a b.
Proof.
  intros Hnd. unfold nx.edge_data. rewrite get_set.
  destruct (keqb_spec a u) as [->|]; simpl; [|reflexivity].
  rewrite get_pop by now apply adj_nodup_adj.
  destruct (keqb b v); [reflexivity|].
  unfold nx.adj. now destruct (OD.get u G).
Qed.

Lemma edge_data_add_node G n u v :
  nx.edge_data (nx.add_node n G) u v = nx.edge_data G u v.
Proof.
  unfold nx.add_node. destruct (OD.mem n G) eqn:Hmem; [reflexivity|].
  unfold nx.edge_data. rewrite get_set.
  destruct (keqb_spec u n) as [->|]; [|reflexivity].
  unfold OD.mem in Hmem. now destruct (OD.get n G).
Qed.

Lemma wf_add_node n G : well_formed G -> well_formed (nx.add_node n G).
Proof.
  intros [Hn Ha Hs]. constructor.
  - unfold nx.add_node. destruct (OD.mem n G); [assumption|].
    now apply NoDup_keys_set.
  - unfold nx.add_node. destruct (OD.mem n G); [assumption|].
    apply adj_nodup_set; [exact Ha|constructor].
  - intros u v. now rewrite !edge_data_add_node.
Qed.

Lemma edge_data_add_edge G u v e a b :
  nx.edge_data (nx.add_edge u v e G) a b
  = if keqb a v && keqb b u then Some e
    else if keqb a u && keqb b v then Some e
    else nx.edge_data G a b.
Proof.
  unfold nx.add_edge. cbv zeta. rewrite !edge_data_put, !edge_data_add_node.
  reflexivity.
Qed.

Lemma wf_add_edge u v e G : well_formed G -> well_formed (nx.add_edge u v e G).
Proof.
  intros HG. constructor.
  - unfold nx.add_edge. cbv zeta. repeat apply NoDup_keys_set.
    apply (wf_nodes _ (wf_add_node v _ (wf_add_node u _ HG))).
  - unfold nx.add_edge. cbv zeta.
    pose proof (wf_adj _ (wf_add_node v _ (wf_add_node u _ HG))) as H1.
    fold (adj_nodup (nx.add_node v (nx.add_node u G))) in H1.
    assert (H2 : adj_nodup (OD.set u (OD.set v e (nx.adj (nx.add_node v (nx.add_node u G)) u))
                                   (nx.add_node v (nx.add_node u G)))).
    { apply adj_nodup_set; auto. apply NoDup_keys_set. now apply adj_nodup_adj. }
    apply adj_nodup_set; auto. apply NoDup_keys_set. now apply adj_nodup_adj.
  - intros a b. rewrite !edge_data_add_edge, (wf_sym _ HG a b).
    destruct (keqb a v), (keqb b u), (keqb a u), (keqb b v); reflexivity.
Qed.

Lemma edge_data_remove_edge G u v a b :
  adj_nodup G ->
  nx.edge_data (nx.remove_edge u v G) a b
  = if keqb a u && keqb b v then None
    else if keqb a v && keqb b u then None
    else nx.edge_data G a b.
Proof.
  intros Hnd. unfold nx.remove_edge. cbv zeta.
  assert (H1 : adj_nodup (OD.set u (OD.pop v (nx.adj G u)) G)).
  { apply adj_nodup_set; auto. apply NoDup_keys_pop. now apply adj_nodup_adj. }
  destruct (keqb_spec u v) as [->|Hne].
  - rewrite edge_data_drop by assumption.
    now destruct (keqb a v && keqb b v).
  - rewrite !edge_data_drop by assumption.
    destruct (keqb_spec a v) as [->|], (keqb_spec b u) as [->|]; simpl;
      try reflexivity.
    rewrite (keqb_neq v u) by congruence. reflexivity.
Qed.

Lemma wf_remove_edge u v G : well_formed G -> well_formed (nx.remove_edge u v G).
Proof.
  intros HG. pose proof (wf_adj _ HG) as Hnd. fold (adj_nodup G) in Hnd.
  assert (H1 : adj_nodup (OD.set u (OD.pop v (nx.adj G u)) G)).
  { apply adj_nodup_set; auto. apply NoDup_keys_pop. now apply adj_nodup_adj. }
  constructor.
  - unfold nx.remove_edge. cbv zeta.
    destruct (keqb u v); repeat apply NoDup_keys_set; apply (wf_nodes _ HG).
  - unfold nx.remove_edge. cbv zeta. destruct (keqb u v); [exact H1|].
    apply adj_nodup_set; auto. apply NoDup_keys_pop. now apply adj_nodup_adj.
  - intros a b. rewrite !edge_data_remove_edge by assumption.
    rewrite (wf_sym _ HG a b).
    destruct (keqb a u), (keqb b v), (keqb a v), (keqb b u); reflexivity.
Qed.

Lemma bump_keeps_topology out p s :
  topology (state_of (bump_utilization out p s)) = topology s.
Proof.
  unfold bump_utilization.
  destruct (bump p (link_utilization s)) as [lu [x|]]; reflexivity.
Qed.

Lemma reroute_keeps_topology sd s : topology (state_of (reroute sd s)) = topology s.
Proof.
  destruct sd as [src dst]. unfold reroute.
  destruct (OD.get (src, dst) (backup_paths s)) as [[|backup rest]|].
  1,3: destruct (assign_flow src dst None (flow_tables s)); reflexivity.
  cbv zeta.
  destruct (assign_flow src dst (Some backup) _); [|reflexivity].
  now rewrite bump_keeps_topology.
Qed.

Lemma compute_step_keeps_topology src dst s :
  topology (state_of (_compute_path_with_priority src dst s)) = topology s.
Proof.
  destruct (_compute_path_with_priority src dst s) as [o s1|o x s1] eqn:E; simpl.
  - now apply compute_step_done in E as (_ & (HG & _) & _).
  - now apply compute_step_raised in E as [_ ->].
Qed.

Lemma exec_keeps_well_formed c s :
  well_formed (topology s) -> well_formed (topology (state_of (exec c s))).
Proof.
  intros Hwf. destruct c as [ns|u v w c|u v|src dst ty| |]; simpl.
  - unfold add_node.
    apply (for_each_invariant (fun s => well_formed (topology s))); auto.
    intros n s0 H0. simpl. now apply wf_add_node.
  - now apply wf_add_edge.
  - unfold remove_link. destruct (nx.has_edge u v (topology s)); [|assumption].
    unfold _handle_link_failure.
    apply (for_each_invariant (fun s => well_formed (topology s))).
    + intros sd s0 H0. now rewrite reroute_keeps_topology.
    + simpl. now apply wf_remove_edge.
  - unfold inject_flow.
    match goal with |- context [flow_entry ?ft src dst] =>
      destruct (flow_entry ft src dst) as [[[|n p]|]|] end; simpl; auto.
    now rewrite bump_keeps_topology.
  - unfold compute_paths.
    apply (for_each_invariant (fun s => well_formed (topology s))); auto.
    intros sd s0 H0. now rewrite compute_step_keeps_topology.
  - unfold show_utilization.
    apply (for_each_invariant (fun s => well_formed (topology s))); auto.
    intros [[a b] n] s0 H0. unfold usage_line.
    destruct (nx.edge_data (topology s0) a b); simpl; auto.
    destruct (capacity e =? 0); auto.
Qed.

(** Every topology the engine can hold is well formed. *)
Lemma reachable_well_formed s : reachable s -> well_formed (topology s).
Proof.
  induction 1 as [|c s Hr IH].
  - constructor; simpl; try constructor. intros u a. discriminate.
  - now apply exec_keeps_well_formed.
Qed.

Lemma nonnegativeb_sound G : nonnegativeb G = true -> nonnegative G.
Proof.
  intros H u v d Hd. unfold nx.edge_data in Hd.
  destruct (OD.get u G) as [a|] eqn:Hu; [|discriminate].
  apply get_In in Hu. apply get_In in Hd.
  unfold nonnegativeb in H. rewrite forallb_forall in H.
  specialize (H _ Hu). simpl in H. rewrite forallb_forall in H.
  specialize (H _ Hd). simpl in H. now apply Z.leb_le.
Qed.

(** ** Critical traffic takes a shortest path *)

Lemma simple_path_walk G src dst q :
  simple_path G src dst q -> walk G q /\ joins q src dst.
Proof. intros (Hhd & Hlast & _ & Hw). repeat split; auto. Qed.

Lemma nodes_mem G n : In n (nx.nodes G) -> OD.mem n G = true.
Proof. apply mem_keys. Qed.

(** C1: with non-negative weights, the path that [compute_paths] installs
    for a pair of critical priority joins the pair along links of the
    topology, and its total weight is at most that of every simple path
    between the pair; with no simple path the entry is [None]. *)
Theorem critical_path_is_shortest s o s' src dst :
  well_formed (topology s) ->
  nonnegative (topology s) ->
  compute_paths s = Done o s' ->
  In src (nx.nodes (topology s)) ->
  In dst (nx.nodes (topology s)) ->
  src <> dst ->
  priority_for src dst s = critical ->
  let G := topology s in
  match flow_entry (flow_tables s') src dst with
  | Some (Some p) =>
      walk G p /\ joins p src dst /\
      forall q, simple_path G src dst q -> path_weight G p <= path_weight G q
  | Some None => forall q, ~ simple_path G src dst q
  | None => False
  end.
Proof.
  intros Hwf Hnn Hrun Hsrc Hdst Hne Hprio. cbv zeta.
  unfold compute_paths in Hrun.
  apply compute_loop_done in Hrun as (_ & _ & Heff).
  destruct (Heff src dst) as [Hin _].
  destruct Hin as (e & bk & Hplan & -> & _).
  { apply In_ordered_pairs. auto. }
  unfold plan in Hplan. rewrite Hprio, Z.eqb_refl in Hplan.
  destruct (nx.all_simple_paths (topology s) src dst) as [|p0 ps] eqn:Hall.
  - injection Hplan as <- _. intros q Hq.
    apply all_simple_paths_complete in Hq; auto. now rewrite Hall in Hq.
  - assert (Hp0 : simple_path (topology s) src dst p0).
    { apply all_simple_paths_sound. rewrite Hall. now left. }
    destruct (shortest_path_found (topology s) Hwf Hnn src dst
                (nodes_mem _ _ Hsrc) (nodes_mem _ _ Hdst) Hne)
      as (p & Hp & Hw & Hj & Hmin).
    { exists p0. now apply simple_path_walk. }
    rewrite Hp in Hplan. injection Hplan as <- _.
    split; [exact Hw|]. split; [exact Hj|].
    intros q Hq. apply simple_path_walk in Hq as [Hqw Hqj]. now apply Hmin.
Qed.

Lemma critical_path_is_shortest_witness :
  let s := state_of (exec (InjectFlow "A" "C" "critical")
             (state_of (exec (AddLink "A" "C" 5 10)
               (state_of (exec (AddLink "B" "C" 1 10)
                 (state_of (exec (AddLink "A" "B" 1 10)
                   (state_of (exec (AddNode ["A"; "B"; "C"]) init))))))))) in
  let s' := state_of (compute_paths s) in
  let G := topology s in
  match flow_entry (flow_tables s') "A" "C" with
  | Some (Some p) =>
      walk G p /\ joins p "A" "C" /\
      forall q, simple_path G "A" "C" q -> path_weight G p <= path_weight G q
  | Some None => forall q, ~ simple_path G "A" "C" q
  | None => False
  end.
Proof.
  intros s s'.
  apply (critical_path_is_shortest s [] s' "A" "C").
  - apply reachable_well_formed. repeat apply reach_exec. apply reach_init.
  - apply nonnegativeb_sound. vm_compute. reflexivity.
  - vm_compute. reflexivity.
  - vm_compute. auto.
  - vm_compute. auto.
  - discriminate.
  - vm_compute. reflexivity.
Defined.

(** *** [compute_paths] returns when every node owns a flow table *)

Lemma plan_ok s src dst :
  well_formed (topology s) -> nonnegative (topology s) ->
  In src (nx.nodes (topology s)) -> In dst (nx.nodes (topology s)) ->
  src <> dst ->
  exists pl, plan s src dst = Ok pl.
Proof.
  intros Hwf Hnn Hsrc Hdst Hne. unfold plan.
  destruct (nx.all_simple_paths (topology s) src dst) as [|p0 ps] eqn:Hall; [eauto|].
  destruct (priority_for src dst s =? critical).
  - assert (Hp0 : simple_path (topology s) src dst p0).
    { apply all_simple_paths_sound. rewrite Hall. now left. }
    destruct (shortest_path_found (topology s) Hwf Hnn src dst
                (nodes_mem _ _ Hsrc) (nodes_mem _ _ Hdst) Hne) as (p & -> & _).
    { exists p0. now apply simple_path_walk. }
    eauto.
  - destruct (select_load_balanced_nonempty (link_utilization s) p0 ps) as [p ->].
    eauto.
Qed.

Lemma compute_loop_completes l : forall s,
  well_formed (topology s) -> nonnegative (topology s) -> owners s ->
  (forall src dst, In (src, dst) l ->
     In src (nx.nodes (topology s)) /\ In dst (nx.nodes (topology s)) /\ src <> dst) ->
  exists s', for_each l compute_body s = Done [] s'.
Proof.
  induction l as [|[a b] l IH]; intros s Hwf Hnn Hown Hl; simpl; [eauto|].
  destruct (Hl a b (or_introl eq_refl)) as (Ha & Hb & Hab).
  destruct (plan_ok s a b Hwf Hnn Ha Hb Hab) as [pl Hpl].
  unfold compute_body at 1. simpl.
  destruct (_compute_path_with_priority a b s) as [o s1|o x s1] eqn:Hstep.
  - apply compute_step_done in Hstep as (-> & (HG & Ht & Hu & Hm) & _).
    destruct (IH s1) as [s' Hs'].
    + now rewrite HG.
    + now rewrite HG.
    + intros n Hn. rewrite Hm. apply Hown. now rewrite <- HG.
    + intros src dst Hin. rewrite HG. apply Hl. now right.
    + exists s'. simpl. now rewrite Hs'.
  - exfalso. rewrite compute_step_plan, Hpl in Hstep. unfold apply_plan in Hstep.
    specialize (Hown a Ha). unfold OD.mem in Hown. unfold assign_flow in Hstep.
    destruct (OD.get a (flow_tables s)); discriminate.
Qed.

Lemma compute_paths_completes s :
  well_formed (topology s) -> nonnegative (topology s) -> owners s ->
  exists s', compute_paths s = Done [] s'.
Proof.
  intros Hwf Hnn Hown. apply compute_loop_completes; auto.
  intros src dst. apply In_ordered_pairs.
Qed.

(** ** Where the engine raises *)

(** C2 fails on the code: with A-B, B-C, B-D, D-C, the pair (A, C) is
    routed over [A; B; C] and its only backup is [A; B; D; C]. Removing the
    link A-B pops that backup and installs it, although it runs over the
    removed link, and the counter update then raises [KeyError] because the
    counters of A-B are gone. *)
Lemma remove_link_installs_backup_over_removed_link :
  let s := state_of (run [AddNode ["A"; "B"; "C"; "D"]; AddLink "A" "B" 1 10;
                          AddLink "B" "C" 1 10; AddLink "B" "D" 1 10;
                          AddLink "D" "C" 1 10; ComputePaths] init) in
  flow_entry (flow_tables s) "A" "C" = Some (Some ["A"; "B"; "C"]) /\
  uses_link "A" "B" ["A"; "B"; "C"] = true /\
  OD.get ("A", "C") (backup_paths s) = Some [["A"; "B"; "D"; "C"]] /\
  exists out s',
    remove_link "A" "B" s = Raised out KeyError s' /\
    flow_entry (flow_tables s') "A" "C" = Some (Some ["A"; "B"; "D"; "C"]) /\
    uses_link "A" "B" ["A"; "B"; "D"; "C"] = true /\
    OD.get ("A", "C") (backup_paths s') = Some [] /\
    link_utilization s'
    = OD.pop ("B", "A") (OD.pop ("A", "B") (link_utilization s)).
Proof.
  cbv zeta. split; [vm_compute; reflexivity|]. split; [vm_compute; reflexivity|].
  split; [vm_compute; reflexivity|].
  eexists. eexists. split; [vm_compute; reflexivity|].
  repeat split; vm_compute; reflexivity.
Qed.

(** C5 fails on the code: [add_link] adds its end points to the topology
    without giving them a flow table, so the next [compute_paths] raises
    [KeyError]; and [show_utilization] divides by a capacity of 0. *)
Lemma public_operations_raise :
  (exists s,
     run [AddLink "A" "B" 1 100; ComputePaths] init = Raised [] KeyError s /\
     nx.nodes (topology s) = ["A"; "B"] /\ flow_tables s = []) /\
  (exists out s,
     run [AddNode ["A"; "B"]; AddLink "A" "B" 1 0; ShowUtilization] init
     = Raised out ZeroDivisionError s).
Proof.
  split.
  - eexists. split; [vm_compute; reflexivity|]. split; reflexivity.
  - eexists. eexists. vm_compute. reflexivity.
Qed.

(** * More of the engine *)

(** ** The counter loop of [inject_flow] and of the failure handler *)

Lemma mem_set_hit {K V} `{EqKey K} (k k' : K) (v v0 : V) (d : OD.t K V) :
  OD.get k d = Some v0 -> OD.mem k' (OD.set k v d) = OD.mem k' d.
Proof.
  intros Hk. unfold OD.mem. rewrite get_set.
  destruct (keqb_spec k' k) as [->|]; auto. now rewrite Hk.
Qed.

Lemma bump_cons a b rest lu :
  bump (a :: b :: rest) lu =
  match OD.get (a, b) lu with
  | None => (lu, Some KeyError)
  | Some x =>
      match OD.get (b, a) (OD.set (a, b) (x + 1) lu) with
      | None => (OD.set (a, b) (x + 1) lu, Some KeyError)
      | Some y =>
          bump (b :: rest) (OD.set (b, a) (y + 1) (OD.set (a, b) (x + 1) lu))
      end
  end.
Proof. reflexivity. Qed.

Lemma hops_present_cons lu a b rest :
  hops_present lu (a :: b :: rest) =
  OD.mem (a, b) lu && OD.mem (b, a) lu && hops_present lu (b :: rest).
Proof. reflexivity. Qed.

(** The loop assigns to counters that exist only: it creates none. *)
Lemma bump_mem p : forall lu k, OD.mem k (fst (bump p lu)) = OD.mem k lu.
Proof.
  induction p as [|a [|b rest] IH]; intros lu k; try reflexivity.
  rewrite bump_cons. destruct (OD.get (a, b) lu) as [x|] eqn:Hx; [|reflexivity].
  destruct (OD.get (b, a) (OD.set (a, b) (x + 1) lu)) as [y|] eqn:Hy.
  - rewrite IH. rewrite (mem_set_hit _ _ _ y) by exact Hy.
    now rewrite (mem_set_hit _ _ _ x).
  - cbn [fst]. now rewrite (mem_set_hit _ _ _ x).
Qed.

Lemma hops_present_ext lu lu' p :
  (forall k, OD.mem k lu' = OD.mem k lu) ->
  hops_present lu' p = hops_present lu p.
Proof.
  intros H. induction p as [|a [|b rest] IH]; try reflexivity.
  rewrite !hops_present_cons. now rewrite !H, IH.
Qed.

(** The loop runs through exactly when both counters of every hop exist. *)
Lemma bump_ok_iff p : forall lu,
  snd (bump p lu) = None <-> hops_present lu p = true.
Proof.
  induction p as [|a [|b rest] IH]; intros lu; try (split; reflexivity).
  rewrite bump_cons, hops_present_cons. unfold OD.mem at 1.
  destruct (OD.get (a, b) lu) as [x|] eqn:Hx; [|split; discriminate].
  rewrite <- (mem_set_hit (a, b) (b, a) (x + 1) x lu Hx). unfold OD.mem at 1.
  destruct (OD.get (b, a) (OD.set (a, b) (x + 1) lu)) as [y|] eqn:Hy;
    [|split; discriminate].
  rewrite IH. cbn [andb].
  rewrite (hops_present_ext lu _ (b :: rest)); [reflexivity|].
  intros k. rewrite (mem_set_hit _ _ _ y) by exact Hy.
  now rewrite (mem_set_hit _ _ _ x).
Qed.

Lemma uses_link_cons u v a b rest :
  uses_link u v (a :: b :: rest) =
  keqb (u, v) (a, b) || keqb (v, u) (a, b) || uses_link u v (b :: rest).
Proof. reflexivity. Qed.

Lemma uses_link_In u v p : uses_link u v p = true -> In u p /\ In v p.
Proof.
  induction p as [|a [|b rest] IH]; try discriminate.
  rewrite uses_link_cons. intros H.
  apply orb_true_iff in H as [H|H]; [apply orb_true_iff in H as [H|H]|].
  - apply keqb_eq in H. injection H as -> ->. simpl; auto.
  - apply keqb_eq in H. injection H as -> ->. simpl; auto.
  - destruct (IH H). split; now right.
Qed.

(** A counter only ever grows in the loop. *)
Lemma bump_grows p : forall lu k x,
  OD.get k lu = Some x ->
  exists y, OD.get k (fst (bump p lu)) = Some y /\ x <= y.
Proof.
  assert (Hset : forall (lu : OD.t (node * node) Z) h z k x,
             OD.get h lu = Some z -> OD.get k lu = Some x ->
             exists y, OD.get k (OD.set h (z + 1) lu) = Some y /\ x <= y).
  { intros lu h z k x Hh Hk. rewrite get_set.
    destruct (keqb_spec k h) as [->|].
    - exists (z + 1). split; [reflexivity|]. rewrite Hh in Hk.
      injection Hk as ->. lia.
    - exists x. split; [exact Hk|lia]. }
  induction p as [|a [|b rest] IH]; intros lu k x Hk;
    try (exists x; split; [exact Hk|lia]).
  rewrite bump_cons. destruct (OD.get (a, b) lu) as [xa|] eqn:Ha;
    [|exists x; split; [exact Hk|lia]].
  destruct (Hset lu (a, b) xa k x Ha Hk) as (x1 & Hk1 & Hle1).
  destruct (OD.get (b, a) (OD.set (a, b) (xa + 1) lu)) as [xb|] eqn:Hb;
    [|exists x1; split; [exact Hk1|lia]].
  destruct (Hset _ (b, a) xb k x1 Hb Hk1) as (x2 & Hk2 & Hle2).
  destruct (IH _ k x2 Hk2) as (y & Hy & Hle). exists y. split; [exact Hy|lia].
Qed.

(** Along a path that visits no node twice, the loop adds exactly one to the
    two counters of every hop and leaves every other counter alone. *)
Lemma bump_simple p : forall lu,
  NoDup p -> hops_present lu p = true ->
  snd (bump p lu) = None /\
  forall u v,
    OD.get (u, v) (fst (bump p lu)) =
    if uses_link u v p
    then option_map (fun x => x + 1) (OD.get (u, v) lu)
    else OD.get (u, v) lu.
Proof.
  intros lu Hnd Hp. split; [now apply bump_ok_iff|]. revert lu Hnd Hp.
  induction p as [|a [|b rest] IH]; intros lu Hnd Hp u v; try reflexivity.
  rewrite hops_present_cons in Hp.
  apply andb_true_iff in Hp as [Hp Hrest]. apply andb_true_iff in Hp as [Hab Hba].
  unfold OD.mem in Hab, Hba.
  destruct (OD.get (a, b) lu) as [x|] eqn:Hx; [|discriminate].
  destruct (OD.get (b, a) lu) as [y|] eqn:Hy; [|discriminate].
  assert (Hne : a <> b).
  { intros ->. inversion Hnd as [|? ? Hin _]. apply Hin. now left. }
  assert (Hne' : (a, b) <> (b, a)) by (intros E; injection E; auto).
  rewrite bump_cons, Hx, get_set_other, Hy by exact Hne'.
  assert (Hnd' : NoDup (b :: rest)) by now inversion Hnd.
  assert (Hrest' : hops_present (OD.set (b, a) (y + 1) (OD.set (a, b) (x + 1) lu))
                     (b :: rest) = true).
  { rewrite <- Hrest. apply hops_present_ext. intros k.
    rewrite (mem_set_hit _ _ _ y) by (now rewrite get_set_other).
    now rewrite (mem_set_hit _ _ _ x). }
  rewrite (IH _ Hnd' Hrest' u v), uses_link_cons.
  assert (Hnot : forall w, uses_link a w (b :: rest) = false /\
                           uses_link w a (b :: rest) = false).
  { intros w. inversion Hnd as [|? ? Hin _].
    split; destruct (uses_link _ _ (b :: rest)) eqn:E; auto;
      apply uses_link_In in E; tauto. }
  destruct (keqb_spec (u, v) (a, b)) as [E|Huv].
  - injection E as -> ->. rewrite (proj1 (Hnot b)). cbn [orb].
    rewrite get_set_other, get_set_same, Hx by (intros E; injection E; auto).
    reflexivity.
  - destruct (keqb_spec (v, u) (a, b)) as [E|Hvu].
    + injection E as -> ->. rewrite (proj2 (Hnot b)). cbn [orb].
      rewrite get_set_same, Hy. reflexivity.
    + cbn [orb]. rewrite !get_set_other; auto.
      intros E; injection E as <- <-. now apply Hvu.
Qed.

Lemma bump_utilization_fields out p s :
  let s' := state_of (bump_utilization out p s) in
  topology s' = topology s /\ flow_tables s' = flow_tables s /\
  traffic s' = traffic s /\ backup_paths s' = backup_paths s /\
  link_utilization s' = fst (bump p (link_utilization s)).
Proof.
  unfold bump_utilization.
  destruct (bump p (link_utilization s)) as [lu [e|]]; cbn; auto.
Qed.

Lemma bump_utilization_outcome out p s :
  bump_utilization out p s =
  (if hops_present (link_utilization s) p
   then Done out else fun s' => Raised out KeyError s')
    (set_link_utilization (fst (bump p (link_utilization s))) s).
Proof.
  unfold bump_utilization.
  pose proof (bump_ok_iff p (link_utilization s)) as Hok.
  assert (He : forall lu, snd (bump p lu) = None \/ snd (bump p lu) = Some KeyError).
  { clear. induction p as [|a [|b rest] IH]; intros lu; try (left; reflexivity).
    rewrite bump_cons. destruct (OD.get (a, b) lu); [|now right].
    destruct (OD.get (b, a) _); [apply IH|now right]. }
  specialize (He (link_utilization s)).
  destruct (bump p (link_utilization s)) as [lu [e|]]; cbn [fst snd] in *.
  - destruct He as [He|He]; [discriminate|]. injection He as ->.
    destruct (hops_present (link_utilization s) p); [|reflexivity].
    destruct Hok as [_ Hok]. discriminate (Hok eq_refl).
  - now rewrite (proj1 Hok eq_refl).
Qed.

(** X1 - [inject_flow], lines 89-95: along an installed path that visits no node
    twice and whose hops all have their two counters, the call returns, adds
    exactly one to both counters of every link of the path, changes no other
    counter, and touches neither the topology, the flow tables nor the backups.
    *)
Theorem inject_flow_simple_path s src dst ty p :
  flow_entry (flow_tables s) src dst = Some (Some p) ->
  p <> [] -> NoDup p ->
  hops_present (link_utilization s) p = true ->
  exists s',
    inject_flow src dst ty s = Done [Routing ty src dst p] s' /\
    (forall u v,
        OD.get (u, v) (link_utilization s') =
        if uses_link u v p
        then option_map (fun x => x + 1) (OD.get (u, v) (link_utilization s))
        else OD.get (u, v) (link_utilization s)) /\
    topology s' = topology s /\ flow_tables s' = flow_tables s /\
    backup_paths s' = backup_paths s.
Proof.
  intros Hfe Hne Hnd Hp. unfold inject_flow. cbn [flow_tables set_traffic].
  rewrite Hfe. destruct p as [|n p]; [contradiction|].
  rewrite bump_utilization_outcome. cbn [link_utilization set_traffic].
  rewrite Hp. eexists. split; [reflexivity|]. cbn.
  split; [|auto]. apply (bump_simple (n :: p) _ Hnd Hp).
Qed.

Lemma inject_flow_simple_path_witness :
  exists s',
    inject_flow "a" "c" "video"
      {| topology := [];
         flow_tables := [("a", [("c", Some ["a"; "b"; "c"])])];
         traffic := [];
         link_utilization :=
           [(("a", "b"), 4); (("b", "a"), 4); (("b", "c"), 0);
            (("c", "b"), 0); (("a", "c"), 7)];
         backup_paths := [] |}
    = Done [Routing "video" "a" "c" ["a"; "b"; "c"]] s' /\
    OD.get ("b", "a") (link_utilization s') = Some 5 /\
    OD.get ("a", "c") (link_utilization s') = Some 7.
Proof.
  destruct (inject_flow_simple_path
              {| topology := [];
                 flow_tables := [("a", [("c", Some ["a"; "b"; "c"])])];
                 traffic := [];
                 link_utilization :=
                   [(("a", "b"), 4); (("b", "a"), 4); (("b", "c"), 0);
                    (("c", "b"), 0); (("a", "c"), 7)];
                 backup_paths := [] |}
              "a" "c" "video" ["a"; "b"; "c"])
    as (s' & Hrun & Hlu & _).
  - reflexivity.
  - discriminate.
  - repeat constructor; simpl; intuition discriminate.
  - reflexivity.
  - exists s'. split; [exact Hrun|].
    split; [exact (Hlu "b" "a")|exact (Hlu "a" "c")].
Defined.

(** X2 - [inject_flow], lines 88-95: with a non-empty installed path the call
    returns when both counters of every hop exist and raises [KeyError], after
    the routing line, as soon as one is missing. *)
Theorem inject_flow_raises_iff s src dst ty n p :
  flow_entry (flow_tables s) src dst = Some (Some (n :: p)) ->
  (hops_present (link_utilization s) (n :: p) = true ->
   exists s', inject_flow src dst ty s
              = Done [Routing ty src dst (n :: p)] s') /\
  (hops_present (link_utilization s) (n :: p) = false ->
   exists s', inject_flow src dst ty s
              = Raised [Routing ty src dst (n :: p)] KeyError s').
Proof.
  intros Hfe. unfold inject_flow. cbn [flow_tables set_traffic].
  rewrite Hfe, bump_utilization_outcome. cbn [link_utilization set_traffic].
  split; intros ->; eexists; reflexivity.
Qed.

Lemma inject_flow_raises_iff_witness :
  exists s',
    inject_flow "a" "c" "voip"
      {| topology := [];
         flow_tables := [("a", [("c", Some ["a"; "b"; "c"])])];
         traffic := [];
         link_utilization := [(("a", "b"), 0); (("b", "a"), 0)];
         backup_paths := [] |}
    = Raised [Routing "voip" "a" "c" ["a"; "b"; "c"]] KeyError s'.
Proof.
  apply (inject_flow_raises_iff
           {| topology := [];
              flow_tables := [("a", [("c", Some ["a"; "b"; "c"])])];
              traffic := [];
              link_utilization := [(("a", "b"), 0); (("b", "a"), 0)];
              backup_paths := [] |}
           "a" "c" "voip" "a" ["b"; "c"]); reflexivity.
Defined.

(** X3 - [inject_flow], lines 85-99: whatever the outcome, the call leaves the
    topology, the flow tables and the backups as they were, records the
    descriptor of the pair, creates and deletes no counter and lowers none. *)
Theorem inject_flow_frame s src dst ty :
  let s' := state_of (inject_flow src dst ty s) in
  topology s' = topology s /\ flow_tables s' = flow_tables s /\
  backup_paths s' = backup_paths s /\
  traffic s' = OD.set (src, dst)
                 {| ttype := ty; priority := priority_of ty |} (traffic s) /\
  (forall k, OD.mem k (link_utilization s') = OD.mem k (link_utilization s)) /\
  (forall k x, OD.get k (link_utilization s) = Some x ->
               exists y, OD.get k (link_utilization s') = Some y /\ x <= y).
Proof.
  unfold inject_flow. cbn [flow_tables set_traffic].
  destruct (flow_entry (flow_tables s) src dst) as [[[|n p]|]|]; cbn zeta.
  2: { destruct (bump_utilization_fields [Routing ty src dst (n :: p)] (n :: p)
                   (set_traffic (OD.set (src, dst)
                      {| ttype := ty; priority := priority_of ty |} (traffic s)) s))
         as (Ht & Hf & Htr & Hb & Hlu).
       rewrite Ht, Hf, Htr, Hb, Hlu. cbn [topology flow_tables traffic
         backup_paths link_utilization set_traffic].
       repeat (split; [reflexivity|]). split.
       - intros k. apply bump_mem.
       - intros k x Hk. exact (bump_grows _ _ k x Hk). }
  all: cbn; repeat (split; [reflexivity|]);
    intros k x Hk; exists x; split; [exact Hk|lia].
Qed.

(** ** What every reachable state satisfies *)

Lemma has_edge_data G u v :
  nx.has_edge u v G
  = match nx.edge_data G u v with Some _ => true | None => false end.
Proof.
  unfold nx.has_edge, nx.edge_data, OD.mem. now destruct (OD.get u G).
Qed.

Lemma keqb_pair (a b c d : node) : keqb (a, b) (c, d) = keqb a c && keqb b d.
Proof. reflexivity. Qed.

Lemma for_each_invariant_in {X} (P : SDNController -> Prop) (xs : list X) body :
  (forall x s, In x xs -> P s -> P (state_of (body x s))) ->
  forall s, P s -> P (state_of (for_each xs body s)).
Proof.
  induction xs as [|x xs IH]; intros Hbody s Hs; simpl; auto.
  pose proof (Hbody x s (or_introl eq_refl) Hs) as Hx.
  destruct (body x s) as [o1 s1|o1 e s1]; simpl in *; auto.
  assert (Hrest : forall y s0, In y xs -> P s0 -> P (state_of (body y s0)))
    by (intros y s0 Hy; apply Hbody; now right).
  specialize (IH Hrest s1 Hx).
  destruct (for_each xs body s1); simpl in *; auto.
Qed.

Lemma reroute_fields sd s :
  let s' := state_of (reroute sd s) in
  topology s' = topology s /\ traffic s' = traffic s /\
  (forall k, OD.mem k (link_utilization s') = OD.mem k (link_utilization s)) /\
  (forall k x, OD.get k (link_utilization s) = Some x ->
               exists y, OD.get k (link_utilization s') = Some y /\ x <= y).
Proof.
  assert (Hsame : forall s0 : SDNController,
             link_utilization s0 = link_utilization s ->
             (forall k, OD.mem k (link_utilization s0) = OD.mem k (link_utilization s)) /\
             (forall k x, OD.get k (link_utilization s) = Some x ->
                exists y, OD.get k (link_utilization s0) = Some y /\ x <= y)).
  { intros s0 ->. split; auto. intros k x Hk. exists x. split; [exact Hk|lia]. }
  destruct sd as [src dst]. unfold reroute.
  destruct (OD.get (src, dst) (backup_paths s)) as [[|backup rest]|].
  1,3: destruct (assign_flow src dst None (flow_tables s)); cbn;
    (split; [reflexivity|]); (split; [reflexivity|]); now apply Hsame.
  cbn [flow_tables set_backup_paths].
  destruct (assign_flow src dst (Some backup) (flow_tables s)) as [ft|].
  2: cbn; (split; [reflexivity|]); (split; [reflexivity|]); now apply Hsame.
  match goal with |- context [bump_utilization ?o ?p ?s0] =>
    destruct (bump_utilization_fields o p s0) as (Ht & _ & Htr & _ & Hlu) end.
  cbv zeta. rewrite Ht, Htr, Hlu. cbn [topology traffic link_utilization
    set_flow_tables set_backup_paths].
  split; [reflexivity|]. split; [reflexivity|]. split.
  - intros k. apply bump_mem.
  - intros k x Hk. exact (bump_grows _ _ k x Hk).
Qed.

Lemma failure_loop_fields l s :
  let s' := state_of (for_each l reroute s) in
  topology s' = topology s /\ traffic s' = traffic s /\
  (forall k, OD.mem k (link_utilization s') = OD.mem k (link_utilization s)) /\
  (forall k x, OD.get k (link_utilization s) = Some x ->
               exists y, OD.get k (link_utilization s') = Some y /\ x <= y).
Proof.
  apply (for_each_invariant
           (fun s' => topology s' = topology s /\ traffic s' = traffic s /\
              (forall k, OD.mem k (link_utilization s')
                         = OD.mem k (link_utilization s)) /\
              (forall k x, OD.get k (link_utilization s) = Some x ->
                 exists y, OD.get k (link_utilization s') = Some y /\ x <= y))).
  - intros sd s0 (Ht & Htr & Hm & Hg).
    destruct (reroute_fields sd s0) as (Ht' & Htr' & Hm' & Hg').
    split; [congruence|]. split; [congruence|]. split.
    + intros k. now rewrite Hm'.
    + intros k x Hk. destruct (Hg k x Hk) as (y & Hy & Hle).
      destruct (Hg' k y Hy) as (z & Hz & Hle'). exists z. split; [exact Hz|lia].
  - split; [reflexivity|]. split; [reflexivity|]. split; [reflexivity|].
    intros k x Hk. exists x. split; [exact Hk|lia].
Qed.

Lemma show_utilization_state s : state_of (show_utilization s) = s.
Proof.
  unfold show_utilization.
  apply (for_each_invariant (fun s' => s' = s)); [|reflexivity].
  intros [[u v] usage] s0 ->. unfold usage_line.
  destruct (nx.edge_data (topology s) u v) as [d|]; [|reflexivity].
  now destruct (capacity d =? 0).
Qed.

Lemma compute_paths_fields s :
  let s' := state_of (compute_paths s) in
  topology s' = topology s /\ link_utilization s' = link_utilization s.
Proof.
  unfold compute_paths.
  apply (for_each_invariant
           (fun s' => topology s' = topology s /\
                      link_utilization s' = link_utilization s)); [|auto].
  intros sd s0 [Ht Hl].
  rewrite compute_step_keeps_topology, compute_step_keeps_utilization. auto.
Qed.

Lemma add_node_fields ns s :
  let s' := state_of (add_node ns s) in
  link_utilization s' = link_utilization s /\
  (forall u v, nx.edge_data (topology s') u v = nx.edge_data (topology s) u v) /\
  (forall n, In n (nx.nodes (topology s)) -> In n (nx.nodes (topology s'))).
Proof.
  unfold add_node.
  apply (for_each_invariant
           (fun s' => link_utilization s' = link_utilization s /\
              (forall u v, nx.edge_data (topology s') u v
                           = nx.edge_data (topology s) u v) /\
              (forall n, In n (nx.nodes (topology s)) ->
                         In n (nx.nodes (topology s'))))); [|auto].
  intros n s0 (Hl & He & Hn). cbn. split; [exact Hl|]. split.
  - intros u v. now rewrite edge_data_add_node.
  - intros m Hm. specialize (Hn m Hm). unfold nx.add_node, nx.nodes in *.
    destruct (OD.mem n (topology s0)); [exact Hn|].
    apply In_keys_set. now right.
Qed.

Lemma counted_remove u v G lu :
  well_formed G -> paired lu ->
  (forall a b, OD.mem (a, b) lu = nx.has_edge a b G) ->
  forall a b,
    OD.mem (a, b) (OD.pop (v, u) (OD.pop (u, v) lu))
    = nx.has_edge a b (nx.remove_edge u v G).
Proof.
  intros HG [Hnd _] Hc a b. rewrite has_edge_data, edge_data_remove_edge
    by (exact (wf_adj _ HG)).
  unfold OD.mem. rewrite !get_pop by (try apply NoDup_keys_pop; exact Hnd).
  rewrite !keqb_pair.
  destruct (keqb a u && keqb b v); [now destruct (keqb a v && keqb b u)|].
  destruct (keqb a v && keqb b u); [reflexivity|].
  specialize (Hc a b). unfold OD.mem in Hc. now rewrite Hc, has_edge_data.
Qed.

Lemma counted_exec c s :
  well_formed (topology s) -> paired (link_utilization s) ->
  counted s -> counted (state_of (exec c s)).
Proof.
  intros HG Hp Hc. destruct c as [ns|u v w c|u v|src dst ty| |]; cbn [exec].
  - destruct (add_node_fields ns s) as (Hl & He & _).
    intros a b. rewrite Hl, !has_edge_data, He, <- has_edge_data. apply Hc.
  - intros a b. cbn. rewrite has_edge_data, edge_data_add_edge.
    unfold OD.mem. rewrite !get_set, !keqb_pair.
    destruct (keqb a v && keqb b u); [reflexivity|].
    destruct (keqb a u && keqb b v); [reflexivity|].
    specialize (Hc a b). unfold OD.mem in Hc. now rewrite Hc, has_edge_data.
  - unfold remove_link. destruct (nx.has_edge u v (topology s)); [|exact Hc].
    unfold _handle_link_failure.
    match goal with |- context [for_each ?l reroute ?s0] =>
      destruct (failure_loop_fields l s0) as (Ht & _ & Hm & _) end.
    intros a b. rewrite Hm, Ht. cbn. now apply counted_remove.
  - intros a b.
    assert (Ht : topology (state_of (inject_flow src dst ty s)) = topology s).
    { unfold inject_flow. cbn [flow_tables set_traffic].
      destruct (flow_entry (flow_tables s) src dst) as [[[|n p]|]|]; try reflexivity.
      now rewrite bump_keeps_topology. }
    assert (Hm : forall k, OD.mem k (link_utilization
                                      (state_of (inject_flow src dst ty s)))
                           = OD.mem k (link_utilization s)).
    { unfold inject_flow. cbn [flow_tables set_traffic].
      destruct (flow_entry (flow_tables s) src dst) as [[[|n p]|]|]; try reflexivity.
      intros k.
      match goal with |- context [bump_utilization ?o ?p ?s0] =>
        destruct (bump_utilization_fields o p s0) as (_ & _ & _ & _ & Hlu) end.
      rewrite Hlu. apply bump_mem. }
    rewrite Hm, Ht. apply Hc.
  - destruct (compute_paths_fields s) as [Ht Hl].
    intros a b. rewrite Hl, Ht. apply Hc.
  - now rewrite show_utilization_state.
Qed.

(** *** The flows a failed link affects *)

Lemma In_affected_raw u v ft a b :
  In (a, b) (affected_flows u v ft) <->
  exists row n p,
    In (a, row) ft /\ In (b, Some (n :: p)) row /\
    uses_link u v (n :: p) = true.
Proof.
  unfold affected_flows. rewrite in_flat_map. split.
  - intros ([k row] & Hrow & Hin). cbn [fst snd] in Hin.
    apply in_flat_map in Hin as ([d e] & He & Hin). cbn [fst snd] in Hin.
    destruct e as [[|n p]|]; try contradiction.
    destruct (uses_link u v (n :: p)) eqn:Hu; [|contradiction].
    destruct Hin as [E|[]]. injection E as -> ->.
    exists row, n, p. auto.
  - intros (row & n & p & Hrow & He & Hu). exists (a, row). split; [exact Hrow|].
    cbn [fst snd]. apply in_flat_map. exists (b, Some (n :: p)).
    split; [exact He|]. cbn [fst snd]. rewrite Hu. now left.
Qed.

Lemma In_affected_flows u v ft a b :
  table_shape ft ->
  (In (a, b) (affected_flows u v ft) <->
   exists n p, flow_entry ft a b = Some (Some (n :: p)) /\
               uses_link u v (n :: p) = true).
Proof.
  intros [Hrows Hcols]. rewrite In_affected_raw. unfold flow_entry. split.
  - intros (row & n & p & Hrow & He & Hu). exists n, p.
    apply In_get in Hrow; [|exact Hrows]. rewrite Hrow.
    split; [|exact Hu]. apply In_get; [|exact He]. now apply (Hcols a).
  - intros (n & p & He & Hu).
    destruct (OD.get a ft) as [row|] eqn:Hrow; [|discriminate].
    exists row, n, p. split; [now apply get_In|]. split; [now apply get_In|exact Hu].
Qed.

Lemma NoDup_affected_flows u v ft :
  table_shape ft -> NoDup (affected_flows u v ft).
Proof.
  intros [Hrows Hcols].
  assert (Hcols' : forall n row, In (n, row) ft -> NoDup (OD.keys row)).
  { intros n row Hin. apply (Hcols n). now apply In_get. }
  clear Hcols. induction ft as [|[k row] ft IH]; [constructor|].
  inversion Hrows as [|? ? Hk Hrows']; subst.
  assert (Hhits : forall x,
             In x (flat_map (fun e0 : node * option path =>
                     match snd e0 with
                     | Some (n :: p) =>
                         if uses_link u v (n :: p) then [(k, fst e0)] else []
                     | _ => []
                     end) row) ->
             fst x = k /\ In (snd x) (OD.keys row)).
  { intros x Hin. apply in_flat_map in Hin as ([d' e'] & He' & Hin).
    cbn [fst snd] in Hin. destruct e' as [[|n p]|]; try contradiction.
    destruct (uses_link u v (n :: p)); [|contradiction].
    destruct Hin as [<-|[]]. cbn [fst snd]. split; [reflexivity|].
    change d' with (fst (d', Some (n :: p))). now apply in_map. }
  unfold affected_flows. cbn [flat_map fst snd]. fold (affected_flows u v ft).
  apply NoDup_app.
  - assert (Hrow : NoDup (OD.keys row)) by (apply (Hcols' k); now left).
    clear -Hrow. induction row as [|[d e] row IH]; [constructor|].
    inversion Hrow as [|? ? Hd Hrow']; subst. specialize (IH Hrow').
    cbn [flat_map fst snd].
    assert (Hfresh : ~ In (k, d)
              (flat_map (fun e0 : node * option path =>
                 match snd e0 with
                 | Some (n :: p) =>
                     if uses_link u v (n :: p) then [(k, fst e0)] else []
                 | _ => []
                 end) row)).
    { intros Hin. apply in_flat_map in Hin as ([d' e'] & He' & Hin).
      cbn [fst snd] in Hin. destruct e' as [[|n p]|]; try contradiction.
      destruct (uses_link u v (n :: p)); [|contradiction].
      destruct Hin as [E|[]]. injection E as ->.
      apply Hd. change d with (fst (d, Some (n :: p))). now apply in_map. }
    destruct e as [[|n p]|]; try exact IH.
    destruct (uses_link u v (n :: p)); [|exact IH].
    constructor; assumption.
  - apply IH; [exact Hrows'|]. intros n r Hin. apply (Hcols' n). now right.
  - intros [a b] Hin Hin'. apply Hhits in Hin as [E _]. cbn [fst] in E. subst a.
    apply In_affected_raw in Hin' as (r' & _ & _ & Hr' & _).
    apply Hk. change k with (fst (k, r')). now apply in_map.
Qed.

(** *** The shape of the flow tables *)

Lemma assign_flow_shape a b e ft ft' :
  assign_flow a b e ft = Some ft' -> table_shape ft -> table_shape ft'.
Proof.
  unfold assign_flow. destruct (OD.get a ft) as [row|] eqn:Hrow; [|discriminate].
  intros [= <-] [Hrows Hcols]. split.
  - now apply NoDup_keys_set.
  - intros n r. rewrite get_set. destruct (keqb n a).
    + intros [= <-]. apply NoDup_keys_set. now apply (Hcols a).
    + apply Hcols.
Qed.

Lemma assign_flow_between a b e ft ft' (N : list node) :
  assign_flow a b e ft = Some ft' ->
  In a N -> In b N -> a <> b ->
  entries_between N ft -> entries_between N ft'.
Proof.
  intros Ha Hna Hnb Hne Hft src dst x.
  rewrite (flow_entry_assign a b e ft ft' src dst Ha).
  destruct (keqb_spec (src, dst) (a, b)) as [E|_].
  - injection E as -> ->. auto.
  - apply Hft.
Qed.

Lemma reroute_flow_tables a b s :
  flow_tables (state_of (reroute (a, b) s)) = flow_tables s \/
  exists e, assign_flow a b e (flow_tables s)
            = Some (flow_tables (state_of (reroute (a, b) s))).
Proof.
  unfold reroute.
  destruct (OD.get (a, b) (backup_paths s)) as [[|backup rest]|].
  1,3: destruct (assign_flow a b None (flow_tables s)) as [ft|] eqn:E;
    [right; exists None; rewrite E; reflexivity|now left].
  cbn [flow_tables set_backup_paths].
  destruct (assign_flow a b (Some backup) (flow_tables s)) as [ft|] eqn:E;
    [|now left].
  right. exists (Some backup). rewrite E.
  match goal with |- context [bump_utilization ?o ?p ?s0] =>
    destruct (bump_utilization_fields o p s0) as (_ & Hf & _) end.
  now rewrite Hf.
Qed.

Lemma compute_step_flow_tables a b s :
  flow_tables (state_of (_compute_path_with_priority a b s)) = flow_tables s \/
  exists e, assign_flow a b e (flow_tables s)
            = Some (flow_tables (state_of (_compute_path_with_priority a b s))).
Proof.
  rewrite compute_step_plan. destruct (plan s a b) as [pl|x]; [|now left].
  unfold apply_plan.
  destruct (assign_flow a b (fst pl) (flow_tables s)) as [ft|] eqn:E; [|now left].
  right. exists (fst pl). rewrite E. cbn [state_of].
  now rewrite (proj2 (proj2 (proj2 (write_backup_fields a b (snd pl) _)))).
Qed.

Lemma nodes_add_edge u v e G n :
  In n (nx.nodes G) -> In n (nx.nodes (nx.add_edge u v e G)).
Proof.
  intros Hn. unfold nx.add_edge, nx.nodes. cbv zeta.
  apply In_keys_set. right. apply In_keys_set. right.
  unfold nx.add_node.
  destruct (OD.mem u G);
    destruct (OD.mem v _); auto; repeat (apply In_keys_set; right); auto.
Qed.

Lemma nodes_remove_edge u v G n :
  In n (nx.nodes G) -> In n (nx.nodes (nx.remove_edge u v G)).
Proof.
  intros Hn. unfold nx.remove_edge, nx.nodes. cbv zeta.
  destruct (keqb u v); repeat (apply In_keys_set; right); auto.
Qed.

Lemma inject_flow_fields src dst ty s :
  let s' := state_of (inject_flow src dst ty s) in
  topology s' = topology s /\ flow_tables s' = flow_tables s /\
  (forall k, OD.mem k (link_utilization s') = OD.mem k (link_utilization s)) /\
  (forall k x, OD.get k (link_utilization s) = Some x ->
               exists y, OD.get k (link_utilization s') = Some y /\ x <= y).
Proof.
  unfold inject_flow. cbn [flow_tables set_traffic].
  destruct (flow_entry (flow_tables s) src dst) as [[[|n p]|]|]; cbv zeta.
  2: { match goal with |- context [bump_utilization ?o ?p ?s0] =>
         destruct (bump_utilization_fields o p s0) as (Ht & Hf & _ & _ & Hlu) end.
       rewrite Ht, Hf, Hlu. cbn [topology flow_tables link_utilization set_traffic].
       split; [reflexivity|]. split; [reflexivity|]. split.
       - intros k. apply bump_mem.
       - intros k x Hk. exact (bump_grows _ _ k x Hk). }
  all: cbn; repeat (split; [reflexivity|]);
    intros k x Hk; exists x; split; [exact Hk|lia].
Qed.

Lemma grown_nonneg (lu lu' : OD.t (node * node) Z) :
  (forall k, OD.mem k lu' = OD.mem k lu) ->
  (forall k x, OD.get k lu = Some x ->
               exists y, OD.get k lu' = Some y /\ x <= y) ->
  (forall k x, OD.get k lu = Some x -> 0 <= x) ->
  forall k x, OD.get k lu' = Some x -> 0 <= x.
Proof.
  intros Hm Hg Hn k x Hk. specialize (Hm k). unfold OD.mem in Hm.
  rewrite Hk in Hm. destruct (OD.get k lu) as [x0|] eqn:Hk0; [|discriminate].
  destruct (Hg k x0 Hk0) as (y & Hy & Hle). rewrite Hk in Hy.
  injection Hy as ->. specialize (Hn k x0 Hk0). lia.
Qed.

Lemma nonneg_exec c s :
  paired (link_utilization s) ->
  (forall k x, OD.get k (link_utilization s) = Some x -> 0 <= x) ->
  forall k x,
    OD.get k (link_utilization (state_of (exec c s))) = Some x -> 0 <= x.
Proof.
  intros [Hnd _] Hn. destruct c as [ns|u v w c|u v|src dst ty| |]; cbn [exec].
  - destruct (add_node_fields ns s) as (Hl & _). now rewrite Hl.
  - cbn. intros k x. rewrite !get_set.
    destruct (keqb k (v, u)); [intros [= <-]; lia|].
    destruct (keqb k (u, v)); [intros [= <-]; lia|]. apply Hn.
  - unfold remove_link. destruct (nx.has_edge u v (topology s)); [|exact Hn].
    unfold _handle_link_failure.
    match goal with |- context [for_each ?l reroute ?s0] =>
      destruct (failure_loop_fields l s0) as (_ & _ & Hm & Hg) end.
    apply (grown_nonneg _ _ Hm Hg). cbn. intros k x.
    rewrite !get_pop by (try apply NoDup_keys_pop; exact Hnd).
    destruct (keqb k (v, u)); [discriminate|].
    destruct (keqb k (u, v)); [discriminate|]. apply Hn.
  - destruct (inject_flow_fields src dst ty s) as (_ & _ & Hm & Hg).
    now apply (grown_nonneg _ _ Hm Hg).
  - destruct (compute_paths_fields s) as [_ Hl]. now rewrite Hl.
  - now rewrite show_utilization_state.
Qed.

Lemma tables_exec c s :
  table_shape (flow_tables s) ->
  entries_between (nx.nodes (topology s)) (flow_tables s) ->
  let s' := state_of (exec c s) in
  table_shape (flow_tables s') /\
  entries_between (nx.nodes (topology s')) (flow_tables s').
Proof.
  intros Hsh Hpairs. destruct c as [ns|u v w c|u v|src dst ty| |]; cbn [exec].
  - unfold add_node.
    apply (for_each_invariant
             (fun s' => table_shape (flow_tables s') /\
                entries_between (nx.nodes (topology s')) (flow_tables s')));
      [|now split].
    intros n s0 [[Hrows Hcols] Hb]. cbn. split; [split|].
    + now apply NoDup_keys_set.
    + intros m row. rewrite get_set. destruct (keqb m n).
      * intros [= <-]. constructor.
      * apply Hcols.
    + intros src dst e. unfold flow_entry. rewrite get_set.
      destruct (keqb src n); [discriminate|]. intros He.
      destruct (Hb src dst e He) as (Hs & Hd & Hne).
      assert (Hmono : forall m, In m (nx.nodes (topology s0)) ->
                                In m (nx.nodes (nx.add_node n (topology s0)))).
      { intros m Hm. unfold nx.add_node, nx.nodes in *.
        destruct (OD.mem n (topology s0)); [exact Hm|].
        apply In_keys_set. now right. }
      auto.
  - cbn. split; [exact Hsh|]. intros src dst e He.
    destruct (Hpairs src dst e He) as (Hs & Hd & Hne).
    auto using nodes_add_edge.
  - unfold remove_link. destruct (nx.has_edge u v (topology s)); [|now split].
    unfold _handle_link_failure. cbn [flow_tables set_link_utilization set_topology].
    match goal with |- context [for_each ?l reroute ?s0] =>
      destruct (failure_loop_fields l s0) as (Ht & _);
      rewrite Ht; cbn [topology set_link_utilization set_topology];
      apply (for_each_invariant_in
               (fun s' => table_shape (flow_tables s') /\
                  entries_between (nx.nodes (nx.remove_edge u v (topology s)))
                                  (flow_tables s')) l reroute)
    end.
    + intros [a b] s0 Hin [Hsh0 Hb0].
      apply (In_affected_flows u v _ a b Hsh) in Hin as (n & p & He & _).
      destruct (Hpairs a b _ He) as (Ha & Hb & Hne).
      destruct (reroute_flow_tables a b s0) as [->|[e Hft]]; [now split|].
      split; [exact (assign_flow_shape _ _ _ _ _ Hft Hsh0)|].
      apply (assign_flow_between a b e _ _ _ Hft); auto using nodes_remove_edge.
    + cbn. split; [exact Hsh|]. intros src dst e He.
      destruct (Hpairs src dst e He) as (Hs & Hd & Hne).
      auto using nodes_remove_edge.
  - destruct (inject_flow_fields src dst ty s) as (Ht & Hf & _).
    rewrite Ht, Hf. now split.
  - destruct (compute_paths_fields s) as [Ht _]. rewrite Ht.
    unfold compute_paths.
    apply (for_each_invariant_in
             (fun s' => table_shape (flow_tables s') /\
                entries_between (nx.nodes (topology s)) (flow_tables s')));
      [|now split].
    intros [a b] s0 Hin [Hsh0 Hb0]. cbn [fst snd].
    apply In_ordered_pairs in Hin as (Ha & Hb & Hne).
    destruct (compute_step_flow_tables a b s0) as [->|[e Hft]]; [now split|].
    split; [exact (assign_flow_shape _ _ _ _ _ Hft Hsh0)|].
    now apply (assign_flow_between a b e _ _ _ Hft).
  - rewrite show_utilization_state. now split.
Qed.

Lemma consistent_init : consistent init.
Proof.
  constructor.
  - constructor; [constructor|discriminate|reflexivity].
  - split; [constructor|reflexivity].
  - intros u v. reflexivity.
  - discriminate.
  - split; [constructor|discriminate].
  - intros src dst e. discriminate.
Qed.

Lemma consistent_exec c s : consistent s -> consistent (state_of (exec c s)).
Proof.
  intros [Hwf Hp Hc Hn Hsh Hb].
  destruct (tables_exec c s Hsh Hb) as [Hsh' Hb'].
  constructor; auto using exec_keeps_well_formed, paired_exec, counted_exec.
  now apply nonneg_exec.
Qed.

Lemma reachable_consistent s : reachable s -> consistent s.
Proof.
  induction 1; [apply consistent_init|now apply consistent_exec].
Qed.

(** ** The failure handler, pair by pair *)

Lemma assign_flow_mem a b e ft ft' n :
  assign_flow a b e ft = Some ft' -> OD.mem n ft' = OD.mem n ft.
Proof.
  unfold assign_flow. destruct (OD.get a ft) as [row|] eqn:Hrow; [|discriminate].
  intros [= <-]. now apply (mem_set_present a n _ row).
Qed.

Lemma reroute_frame a b s src dst :
  (src, dst) <> (a, b) ->
  let s' := state_of (reroute (a, b) s) in
  flow_entry (flow_tables s') src dst = flow_entry (flow_tables s) src dst /\
  OD.get (src, dst) (backup_paths s') = OD.get (src, dst) (backup_paths s).
Proof.
  intros Hne. cbv zeta. split.
  - destruct (reroute_flow_tables a b s) as [->|[e Hft]]; [reflexivity|].
    rewrite (flow_entry_assign a b e _ _ src dst Hft). now rewrite keqb_neq.
  - unfold reroute.
    destruct (OD.get (a, b) (backup_paths s)) as [[|backup rest]|].
    1,3: now destruct (assign_flow a b None (flow_tables s)).
    cbn [flow_tables set_backup_paths].
    destruct (assign_flow a b (Some backup) (flow_tables s)) as [ft|].
    + match goal with |- context [bump_utilization ?o ?p ?s0] =>
        destruct (bump_utilization_fields o p s0) as (_ & _ & _ & Hb & _) end.
      rewrite Hb. cbn. apply get_set_other. congruence.
    + cbn. apply get_set_other. congruence.
Qed.

Lemma failure_loop_frame l s src dst :
  ~ In (src, dst) l ->
  let s' := state_of (for_each l reroute s) in
  flow_entry (flow_tables s') src dst = flow_entry (flow_tables s) src dst /\
  OD.get (src, dst) (backup_paths s') = OD.get (src, dst) (backup_paths s).
Proof.
  intros Hnin.
  apply (for_each_invariant_in
           (fun s' => flow_entry (flow_tables s') src dst
                      = flow_entry (flow_tables s) src dst /\
                      OD.get (src, dst) (backup_paths s')
                      = OD.get (src, dst) (backup_paths s))); [|now split].
  intros [a b] s0 Hin [Hf Hb].
  assert (Hne : (src, dst) <> (a, b)) by (intros E; apply Hnin; now rewrite E).
  destruct (reroute_frame a b s0 src dst Hne) as [Hf' Hb']. split; congruence.
Qed.

Lemma reroute_done a b s o s' :
  reroute (a, b) s = Done o s' ->
  (forall src dst,
      flow_entry (flow_tables s') src dst
      = if keqb (src, dst) (a, b)
        then Some (next_route (OD.get (a, b) (backup_paths s)))
        else flow_entry (flow_tables s) src dst) /\
  (forall k,
      OD.get k (backup_paths s')
      = if keqb k (a, b)
        then rest_backups (OD.get (a, b) (backup_paths s))
        else OD.get k (backup_paths s)) /\
  (forall b0 rest,
      OD.get (a, b) (backup_paths s) = Some (b0 :: rest) ->
      hops_present (link_utilization s) b0 = true).
Proof.
  unfold reroute.
  destruct (OD.get (a, b) (backup_paths s)) as [[|backup rest]|] eqn:Hbk.
  1,3: destruct (assign_flow a b None (flow_tables s)) as [ft|] eqn:Hft;
    [|discriminate]; intros [= <- <-]; cbn; split;
    [intros src dst; apply (flow_entry_assign a b None _ _ src dst Hft)|];
    (split; [|discriminate]); intros k;
    destruct (keqb_spec k (a, b)) as [->|]; auto.
  cbn [flow_tables set_backup_paths].
  destruct (assign_flow a b (Some backup) (flow_tables s)) as [ft|] eqn:Hft;
    [|discriminate].
  rewrite bump_utilization_outcome. cbn [link_utilization set_flow_tables
    set_backup_paths].
  destruct (hops_present (link_utilization s) backup) eqn:Hp; [|discriminate].
  intros [= <- <-]. cbn. split; [|split].
  - intros src dst. apply (flow_entry_assign a b (Some backup) _ _ src dst Hft).
  - intros k. apply get_set.
  - intros b0 rest0 [= <- <-]. exact Hp.
Qed.

Lemma state_of_Done r o s : r = Done o s -> state_of r = s.
Proof. now intros ->. Qed.

Lemma failure_loop_done l : forall s o s',
  NoDup l -> for_each l reroute s = Done o s' ->
  forall src dst,
    In (src, dst) l ->
    flow_entry (flow_tables s') src dst
    = Some (next_route (OD.get (src, dst) (backup_paths s))) /\
    OD.get (src, dst) (backup_paths s')
    = rest_backups (OD.get (src, dst) (backup_paths s)) /\
    (forall b0 rest,
        OD.get (src, dst) (backup_paths s) = Some (b0 :: rest) ->
        hops_present (link_utilization s) b0 = true).
Proof.
  induction l as [|[a b] l IH]; intros s o s' Hnd Hrun src dst Hin; [destruct Hin|].
  inversion Hnd as [|? ? Hfresh Hnd']; subst.
  cbn [for_each] in Hrun.
  apply bind_Done_inv in Hrun as (o1 & s1 & o2 & Hstep & Hrest & _).
  destruct (reroute_done a b s o1 s1 Hstep) as (Hf & Hb & Hh).
  destruct (keqb_spec (src, dst) (a, b)) as [E|Hne].
  - injection E as -> ->.
    destruct (failure_loop_frame l s1 a b Hfresh) as [Hf' Hb'].
    rewrite (state_of_Done _ _ _ Hrest) in Hf', Hb'.
    rewrite Hf', Hb', Hf, Hb, keqb_refl. auto.
  - destruct Hin as [E|Hin]; [congruence|].
    destruct (IH s1 o2 s' Hnd' Hrest src dst Hin) as (Hf' & Hb' & Hh').
    rewrite Hb, keqb_neq in Hf', Hb', Hh' by exact Hne.
    split; [exact Hf'|]. split; [exact Hb'|].
    intros b0 rest Hbk. rewrite <- (Hh' b0 rest Hbk).
    symmetry. apply hops_present_ext.
    destruct (reroute_fields (a, b) s) as (_ & _ & Hm & _).
    rewrite Hstep in Hm. exact Hm.
Qed.

Lemma failure_loop_completes l : forall s,
  NoDup l ->
  (forall a b, In (a, b) l -> OD.mem a (flow_tables s) = true) ->
  (forall a b b0 rest,
      In (a, b) l -> OD.get (a, b) (backup_paths s) = Some (b0 :: rest) ->
      hops_present (link_utilization s) b0 = true) ->
  exists o s', for_each l reroute s = Done o s'.
Proof.
  induction l as [|[a b] l IH]; intros s Hnd Hrows Hhops.
  - exists [], s. reflexivity.
  - inversion Hnd as [|? ? Hfresh Hnd']; subst.
    assert (Hstep : exists o1 s1, reroute (a, b) s = Done o1 s1).
    { specialize (Hrows a b (or_introl eq_refl)). unfold OD.mem in Hrows.
      pose proof (Hhops a b) as Hh.
      unfold reroute, assign_flow.
      destruct (OD.get (a, b) (backup_paths s)) as [[|backup rest]|];
        cbn [flow_tables set_backup_paths];
        destruct (OD.get a (flow_tables s)) as [row|]; try discriminate;
        try (eexists; eexists; reflexivity).
      rewrite bump_utilization_outcome.
      cbn [link_utilization set_flow_tables set_backup_paths].
      rewrite (Hh backup rest (or_introl eq_refl) eq_refl).
      eexists; eexists; reflexivity. }
    destruct Hstep as (o1 & s1 & Hstep).
    destruct (reroute_done a b s o1 s1 Hstep) as (_ & Hb & _).
    destruct (reroute_fields (a, b) s) as (_ & _ & Hm & _).
    rewrite Hstep in Hm. cbn [state_of] in Hm.
    destruct (IH s1 Hnd') as (o2 & s' & Hrest).
    + intros a' b' Hin. rewrite <- (Hrows a' b' (or_intror Hin)).
      destruct (reroute_flow_tables a b s) as [E|[e Hft]];
        rewrite Hstep in *; cbn [state_of] in *.
      * now rewrite E.
      * apply (assign_flow_mem a b e _ _ a' Hft).
    + intros a' b' b0 rest Hin Hbk.
      assert (Hne : (a', b') <> (a, b)) by (intros E; apply Hfresh; now rewrite <- E).
      rewrite Hb, keqb_neq in Hbk by exact Hne.
      rewrite <- (Hhops a' b' b0 rest (or_intror Hin) Hbk).
      now apply hops_present_ext.
    + cbn [for_each]. rewrite Hstep. cbn [bind]. rewrite Hrest.
      eexists; eexists; reflexivity.
Qed.

Lemma uses_link_present u v p lu :
  uses_link u v p = true -> hops_present lu p = true ->
  OD.mem (u, v) lu = true.
Proof.
  induction p as [|a [|b rest] IH]; try discriminate.
  rewrite uses_link_cons, hops_present_cons. intros Hu Hp.
  apply andb_true_iff in Hp as [Hp Hrest]. apply andb_true_iff in Hp as [Hab Hba].
  apply orb_true_iff in Hu as [Hu|Hu]; [apply orb_true_iff in Hu as [Hu|Hu]|].
  - apply keqb_eq in Hu. now rewrite Hu.
  - apply keqb_eq in Hu. injection Hu as -> ->. exact Hba.
  - now apply IH.
Qed.

Lemma hops_present_walk G lu p :
  well_formed G ->
  (forall a b, OD.mem (a, b) lu = nx.has_edge a b G) ->
  hops_present lu p = true <-> walk G p.
Proof.
  intros HG Hc. induction p as [|a [|b rest] IH]; try (split; auto; reflexivity).
  rewrite hops_present_cons, !Hc. change (walk G (a :: b :: rest))
    with (linked G a b /\ walk G (b :: rest)).
  assert (Hsym : nx.has_edge b a G = nx.has_edge a b G)
    by (now rewrite !has_edge_data, (wf_sym _ HG)).
  rewrite Hsym, <- IH. unfold linked.
  destruct (nx.has_edge a b G); cbn [andb]; intuition discriminate.
Qed.

(** ** Invariants of the reachable states *)

(** X4 - [add_link], [remove_link], lines 28-38, and the counter loops, lines
    93-95 and 116-118: in every reachable state a directed counter exists
    exactly when the topology has the link. *)
Theorem counter_exists_iff_link s u v :
  reachable s ->
  OD.mem (u, v) (link_utilization s) = nx.has_edge u v (topology s).
Proof.
  intros Hr. apply (c_counted s (reachable_consistent s Hr)).
Qed.

Lemma counter_exists_iff_link_witness :
  let s := state_of (exec (RemoveLink "B" "A")
             (state_of (exec (AddLink "B" "C" 2 10)
               (state_of (exec (AddLink "A" "B" 1 10) init))))) in
  reachable s /\
  OD.mem ("A", "B") (link_utilization s) = nx.has_edge "A" "B" (topology s).
Proof.
  split.
  - repeat apply reach_exec. apply reach_init.
  - apply counter_exists_iff_link. repeat apply reach_exec. apply reach_init.
Defined.

(** X5 - [add_link], lines 30-31, and the counter loops, lines 93-95 and
    116-118: in every reachable state no counter is negative. *)
Theorem counters_never_negative s k x :
  reachable s -> OD.get k (link_utilization s) = Some x -> 0 <= x.
Proof.
  intros Hr. apply (c_nonneg s (reachable_consistent s Hr)).
Qed.

Lemma counters_never_negative_witness :
  let s := state_of (exec (InjectFlow "A" "B" "default")
             (state_of (exec ComputePaths
               (state_of (exec (AddLink "A" "B" 1 10)
                 (state_of (exec (AddNode ["A"; "B"]) init))))))) in
  reachable s /\ OD.get ("A", "B") (link_utilization s) = Some 1 /\ 0 <= 1.
Proof.
  split; [repeat apply reach_exec; apply reach_init|].
  split; [reflexivity|].
  apply (counters_never_negative
           (state_of (exec (InjectFlow "A" "B" "default")
             (state_of (exec ComputePaths
               (state_of (exec (AddLink "A" "B" 1 10)
                 (state_of (exec (AddNode ["A"; "B"]) init)))))))) ("A", "B") 1).
  - repeat apply reach_exec. apply reach_init.
  - reflexivity.
Defined.

(** X6 - [compute_paths], lines 40-44, [add_node], line 25, and the failure
    handler, lines 112-121: in every reachable state a flow-table entry, whether
    a path or [None], is for two different nodes of the topology. *)
Theorem flow_entries_join_distinct_nodes s src dst e :
  reachable s ->
  flow_entry (flow_tables s) src dst = Some e ->
  In src (nx.nodes (topology s)) /\ In dst (nx.nodes (topology s)) /\
  src <> dst.
Proof.
  intros Hr. apply (c_pairs s (reachable_consistent s Hr)).
Qed.

Lemma flow_entries_join_distinct_nodes_witness :
  let s := state_of (exec ComputePaths
             (state_of (exec (AddLink "A" "B" 1 10)
               (state_of (exec (AddNode ["A"; "B"]) init))))) in
  reachable s /\
  flow_entry (flow_tables s) "A" "B" = Some (Some ["A"; "B"]) /\
  In "A" (nx.nodes (topology s)) /\ In "B" (nx.nodes (topology s)) /\
  "A" <> "B".
Proof.
  split; [repeat apply reach_exec; apply reach_init|].
  split; [reflexivity|].
  apply (flow_entries_join_distinct_nodes
           (state_of (exec ComputePaths
             (state_of (exec (AddLink "A" "B" 1 10)
               (state_of (exec (AddNode ["A"; "B"]) init))))))
           "A" "B" (Some ["A"; "B"])).
  - repeat apply reach_exec. apply reach_init.
  - reflexivity.
Defined.

(** ** Removing a link *)

Lemma remove_link_consistent u v s :
  consistent s -> consistent (state_of (remove_link u v s)).
Proof. apply (consistent_exec (RemoveLink u v)). Qed.

Lemma remove_link_no_edge u v s :
  consistent s ->
  let s' := state_of (remove_link u v s) in
  nx.has_edge u v (topology s') = false /\
  nx.has_edge v u (topology s') = false.
Proof.
  intros Hs. cbv zeta.
  assert (Huv : nx.has_edge u v (topology (state_of (remove_link u v s))) = false).
  { unfold remove_link.
    destruct (nx.has_edge u v (topology s)) eqn:E; [|exact E].
    unfold _handle_link_failure.
    match goal with |- context [for_each ?l reroute ?s0] =>
      destruct (failure_loop_fields l s0) as (Ht & _) end.
    rewrite Ht. cbn. rewrite has_edge_data, edge_data_remove_edge
      by (exact (wf_adj _ (c_wf s Hs))).
    now rewrite !keqb_refl. }
  split; [exact Huv|].
  pose proof (c_wf _ (remove_link_consistent u v s Hs)) as Hwf.
  rewrite has_edge_data in *. now rewrite (wf_sym _ Hwf).
Qed.

Lemma remove_link_absent u v s :
  nx.has_edge u v (topology s) = false -> remove_link u v s = Done [] s.
Proof. intros H. unfold remove_link. now rewrite H. Qed.

(** X7 - [remove_link], lines 33-38: from a reachable state, however the call
    ends, the link is gone in both directions and so are its two counters, and
    every other link keeps its data. *)
Theorem remove_link_detaches s u v :
  reachable s ->
  let s' := state_of (remove_link u v s) in
  nx.has_edge u v (topology s') = false /\
  nx.has_edge v u (topology s') = false /\
  OD.get (u, v) (link_utilization s') = None /\
  OD.get (v, u) (link_utilization s') = None /\
  forall a b, (a, b) <> (u, v) -> (a, b) <> (v, u) ->
    nx.edge_data (topology s') a b = nx.edge_data (topology s) a b.
Proof.
  intros Hr. pose proof (reachable_consistent s Hr) as Hs. cbv zeta.
  destruct (remove_link_no_edge u v s Hs) as [Huv Hvu].
  pose proof (c_counted _ (remove_link_consistent u v s Hs)) as Hc.
  split; [exact Huv|]. split; [exact Hvu|].
  pose proof (Hc u v) as Hcu. pose proof (Hc v u) as Hcv.
  rewrite Huv in Hcu. rewrite Hvu in Hcv. unfold OD.mem in Hcu, Hcv.
  split; [now destruct (OD.get (u, v) _)|].
  split; [now destruct (OD.get (v, u) _)|].
  intros a b Hne Hne'. unfold remove_link.
  destruct (nx.has_edge u v (topology s)); [|reflexivity].
  unfold _handle_link_failure.
  match goal with |- context [for_each ?l reroute ?s0] =>
    destruct (failure_loop_fields l s0) as (Ht & _) end.
  rewrite Ht. cbn. rewrite edge_data_remove_edge
    by (exact (wf_adj _ (c_wf s Hs))).
  rewrite <- !keqb_pair, !keqb_neq; auto.
Qed.

Lemma remove_link_detaches_witness :
  let s := state_of (exec (AddLink "B" "C" 2 10)
             (state_of (exec (AddLink "A" "B" 1 10) init))) in
  let s' := state_of (remove_link "A" "B" s) in
  reachable s /\
  nx.has_edge "B" "A" (topology s') = false /\
  OD.get ("B", "A") (link_utilization s') = None.
Proof.
  split; [repeat apply reach_exec; apply reach_init|].
  destruct (remove_link_detaches
              (state_of (exec (AddLink "B" "C" 2 10)
                 (state_of (exec (AddLink "A" "B" 1 10) init)))) "A" "B")
    as (_ & H1 & _ & H2 & _).
  - repeat apply reach_exec. apply reach_init.
  - split; [exact H1|exact H2].
Defined.

(** X8 - [remove_link], lines 33-38: removing the same link again, in either
    direction, does nothing. *)
Theorem remove_link_twice s u v :
  reachable s ->
  let s' := state_of (remove_link u v s) in
  remove_link u v s' = Done [] s' /\ remove_link v u s' = Done [] s'.
Proof.
  intros Hr. cbv zeta.
  destruct (remove_link_no_edge u v s (reachable_consistent s Hr)) as [Huv Hvu].
  split; now apply remove_link_absent.
Qed.

Lemma remove_link_twice_witness :
  let s := state_of (exec (AddLink "B" "C" 2 10)
             (state_of (exec (AddLink "A" "B" 1 10) init))) in
  let s' := state_of (remove_link "A" "B" s) in
  reachable s /\ remove_link "B" "A" s' = Done [] s'.
Proof.
  split; [repeat apply reach_exec; apply reach_init|].
  apply (proj2 (remove_link_twice
           (state_of (exec (AddLink "B" "C" 2 10)
              (state_of (exec (AddLink "A" "B" 1 10) init)))) "A" "B"
           (reach_exec _ _ (reach_exec _ _ reach_init)))).
Defined.

(** X9 - [remove_link] and [_handle_link_failure], lines 33-38 and 101-121: a
    pair whose installed path does not go over the link keeps its entry and its
    backups, however the call ends. *)
Theorem remove_link_spares_other_flows s u v src dst :
  reachable s ->
  (forall p, flow_entry (flow_tables s) src dst = Some (Some p) ->
             uses_link u v p = false) ->
  let s' := state_of (remove_link u v s) in
  flow_entry (flow_tables s') src dst = flow_entry (flow_tables s) src dst /\
  OD.get (src, dst) (backup_paths s') = OD.get (src, dst) (backup_paths s).
Proof.
  intros Hr Hfree. pose proof (reachable_consistent s Hr) as Hs. cbv zeta.
  unfold remove_link. destruct (nx.has_edge u v (topology s)); [|now split].
  unfold _handle_link_failure.
  cbn [flow_tables set_link_utilization set_topology].
  match goal with |- context [for_each ?l reroute ?s0] =>
    apply (failure_loop_frame l s0 src dst) end.
  intros Hin. apply (In_affected_flows u v _ src dst (c_shape s Hs)) in Hin
    as (n & p & He & Hu).
  rewrite (Hfree _ He) in Hu. discriminate.
Qed.

Lemma remove_link_spares_other_flows_witness :
  let s' := state_of (remove_link "A" "B" triangle) in
  reachable triangle /\
  flow_entry (flow_tables s') "C" "B" = flow_entry (flow_tables triangle) "C" "B" /\
  OD.get ("C", "B") (backup_paths s') = OD.get ("C", "B") (backup_paths triangle).
Proof.
  split; [unfold triangle; repeat apply reach_exec; apply reach_init|].
  apply (remove_link_spares_other_flows triangle "A" "B" "C" "B").
  - unfold triangle. repeat apply reach_exec. apply reach_init.
  - intros p Hp. vm_compute in Hp. injection Hp as <-. reflexivity.
Defined.

(** X10 - [_handle_link_failure], lines 110-121: when the removal returns, every
    pair whose installed path went over the link has its first backup installed
    and taken off the backup list, or [None] installed when it had no backup
    left. *)
Theorem remove_link_reroutes s u v o s' src dst p :
  reachable s ->
  nx.has_edge u v (topology s) = true ->
  remove_link u v s = Done o s' ->
  flow_entry (flow_tables s) src dst = Some (Some p) ->
  uses_link u v p = true ->
  flow_entry (flow_tables s') src dst
  = Some (next_route (OD.get (src, dst) (backup_paths s))) /\
  OD.get (src, dst) (backup_paths s')
  = rest_backups (OD.get (src, dst) (backup_paths s)).
Proof.
  intros Hr He Hrun Hp Hu. pose proof (reachable_consistent s Hr) as Hs.
  unfold remove_link in Hrun. rewrite He in Hrun.
  unfold _handle_link_failure in Hrun.
  cbn [flow_tables set_link_utilization set_topology] in Hrun.
  assert (Hin : In (src, dst) (affected_flows u v (flow_tables s))).
  { apply (In_affected_flows u v _ src dst (c_shape s Hs)).
    destruct p as [|n p]; [discriminate|]. now exists n, p. }
  destruct (failure_loop_done _ _ _ _
              (NoDup_affected_flows u v _ (c_shape s Hs)) Hrun src dst Hin)
    as (Hf & Hb & _).
  split; [exact Hf|exact Hb].
Qed.

Lemma remove_link_reroutes_witness :
  let s' := state_of (remove_link "A" "B" triangle) in
  reachable triangle /\
  flow_entry (flow_tables s') "A" "C"
  = Some (next_route (OD.get ("A", "C") (backup_paths triangle))) /\
  OD.get ("A", "C") (backup_paths s')
  = rest_backups (OD.get ("A", "C") (backup_paths triangle)).
Proof.
  split; [unfold triangle; repeat apply reach_exec; apply reach_init|].
  apply (remove_link_reroutes triangle "A" "B"
           [Rerouted "A" "B" ["A"; "C"; "B"]; Rerouted "A" "C" ["A"; "C"];
            Rerouted "B" "A" ["B"; "C"; "A"]; Rerouted "B" "C" ["B"; "C"];
            Rerouted "C" "A" ["C"; "A"]]
           (state_of (remove_link "A" "B" triangle))
           "A" "C" ["A"; "B"; "C"]).
  - unfold triangle. repeat apply reach_exec. apply reach_init.
  - vm_compute. reflexivity.
  - vm_compute. reflexivity.
  - vm_compute. reflexivity.
  - vm_compute. reflexivity.
Defined.

(** X11 - [remove_link] and [_handle_link_failure], lines 33-38 and 110-118:
    from a reachable state the removal of an existing link returns exactly when
    every backup it has to install is still a walk of the remaining topology; a
    backup over a link that is gone stops it with [KeyError]. *)
Theorem remove_link_returns_iff s u v :
  reachable s ->
  nx.has_edge u v (topology s) = true ->
  (exists o s', remove_link u v s = Done o s') <->
  (forall src dst p b0 rest,
      flow_entry (flow_tables s) src dst = Some (Some p) ->
      uses_link u v p = true ->
      OD.get (src, dst) (backup_paths s) = Some (b0 :: rest) ->
      walk (nx.remove_edge u v (topology s)) b0).
Proof.
  intros Hr He. pose proof (reachable_consistent s Hr) as Hs.
  pose proof (NoDup_affected_flows u v _ (c_shape s Hs)) as Hnd.
  pose proof (hops_present_walk (nx.remove_edge u v (topology s))
                (OD.pop (v, u) (OD.pop (u, v) (link_utilization s))))
    as Hwalk.
  assert (Hc : forall a b,
             OD.mem (a, b) (OD.pop (v, u) (OD.pop (u, v) (link_utilization s)))
             = nx.has_edge a b (nx.remove_edge u v (topology s)))
    by (apply counted_remove; [apply Hs|apply Hs|apply (c_counted s Hs)]).
  pose proof (wf_remove_edge u v _ (c_wf s Hs)) as Hwf.
  unfold remove_link. rewrite He. unfold _handle_link_failure.
  cbn [flow_tables set_link_utilization set_topology]. split.
  - intros (o & s' & Hrun) src dst p b0 rest Hp Hu Hbk.
    assert (Hin : In (src, dst) (affected_flows u v (flow_tables s))).
    { apply (In_affected_flows u v _ src dst (c_shape s Hs)).
      destruct p as [|n p]; [discriminate|]. now exists n, p. }
    destruct (failure_loop_done _ _ _ _ Hnd Hrun src dst Hin) as (_ & _ & Hh).
    apply (Hwalk b0 Hwf Hc). exact (Hh b0 rest Hbk).
  - intros Hall. apply failure_loop_completes; [exact Hnd| |].
    + intros a b Hin.
      apply (In_affected_flows u v _ a b (c_shape s Hs)) in Hin
        as (n & p & Hp & _).
      cbn. unfold flow_entry in Hp. unfold OD.mem.
      now destruct (OD.get a (flow_tables s)).
    + intros a b b0 rest Hin Hbk.
      apply (In_affected_flows u v _ a b (c_shape s Hs)) in Hin
        as (n & p & Hp & Hu).
      apply (Hwalk b0 Hwf Hc). exact (Hall a b _ b0 rest Hp Hu Hbk).
Qed.

Lemma remove_link_returns_iff_witness :
  reachable triangle /\
  ((exists o s', remove_link "A" "B" triangle = Done o s') <->
   (forall src dst p b0 rest,
       flow_entry (flow_tables triangle) src dst = Some (Some p) ->
       uses_link "A" "B" p = true ->
       OD.get (src, dst) (backup_paths triangle) = Some (b0 :: rest) ->
       walk (nx.remove_edge "A" "B" (topology triangle)) b0)).
Proof.
  split; [unfold triangle; repeat apply reach_exec; apply reach_init|].
  apply (remove_link_returns_iff triangle "A" "B").
  - unfold triangle. repeat apply reach_exec. apply reach_init.
  - vm_compute. reflexivity.
Defined.

(** X12 - [remove_link] and [_handle_link_failure], lines 33-38 and 101-121:
    when the removal of an existing link returns, no installed path goes over
    that link any more. *)
Theorem remove_link_clears_link s u v o s' src dst p :
  reachable s ->
  nx.has_edge u v (topology s) = true ->
  remove_link u v s = Done o s' ->
  flow_entry (flow_tables s') src dst = Some (Some p) ->
  uses_link u v p = false.
Proof.
  intros Hr He Hrun Hp. pose proof (reachable_consistent s Hr) as Hs.
  pose proof (NoDup_affected_flows u v _ (c_shape s Hs)) as Hnd.
  unfold remove_link in Hrun. rewrite He in Hrun.
  unfold _handle_link_failure in Hrun.
  cbn [flow_tables set_link_utilization set_topology] in Hrun.
  destruct (in_dec (fun x y : node * node =>
                      match keqb_spec x y with
                      | ReflectT _ E => left E
                      | ReflectF _ N => right N
                      end)
              (src, dst) (affected_flows u v (flow_tables s))) as [Hin|Hnin].
  - destruct (failure_loop_done _ _ _ _ Hnd Hrun src dst Hin) as (Hf & _ & Hh).
    rewrite Hf in Hp. injection Hp as Hp. cbn in Hh.
    destruct (OD.get (src, dst) (backup_paths s)) as [[|b0 rest]|];
      try discriminate.
    cbn in Hp. injection Hp as ->. specialize (Hh p rest eq_refl).
    destruct (uses_link u v p) eqn:Hu; [|reflexivity].
    pose proof (uses_link_present u v p _ Hu Hh) as Hm.
    unfold OD.mem in Hm.
    rewrite get_pop_other, get_pop_same in Hm; try discriminate.
    + apply (c_paired s Hs).
    + intros E. injection E as -> _.
      rewrite get_pop_same in Hm; [discriminate|].
      apply NoDup_keys_pop, (c_paired s Hs).
  - match type of Hrun with for_each ?l reroute ?s0 = _ =>
      destruct (failure_loop_frame l s0 src dst Hnin) as [Hf _] end.
    rewrite (state_of_Done _ _ _ Hrun) in Hf. cbn in Hf. rewrite Hf in Hp.
    destruct (uses_link u v p) eqn:Hu; [|reflexivity].
    exfalso. apply Hnin.
    apply (In_affected_flows u v _ src dst (c_shape s Hs)).
    destruct p as [|n p]; [discriminate|]. now exists n, p.
Qed.

Lemma remove_link_clears_link_witness :
  reachable triangle /\ uses_link "A" "B" ["A"; "C"; "B"] = false.
Proof.
  split; [unfold triangle; repeat apply reach_exec; apply reach_init|].
  apply (remove_link_clears_link triangle "A" "B"
           [Rerouted "A" "B" ["A"; "C"; "B"]; Rerouted "A" "C" ["A"; "C"];
            Rerouted "B" "A" ["B"; "C"; "A"]; Rerouted "B" "C" ["B"; "C"];
            Rerouted "C" "A" ["C"; "A"]]
           (state_of (remove_link "A" "B" triangle))
           "A" "B" ["A"; "C"; "B"]).
  - unfold triangle. repeat apply reach_exec. apply reach_init.
  - vm_compute. reflexivity.
  - vm_compute. reflexivity.
  - vm_compute. reflexivity.
Defined.

(** ** What [compute_paths] decides and what it leaves alone *)

Lemma path_eqb_eq p q : path_eqb p q = true <-> p = q.
Proof.
  unfold path_eqb. destruct (list_eq_dec string_dec p q); split; congruence.
Qed.

Lemma plan_valid s a b e bk :
  well_formed (topology s) -> nonnegative (topology s) ->
  In a (nx.nodes (topology s)) -> In b (nx.nodes (topology s)) -> a <> b ->
  plan s a b = Ok (e, bk) ->
  (forall p, e = Some p -> walk (topology s) p /\ joins p a b) /\
  (forall l, bk = Some l ->
     exists p, e = Some p /\
       forall q, In q l <-> simple_path (topology s) a b q /\ q <> p).
Proof.
  intros Hwf Hnn Ha Hb Hne. unfold plan.
  destruct (nx.all_simple_paths (topology s) a b) as [|p0 ps] eqn:Hall.
  { intros [= <- <-]. split; intros ? [=]. }
  assert (Hp0 : simple_path (topology s) a b p0).
  { apply all_simple_paths_sound. rewrite Hall. now left. }
  assert (Hchosen : exists p,
             (if priority_for a b s =? critical
              then nx.shortest_path (topology s) a b
              else _select_load_balanced_path (link_utilization s) (p0 :: ps))
             = Ok p /\ walk (topology s) p /\ joins p a b).
  { destruct (priority_for a b s =? critical).
    - destruct (shortest_path_found (topology s) Hwf Hnn a b
                  (nodes_mem _ _ Ha) (nodes_mem _ _ Hb) Hne)
        as (p & Hp & Hw & Hj & _).
      { exists p0. now apply simple_path_walk. }
      exists p. auto.
    - destruct (select_load_balanced_nonempty (link_utilization s) p0 ps)
        as [p Hp].
      exists p. split; [exact Hp|]. apply simple_path_walk.
      apply all_simple_paths_sound. rewrite Hall.
      apply select_load_balanced_spec in Hp as (before & after & -> & _).
      apply in_elt. }
  destruct Hchosen as (p & -> & Hw & Hj).
  remember (p0 :: ps) as paths eqn:Hpaths.
  intros Hok. injection Hok as <- <-. split.
  - intros p' [= <-]. now split.
  - intros l Hl. exists p. split; [reflexivity|]. revert Hl.
    destruct (1 <? List.length paths)%nat; [|discriminate].
    intros Hl. injection Hl as <-. intros q.
    rewrite filter_In, <- Hall, negb_true_iff.
    split.
    + intros [Hin Hq]. split; [now apply all_simple_paths_sound|].
      intros ->. rewrite (proj2 (path_eqb_eq p p) eq_refl) in Hq. discriminate.
    + intros [Hq Hqp]. split; [now apply all_simple_paths_complete|].
      destruct (path_eqb q p) eqn:E; [|reflexivity].
      now apply path_eqb_eq in E.
Qed.

Lemma compute_step_same_inputs a b s :
  same_inputs s (state_of (_compute_path_with_priority a b s)).
Proof.
  destruct (_compute_path_with_priority a b s) as [o s1|o x s1] eqn:E.
  - now apply compute_step_done in E as (_ & H & _).
  - apply compute_step_raised in E as (_ & ->). apply same_inputs_refl.
Qed.

Lemma compute_paths_same_inputs s : same_inputs s (state_of (compute_paths s)).
Proof.
  unfold compute_paths.
  apply (for_each_invariant (fun s' => same_inputs s s'));
    [|apply same_inputs_refl].
  intros sd s0 H. apply (same_inputs_trans _ _ _ H).
  apply compute_step_same_inputs.
Qed.

(** X13 - [compute_paths], lines 40-73: however it ends, the computation leaves
    the topology, the traffic descriptors and the counters as they were, and
    gives no node a flow table nor takes one away. *)
Theorem compute_paths_frame s :
  let s' := state_of (compute_paths s) in
  topology s' = topology s /\ traffic s' = traffic s /\
  link_utilization s' = link_utilization s /\
  forall n, OD.mem n (flow_tables s') = OD.mem n (flow_tables s).
Proof.
  unfold compute_paths.
  apply (for_each_invariant
           (fun s' => topology s' = topology s /\ traffic s' = traffic s /\
              link_utilization s' = link_utilization s /\
              forall n, OD.mem n (flow_tables s') = OD.mem n (flow_tables s))).
  - intros [a b] s0 (Ht & Htr & Hl & Hm). cbn [fst snd].
    destruct (compute_step_same_inputs a b s0) as (Ht' & Htr' & Hl' & Hm').
    split; [congruence|]. split; [congruence|]. split; [congruence|].
    intros n. now rewrite Hm'.
  - repeat split.
Qed.

Lemma two_members {A} (x y : A) l :
  In x l -> In y l -> x <> y -> (1 < List.length l)%nat.
Proof.
  destruct l as [|a [|b l]]; simpl; try lia; intuition congruence.
Qed.

(** X14 - [_compute_path_with_priority], lines 66-70: when a pair has more than
    one simple path, the computation installs a path and makes the backup list
    of the pair exactly the simple paths other than the installed one. *)
Theorem compute_paths_backups s o s' src dst q1 q2 :
  well_formed (topology s) ->
  nonnegative (topology s) ->
  compute_paths s = Done o s' ->
  In src (nx.nodes (topology s)) ->
  In dst (nx.nodes (topology s)) ->
  src <> dst ->
  simple_path (topology s) src dst q1 ->
  simple_path (topology s) src dst q2 ->
  q1 <> q2 ->
  exists p l,
    flow_entry (flow_tables s') src dst = Some (Some p) /\
    OD.get (src, dst) (backup_paths s') = Some l /\
    forall q, In q l <-> simple_path (topology s) src dst q /\ q <> p.
Proof.
  intros Hwf Hnn Hrun Hsrc Hdst Hne Hq1 Hq2 Hq.
  unfold compute_paths in Hrun.
  apply compute_loop_done in Hrun as (_ & _ & Heff).
  destruct (Heff src dst) as [Hin _].
  destruct Hin as (e & bk & Hplan & Hf & Hb); [apply In_ordered_pairs; auto|].
  pose proof (plan_backup s src dst e bk Hplan) as [_ Hmany].
  destruct (plan_valid s src dst e bk Hwf Hnn Hsrc Hdst Hne Hplan) as [_ Hbk].
  assert (Hlen : (1 < List.length (nx.all_simple_paths (topology s) src dst))%nat).
  { apply (two_members q1 q2); auto using all_simple_paths_complete. }
  destruct e as [p|].
  - specialize (Hmany p eq_refl Hlen). rewrite Hmany in Hb.
    destruct (Hbk _ Hmany) as (p' & [= <-] & Hl).
    exists p, (filter (fun q => negb (path_eqb q p))
                 (nx.all_simple_paths (topology s) src dst)).
    split; [exact Hf|]. split; [exact Hb|exact Hl].
  - exfalso. unfold plan in Hplan.
    destruct (nx.all_simple_paths (topology s) src dst) as [|p0 ps] eqn:Hall;
      [simpl in Hlen; lia|].
    destruct (priority_for src dst s =? critical).
    + destruct (shortest_path_found (topology s) Hwf Hnn src dst
                  (nodes_mem _ _ Hsrc) (nodes_mem _ _ Hdst) Hne)
        as (p & Hp & _).
      { exists q1. now apply simple_path_walk. }
      rewrite Hp in Hplan. discriminate.
    + destruct (select_load_balanced_nonempty (link_utilization s) p0 ps)
        as [p Hp].
      rewrite Hp in Hplan. discriminate.
Qed.

Lemma compute_paths_backups_witness :
  let s := state_of (exec (AddLink "A" "C" 5 10)
             (state_of (exec (AddLink "B" "C" 1 10)
               (state_of (exec (AddLink "A" "B" 1 10)
                 (state_of (exec (AddNode ["A"; "B"; "C"]) init))))))) in
  exists p l,
    flow_entry (flow_tables triangle) "A" "C" = Some (Some p) /\
    OD.get ("A", "C") (backup_paths triangle) = Some l /\
    forall q, In q l <-> simple_path (topology s) "A" "C" q /\ q <> p.
Proof.
  intros s.
  apply (compute_paths_backups s [] triangle "A" "C" ["A"; "C"] ["A"; "B"; "C"]).
  - apply reachable_well_formed. repeat apply reach_exec. apply reach_init.
  - apply nonnegativeb_sound. vm_compute. reflexivity.
  - vm_compute. reflexivity.
  - vm_compute. auto.
  - vm_compute. auto.
  - discriminate.
  - repeat split; try reflexivity.
    repeat constructor; simpl; intuition discriminate.
  - repeat split; try reflexivity.
    repeat constructor; simpl; intuition discriminate.
  - discriminate.
Defined.

(** ** Careful use *)

Lemma In_nodes_add_node n G m :
  In m (nx.nodes (nx.add_node n G)) <-> m = n \/ In m (nx.nodes G).
Proof.
  unfold nx.add_node, nx.nodes. destruct (OD.mem n G) eqn:E.
  - split; [now right|]. intros [->|H]; [now apply mem_keys|exact H].
  - apply In_keys_set.
Qed.

Lemma In_nodes_add_edge u v e G m :
  In m (nx.nodes (nx.add_edge u v e G)) <-> m = u \/ m = v \/ In m (nx.nodes G).
Proof.
  unfold nx.add_edge. cbv zeta. unfold nx.nodes at 1.
  rewrite !In_keys_set. fold (nx.nodes (nx.add_node v (nx.add_node u G))).
  rewrite !In_nodes_add_node. tauto.
Qed.

Lemma In_nodes_remove_edge u v G m :
  In m (nx.nodes (nx.remove_edge u v G)) -> m = u \/ m = v \/ In m (nx.nodes G).
Proof.
  unfold nx.remove_edge, nx.nodes. cbv zeta.
  destruct (keqb u v); rewrite !In_keys_set; tauto.
Qed.

Lemma has_edge_nodes G u v :
  well_formed G -> nx.has_edge u v G = true ->
  In u (nx.nodes G) /\ In v (nx.nodes G).
Proof.
  intros HG He. split.
  - now apply (linked_node G u v).
  - apply (linked_node G v u). now apply linked_sym.
Qed.

Lemma failure_loop_owners l s n :
  OD.mem n (flow_tables (state_of (for_each l reroute s)))
  = OD.mem n (flow_tables s).
Proof.
  apply (for_each_invariant
           (fun s' => OD.mem n (flow_tables s') = OD.mem n (flow_tables s)));
    [|reflexivity].
  intros [a b] s0 H. rewrite <- H.
  destruct (reroute_flow_tables a b s0) as [->|[e Hft]]; [reflexivity|].
  apply (assign_flow_mem a b e _ _ n Hft).
Qed.

Lemma owners_exec c s :
  well_formed (topology s) -> owners s -> declared s c = true ->
  owners (state_of (exec c s)).
Proof.
  intros Hwf Hown Hd. destruct c as [ns|u v w c|u v|src dst ty| |]; cbn [exec].
  - unfold add_node. apply (for_each_invariant owners); [|exact Hown].
    intros n s0 H0 m. cbn. rewrite In_nodes_add_node. unfold OD.mem.
    rewrite get_set. destruct (keqb_spec m n) as [->|Hne]; [reflexivity|].
    intros [E|Hm]; [contradiction|]. apply (H0 m Hm).
  - cbn in Hd. apply andb_true_iff in Hd as [Hu Hv].
    intros m. cbn. rewrite In_nodes_add_edge.
    intros [->|[->|Hm]]; apply Hown; auto; now apply mem_keys.
  - unfold remove_link. destruct (nx.has_edge u v (topology s)) eqn:He;
      [|exact Hown].
    unfold _handle_link_failure. intros m.
    match goal with |- context [for_each ?l reroute ?s0] =>
      destruct (failure_loop_fields l s0) as (Ht & _) end.
    rewrite Ht, failure_loop_owners. cbn. intros Hm. apply Hown.
    destruct (has_edge_nodes _ u v Hwf He) as [Hu Hv].
    apply In_nodes_remove_edge in Hm as [->|[->|Hm]]; assumption.
  - destruct (inject_flow_fields src dst ty s) as (Ht & Hf & _).
    intros m. rewrite Ht, Hf. apply Hown.
  - destruct (compute_paths_same_inputs s) as (Ht & _ & _ & Hm).
    intros m. rewrite Ht, Hm. apply Hown.
  - now rewrite show_utilization_state.
Qed.

Lemma nonnegative_exec c s :
  well_formed (topology s) -> nonnegative (topology s) -> weighted c = true ->
  nonnegative (topology (state_of (exec c s))).
Proof.
  intros Hwf Hnn Hw. destruct c as [ns|u v w c|u v|src dst ty| |]; cbn [exec].
  - destruct (add_node_fields ns s) as (_ & He & _).
    intros a b d. rewrite He. apply Hnn.
  - intros a b d. cbn. rewrite edge_data_add_edge. cbn in Hw.
    apply Z.leb_le in Hw.
    destruct (keqb a v && keqb b u); [now intros [= <-]|].
    destruct (keqb a u && keqb b v); [now intros [= <-]|]. apply Hnn.
  - unfold remove_link. destruct (nx.has_edge u v (topology s)); [|exact Hnn].
    unfold _handle_link_failure.
    match goal with |- context [for_each ?l reroute ?s0] =>
      destruct (failure_loop_fields l s0) as (Ht & _) end.
    rewrite Ht. cbn. intros a b d.
    rewrite edge_data_remove_edge by (exact (wf_adj _ Hwf)).
    destruct (keqb a u && keqb b v); [discriminate|].
    destruct (keqb a v && keqb b u); [discriminate|]. apply Hnn.
  - destruct (inject_flow_fields src dst ty s) as (Ht & _). now rewrite Ht.
  - destruct (compute_paths_same_inputs s) as (Ht & _). now rewrite Ht.
  - now rewrite show_utilization_state.
Qed.

Lemma careful_sound s :
  careful s ->
  reachable s /\ nonnegative (topology s) /\ owners s.
Proof.
  induction 1 as [|c s Hc (Hr & Hnn & Hown) Hd Hw].
  - split; [constructor|]. split; [discriminate|intros n []].
  - pose proof (reachable_well_formed s Hr) as Hwf.
    split; [now constructor|].
    split; [now apply nonnegative_exec|now apply owners_exec].
Qed.

(** X15 - [compute_paths], lines 40-73: when every link was added between nodes
    added before and with a non-negative weight, the computation returns,
    whatever else was called and however those calls ended. *)
Theorem careful_compute_paths_returns s :
  careful s -> exists s', compute_paths s = Done [] s'.
Proof.
  intros Hc. destruct (careful_sound s Hc) as (Hr & Hnn & Hown).
  apply compute_paths_completes; auto using reachable_well_formed.
Qed.

Lemma careful_compute_paths_returns_witness :
  let s := state_of (exec (RemoveLink "A" "B")
             (state_of (exec (AddLink "A" "B" 0 10)
               (state_of (exec (AddNode ["A"; "B"; "C"]) init))))) in
  careful s /\ exists s', compute_paths s = Done [] s'.
Proof.
  assert (H : careful
                (state_of (exec (RemoveLink "A" "B")
                   (state_of (exec (AddLink "A" "B" 0 10)
                      (state_of (exec (AddNode ["A"; "B"; "C"]) init))))))).
  { repeat (apply careful_exec; [|reflexivity|reflexivity]).
    apply careful_init. }
  split; [exact H|]. exact (careful_compute_paths_returns _ H).
Defined.

(** ** States reached by calls that all returned *)

Lemma walk_mono G G' p :
  (forall a b, linked G a b -> linked G' a b) -> walk G p -> walk G' p.
Proof.
  intros Hl. induction p as [|a [|b rest] IH]; auto.
  intros [Hab Hrest]. split; auto.
Qed.

Lemma walk_remove_edge u v G p :
  well_formed G -> uses_link u v p = false -> walk G p ->
  walk (nx.remove_edge u v G) p.
Proof.
  intros HG. induction p as [|a [|b rest] IH]; auto.
  rewrite uses_link_cons. intros Hu [Hab Hrest].
  apply orb_false_iff in Hu as [Hu Hu']. apply orb_false_iff in Hu as [H1 H2].
  split; [|now apply IH].
  unfold linked in *. rewrite has_edge_data in *.
  rewrite edge_data_remove_edge by (exact (wf_adj _ HG)).
  rewrite keqb_pair in H1, H2.
  replace (keqb a u && keqb b v) with false.
  - replace (keqb a v && keqb b u) with false; [exact Hab|].
    rewrite <- H2. destruct (keqb_spec v a), (keqb_spec u b),
      (keqb_spec a v), (keqb_spec b u); subst; try reflexivity; congruence.
  - rewrite <- H1. destruct (keqb_spec u a), (keqb_spec v b),
      (keqb_spec a u), (keqb_spec b v); subst; try reflexivity; congruence.
Qed.

Lemma inject_flow_backups src dst ty s :
  backup_paths (state_of (inject_flow src dst ty s)) = backup_paths s.
Proof.
  unfold inject_flow. cbn [flow_tables set_traffic].
  destruct (flow_entry (flow_tables s) src dst) as [[[|n p]|]|]; try reflexivity.
  match goal with |- context [bump_utilization ?o ?p ?s0] =>
    destruct (bump_utilization_fields o p s0) as (_ & _ & _ & Hb & _) end.
  now rewrite Hb.
Qed.

Lemma steady_step c s :
  reachable s -> nonnegative (topology s) ->
  routes_valid s -> backups_join s ->
  returned (exec c s) = true ->
  routes_valid (state_of (exec c s)) /\ backups_join (state_of (exec c s)).
Proof.
  intros Hr Hnn Hrv Hbj Hret. pose proof (reachable_consistent s Hr) as Hs.
  pose proof (c_wf s Hs) as Hwf.
  destruct c as [ns|u v w c|u v|src dst ty| |]; cbn [exec] in *.
  - unfold add_node.
    apply (for_each_invariant (fun s' => routes_valid s' /\ backups_join s'));
      [|now split].
    intros n s0 [Hrv0 Hbj0]. split; [|exact Hbj0].
    intros src dst p. cbn. unfold flow_entry. rewrite get_set.
    destruct (keqb src n); [discriminate|]. intros Hp.
    destruct (Hrv0 src dst p Hp) as [Hw Hj]. split; [|exact Hj].
    apply (walk_mono (topology s0)); [|exact Hw].
    intros a b. unfold linked. now rewrite !has_edge_data, edge_data_add_node.
  - split; [|exact Hbj]. intros src dst p Hp. cbn in Hp |- *.
    destruct (Hrv src dst p Hp) as [Hw Hj]. split; [|exact Hj].
    apply (walk_mono (topology s)); [|exact Hw].
    intros a b. unfold linked. rewrite !has_edge_data, edge_data_add_edge.
    destruct (keqb a v && keqb b u); [reflexivity|].
    now destruct (keqb a u && keqb b v).
  - unfold remove_link in *.
    destruct (nx.has_edge u v (topology s)) eqn:He; [|now split].
    unfold _handle_link_failure in *.
    cbn [flow_tables set_link_utilization set_topology] in *.
    pose proof (NoDup_affected_flows u v _ (c_shape s Hs)) as Hnd.
    match type of Hret with returned (for_each ?l reroute ?s0) = true =>
      destruct (failure_loop_fields l s0) as (Ht & _);
      pose proof (failure_loop_frame l s0) as Hframe;
      destruct (for_each l reroute s0) as [o s'|] eqn:Hrun; [|discriminate]
    end.
    cbn [state_of] in *. cbn in Ht.
    pose proof (failure_loop_done _ _ _ _ Hnd Hrun) as Hdone.
    assert (Hc : forall a b,
               OD.mem (a, b) (OD.pop (v, u) (OD.pop (u, v) (link_utilization s)))
               = nx.has_edge a b (nx.remove_edge u v (topology s)))
      by (apply counted_remove; [apply Hs|apply Hs|apply (c_counted s Hs)]).
    pose proof (wf_remove_edge u v _ Hwf) as Hwf'.
    split.
    + intros src dst p Hp. rewrite Ht.
      destruct (pair_in_dec (src, dst) (affected_flows u v (flow_tables s)))
        as [Hin|Hnin].
      * destruct (Hdone src dst Hin) as (Hf & _ & Hh). cbn in Hf, Hh.
        rewrite Hf in Hp. injection Hp as Hp.
        destruct (OD.get (src, dst) (backup_paths s)) as [[|b0 rest]|] eqn:Hbk;
          try discriminate.
        cbn in Hp. injection Hp as ->. split.
        -- apply (hops_present_walk _ _ p Hwf' Hc). exact (Hh p rest eq_refl).
        -- apply (Hbj src dst _ p Hbk). now left.
      * destruct (Hframe src dst Hnin) as [Hf _]. cbn in Hf.
        rewrite Hf in Hp. destruct (Hrv src dst p Hp) as [Hw Hj].
        split; [|exact Hj]. apply walk_remove_edge; auto.
        destruct (uses_link u v p) eqn:Hu; [|reflexivity].
        exfalso. apply Hnin.
        apply (In_affected_flows u v _ src dst (c_shape s Hs)).
        destruct p as [|n p]; [discriminate|]. now exists n, p.
    + intros src dst l q Hl Hq.
      destruct (pair_in_dec (src, dst) (affected_flows u v (flow_tables s)))
        as [Hin|Hnin].
      * destruct (Hdone src dst Hin) as (_ & Hb & _). cbn in Hb.
        rewrite Hb in Hl.
        destruct (OD.get (src, dst) (backup_paths s)) as [[|b0 rest]|] eqn:Hbk;
          cbn in Hl; try discriminate.
        -- injection Hl as <-. destruct Hq.
        -- injection Hl as <-. apply (Hbj src dst _ q Hbk). now right.
      * destruct (Hframe src dst Hnin) as [_ Hb]. cbn in Hb.
        rewrite Hb in Hl. exact (Hbj src dst l q Hl Hq).
  - destruct (inject_flow_fields src dst ty s) as (Ht & Hf & _).
    split.
    + intros a b p. rewrite Ht, Hf. apply Hrv.
    + intros a b l q. rewrite inject_flow_backups. apply Hbj.
  - destruct (compute_paths s) as [o s'|] eqn:Hrun; [|discriminate].
    cbn [state_of]. unfold compute_paths in Hrun.
    apply compute_loop_done in Hrun as (_ & (Ht & _) & Heff).
    split.
    + intros src dst p Hp. rewrite Ht.
      destruct (pair_in_dec (src, dst) (ordered_pairs (nx.nodes (topology s))))
        as [Hin|Hnin].
      * destruct (proj1 (Heff src dst) Hin) as (e & bk & Hplan & Hf & _).
        apply In_ordered_pairs in Hin as (Hsrc & Hdst & Hne).
        destruct (plan_valid s src dst e bk Hwf Hnn Hsrc Hdst Hne Hplan)
          as [Hok _].
        rewrite Hf in Hp. injection Hp as ->. now apply Hok.
      * destruct (proj2 (Heff src dst) Hnin) as [Hf _].
        rewrite Hf in Hp. now apply Hrv.
    + intros src dst l q Hl Hq.
      destruct (pair_in_dec (src, dst) (ordered_pairs (nx.nodes (topology s))))
        as [Hin|Hnin].
      * destruct (proj1 (Heff src dst) Hin) as (e & bk & Hplan & _ & Hb).
        apply In_ordered_pairs in Hin as (Hsrc & Hdst & Hne).
        destruct (plan_valid s src dst e bk Hwf Hnn Hsrc Hdst Hne Hplan)
          as [_ Hbk].
        rewrite Hb in Hl. destruct bk as [l0|].
        -- injection Hl as <-. destruct (Hbk l0 eq_refl) as (p & _ & Hl0).
           apply Hl0 in Hq as [Hq _]. split; [now apply simple_path_walk in Hq|].
           apply Hq.
        -- exact (Hbj src dst l q Hl Hq).
      * destruct (proj2 (Heff src dst) Hnin) as [_ Hb].
        rewrite Hb in Hl. exact (Hbj src dst l q Hl Hq).
  - rewrite show_utilization_state. now split.
Qed.

Lemma steady_sound s :
  steady s ->
  reachable s /\ nonnegative (topology s) /\ routes_valid s /\ backups_join s.
Proof.
  induction 1 as [|c s Hst (Hr & Hnn & Hrv & Hbj) Hw Hret].
  - split; [constructor|]. split; [discriminate|].
    split; [intros src dst p [=]|intros src dst l q [=]].
  - split; [now constructor|].
    split; [apply nonnegative_exec; auto using reachable_well_formed|].
    now apply steady_step.
Qed.

(** X16 - [compute_paths] and [_handle_link_failure], lines 40-73 and 101-121:
    as long as every call has returned and no link has a negative weight, every
    installed path follows links of the present topology from the source of its
    pair to the destination. *)
Theorem steady_routes_follow_links s src dst p :
  steady s ->
  flow_entry (flow_tables s) src dst = Some (Some p) ->
  walk (topology s) p /\ joins p src dst.
Proof.
  intros Hst. destruct (steady_sound s Hst) as (_ & _ & Hrv & _). apply Hrv.
Qed.

Lemma steady_routes_follow_links_witness :
  let s := state_of (exec (RemoveLink "A" "B") triangle) in
  steady s /\
  flow_entry (flow_tables s) "A" "B" = Some (Some ["A"; "C"; "B"]) /\
  walk (topology s) ["A"; "C"; "B"] /\ joins ["A"; "C"; "B"] "A" "B".
Proof.
  assert (H : steady (state_of (exec (RemoveLink "A" "B") triangle))).
  { unfold triangle.
    repeat (apply steady_exec; [|reflexivity|vm_compute; reflexivity]).
    apply steady_init. }
  split; [exact H|]. split; [vm_compute; reflexivity|].
  apply (steady_routes_follow_links _ "A" "B" ["A"; "C"; "B"] H).
  vm_compute. reflexivity.
Defined.

Lemma inject_flow_on_valid_routes s src dst ty :
  reachable s -> routes_valid s ->
  exists o s', inject_flow src dst ty s = Done o s'.
Proof.
  intros Hr Hrv. pose proof (reachable_consistent s Hr) as Hs.
  unfold inject_flow. cbn [flow_tables set_traffic].
  destruct (flow_entry (flow_tables s) src dst) as [[[|n p]|]|] eqn:Hp;
    try (eexists; eexists; reflexivity).
  rewrite bump_utilization_outcome. cbn [link_utilization set_traffic].
  destruct (Hrv src dst _ Hp) as [Hw _].
  apply (hops_present_walk _ (link_utilization s) _ (c_wf s Hs) (c_counted s Hs))
    in Hw.
  rewrite Hw. eexists; eexists; reflexivity.
Qed.

(** X17 - [inject_flow], lines 85-99: as long as every call has returned and no
    link has a negative weight, an injection returns, for every pair and every
    traffic type. *)
Theorem steady_inject_flow_returns s src dst ty :
  steady s -> exists o s', inject_flow src dst ty s = Done o s'.
Proof.
  intros Hst. destruct (steady_sound s Hst) as (Hr & _ & Hrv & _).
  now apply inject_flow_on_valid_routes.
Qed.

(** X18 - [_compute_path_with_priority], lines 66-70, and
    [_handle_link_failure], lines 112-114: as long as every call has returned
    and no link has a negative weight, every backup kept for a pair starts at
    the source of the pair, ends at its destination and visits no node twice; it
    need not follow links that still exist. *)
Theorem steady_backups_are_simple s src dst l q :
  steady s ->
  OD.get (src, dst) (backup_paths s) = Some l -> In q l ->
  joins q src dst /\ NoDup q.
Proof.
  intros Hst. destruct (steady_sound s Hst) as (_ & _ & _ & Hbj). apply Hbj.
Qed.

Lemma steady_backups_are_simple_witness :
  steady triangle /\ joins ["C"; "A"; "B"] "C" "B" /\ NoDup ["C"; "A"; "B"].
Proof.
  assert (H : steady triangle).
  { unfold triangle.
    repeat (apply steady_exec; [|reflexivity|vm_compute; reflexivity]).
    apply steady_init. }
  split; [exact H|].
  apply (steady_backups_are_simple triangle "C" "B"
           [["C"; "A"; "B"]] ["C"; "A"; "B"] H).
  - vm_compute. reflexivity.
  - now left.
Defined.

Lemma steady_inject_flow_returns_witness :
  let s := state_of (exec (RemoveLink "A" "B") triangle) in
  steady s /\ exists o s', inject_flow "A" "B" "critical" s = Done o s'.
Proof.
  assert (H : steady (state_of (exec (RemoveLink "A" "B") triangle))).
  { unfold triangle.
    repeat (apply steady_exec; [|reflexivity|vm_compute; reflexivity]).
    apply steady_init. }
  split; [exact H|]. exact (steady_inject_flow_returns _ "A" "B" "critical" H).
Defined.

(** ** When [compute_paths] returns *)

Lemma other_member (l : list node) n :
  NoDup l -> (2 <= List.length l)%nat -> In n l -> exists m, In m l /\ m <> n.
Proof.
  destruct l as [|a [|b r]]; simpl; try lia. intros Hnd _ Hn.
  assert (Hab : a <> b).
  { intros ->. inversion Hnd as [|? ? Hin _]. apply Hin. now left. }
  destruct (keqb_spec n a) as [->|Hne].
  - exists b. auto.
  - exists a. auto.
Qed.

(** X19 - [compute_paths], lines 40-73, and the assignment of lines 52, 66 and
    73: on a topology of two or more nodes with non-negative weights the
    computation returns exactly when every node has its flow table, and when it
    does not return, the exception is [KeyError]. *)
Theorem compute_paths_returns_iff s :
  well_formed (topology s) ->
  nonnegative (topology s) ->
  (2 <= List.length (nx.nodes (topology s)))%nat ->
  ((exists s', compute_paths s = Done [] s') <-> owners s) /\
  (forall o e s', compute_paths s = Raised o e s' -> e = KeyError).
Proof.
  intros Hwf Hnn Hlen. split; [split|].
  - intros [s' Hrun] n Hn. unfold compute_paths in Hrun.
    apply compute_loop_done in Hrun as (_ & (_ & _ & _ & Hm) & Heff).
    destruct (other_member _ n (wf_nodes _ Hwf) Hlen Hn) as (m & Hmn & Hne).
    destruct (proj1 (Heff n m)) as (e & bk & _ & Hf & _).
    { apply In_ordered_pairs. auto. }
    rewrite <- Hm. unfold flow_entry in Hf. unfold OD.mem.
    now destruct (OD.get n (flow_tables s')).
  - now apply compute_paths_completes.
  - intros o e s' Hrun. unfold compute_paths in Hrun.
    apply for_each_Raised_inv in Hrun
      as (l1 & [a b] & l2 & o1 & s1 & o2 & Hl & Hpre & Hstep & _).
    apply compute_loop_done in Hpre as (_ & (Ht & _) & _).
    assert (Hin : In (a, b) (ordered_pairs (nx.nodes (topology s)))).
    { rewrite Hl. apply in_elt. }
    apply In_ordered_pairs in Hin as (Ha & Hb & Hne).
    cbn [fst snd] in Hstep. rewrite compute_step_plan in Hstep.
    destruct (plan_ok s1 a b) as [pl Hpl]; try (rewrite Ht; assumption); auto.
    rewrite Hpl in Hstep. unfold apply_plan in Hstep.
    destruct (assign_flow a b (fst pl) (flow_tables s1)); [discriminate|].
    now injection Hstep as _ <- _.
Qed.

Lemma compute_paths_returns_iff_witness :
  let s := state_of (exec (AddLink "A" "B" 1 10) init) in
  ((exists s', compute_paths s = Done [] s') <-> owners s) /\
  (forall o e s', compute_paths s = Raised o e s' -> e = KeyError).
Proof.
  intros s. apply (compute_paths_returns_iff s).
  - apply reachable_well_formed. repeat apply reach_exec. apply reach_init.
  - apply nonnegativeb_sound. vm_compute. reflexivity.
  - vm_compute. lia.
Defined.

(** ** Reading the counters *)

Lemma usage_loop_state l s : state_of (for_each l usage_line s) = s.
Proof.
  apply (for_each_invariant (fun s' => s' = s)); [|reflexivity].
  intros [[u v] usage] s0 ->. unfold usage_line.
  destruct (nx.edge_data (topology s) u v) as [d|]; [|reflexivity].
  now destruct (capacity d =? 0).
Qed.

Lemma usage_loop_done l s :
  (forall kv, In kv l ->
     exists d, nx.edge_data (topology s) (fst (fst kv)) (snd (fst kv)) = Some d /\
               capacity d <> 0) ->
  exists out,
    for_each l usage_line s = Done out s /\
    Forall2 (usage_of (topology s)) l out.
Proof.
  induction l as [|[[u v] x] l IH]; intros Hall.
  - exists []. split; [reflexivity|constructor].
  - destruct (Hall (u, v, x) (or_introl eq_refl)) as (d & Hd & Hcap).
    cbn [fst snd] in Hd.
    destruct IH as (out & Hrun & Hout); [intros kv Hkv; apply Hall; now right|].
    exists (LinkUsage u v x (capacity d) :: out). split.
    + cbn [for_each]. unfold usage_line at 1. rewrite Hd.
      apply Z.eqb_neq in Hcap. rewrite Hcap. cbn [bind]. now rewrite Hrun.
    + constructor; [|exact Hout]. exists d. now split.
Qed.

Lemma usage_loop_raised l s :
  (forall kv, In kv l ->
     exists d, nx.edge_data (topology s) (fst (fst kv)) (snd (fst kv)) = Some d) ->
  (exists kv d, In kv l /\
     nx.edge_data (topology s) (fst (fst kv)) (snd (fst kv)) = Some d /\
     capacity d = 0) ->
  exists o, for_each l usage_line s = Raised o ZeroDivisionError s.
Proof.
  induction l as [|[[u v] x] l IH]; intros Hall (kv & d & Hin & Hd & Hcap).
  - destruct Hin.
  - destruct (Hall (u, v, x) (or_introl eq_refl)) as (d0 & Hd0).
    cbn [fst snd] in Hd0. cbn [for_each]. unfold usage_line at 1. rewrite Hd0.
    destruct (capacity d0 =? 0) eqn:E; [eexists; reflexivity|].
    destruct IH as (o & Hrun).
    + intros kv' Hkv'. apply Hall. now right.
    + destruct Hin as [<-|Hin].
      * cbn [fst snd] in Hd. rewrite Hd0 in Hd. injection Hd as ->.
        apply Z.eqb_neq in E. contradiction.
      * exists kv, d. auto.
    + cbn [bind]. rewrite Hrun. eexists; reflexivity.
Qed.

Lemma usage_loop_only_zero l s o e s' :
  (forall kv, In kv l ->
     exists d, nx.edge_data (topology s) (fst (fst kv)) (snd (fst kv)) = Some d) ->
  for_each l usage_line s = Raised o e s' ->
  e = ZeroDivisionError /\
  exists kv d, In kv l /\
    nx.edge_data (topology s) (fst (fst kv)) (snd (fst kv)) = Some d /\
    capacity d = 0.
Proof.
  intros Hall Hrun.
  apply for_each_Raised_inv in Hrun
    as (l1 & [[u v] x] & l2 & o1 & s1 & o2 & -> & Hpre & Hstep & _).
  pose proof (usage_loop_state l1 s) as Hs1. rewrite Hpre in Hs1.
  cbn [state_of] in Hs1. subst s1.
  destruct (Hall (u, v, x)) as (d & Hd); [apply in_elt|].
  cbn [fst snd] in Hd. unfold usage_line in Hstep. rewrite Hd in Hstep.
  destruct (capacity d =? 0) eqn:E; [|discriminate].
  injection Hstep as _ <- _. split; [reflexivity|].
  exists (u, v, x), d. split; [apply in_elt|]. split; [exact Hd|].
  now apply Z.eqb_eq.
Qed.

Lemma counters_have_links s :
  counted s ->
  forall kv, In kv (link_utilization s) ->
    exists d, nx.edge_data (topology s) (fst (fst kv)) (snd (fst kv)) = Some d.
Proof.
  intros Hc [[u v] x] Hin. cbn [fst snd]. specialize (Hc u v).
  assert (Hm : OD.mem (u, v) (link_utilization s) = true).
  { apply mem_keys. change (u, v) with (fst (u, v, x)). now apply in_map. }
  rewrite Hm, has_edge_data in Hc.
  destruct (nx.edge_data (topology s) u v) as [d|]; [eauto|discriminate].
Qed.

(** X20 - [show_utilization], lines 123-128: in a reachable state where no link
    has capacity zero, the call returns with one line for each directed counter,
    in the order of the counters, showing the count and the capacity of the
    link, and changes nothing. *)
Theorem show_utilization_lists s :
  reachable s ->
  (forall u v d, nx.edge_data (topology s) u v = Some d -> capacity d <> 0) ->
  exists out,
    show_utilization s = Done out s /\
    Forall2 (usage_of (topology s)) (link_utilization s) out.
Proof.
  intros Hr Hcap. pose proof (reachable_consistent s Hr) as Hs.
  apply usage_loop_done. intros kv Hin.
  destruct (counters_have_links s (c_counted s Hs) kv Hin) as (d & Hd).
  exists d. split; [exact Hd|]. exact (Hcap _ _ d Hd).
Qed.

Lemma show_utilization_lists_witness :
  exists out,
    show_utilization triangle = Done out triangle /\
    Forall2 (usage_of (topology triangle)) (link_utilization triangle) out.
Proof.
  apply (show_utilization_lists triangle).
  - unfold triangle. repeat apply reach_exec. apply reach_init.
  - intros u v d Hd. unfold nx.edge_data in Hd.
    destruct (OD.get u (topology triangle)) as [a|] eqn:Hu; [|discriminate].
    apply get_In in Hu. apply get_In in Hd.
    vm_compute in Hu.
    repeat (destruct Hu as [Hu|Hu];
            [injection Hu as <- <-;
             repeat (destruct Hd as [Hd|Hd];
                     [injection Hd as <- <-; discriminate|]);
             destruct Hd|]).
    destruct Hu.
Defined.

(** X21 - [show_utilization], lines 123-128: in a reachable state the call never
    fails to find the link of a counter; it raises exactly when some link has
    capacity zero, and then [ZeroDivisionError]; the state is the same
    afterwards. *)
Theorem show_utilization_raises_iff s :
  reachable s ->
  ((exists o, show_utilization s = Raised o ZeroDivisionError s) <->
   (exists u v d, nx.edge_data (topology s) u v = Some d /\ capacity d = 0)) /\
  (forall o e s', show_utilization s = Raised o e s' ->
                  e = ZeroDivisionError /\ s' = s).
Proof.
  intros Hr. pose proof (reachable_consistent s Hr) as Hs.
  pose proof (counters_have_links s (c_counted s Hs)) as Hlinks.
  unfold show_utilization. split; [split|].
  - intros [o Hrun].
    apply (usage_loop_only_zero _ _ _ _ _ Hlinks) in Hrun
      as (_ & [[u v] x] & d & _ & Hd & Hcap).
    exists u, v, d. auto.
  - intros (u & v & d & Hd & Hcap). apply usage_loop_raised; [exact Hlinks|].
    pose proof (c_counted s Hs u v) as Hc. rewrite has_edge_data, Hd in Hc.
    unfold OD.mem in Hc.
    destruct (OD.get (u, v) (link_utilization s)) as [x|] eqn:Hx;
      [|discriminate].
    exists (u, v, x), d. split; [now apply get_In|]. auto.
  - intros o e s' Hrun. split.
    + now apply (usage_loop_only_zero _ _ _ _ _ Hlinks) in Hrun as [-> _].
    + pose proof (usage_loop_state (link_utilization s) s) as Hst.
      rewrite Hrun in Hst. exact Hst.
Qed.

Lemma show_utilization_raises_iff_witness :
  let s := state_of (exec (AddLink "A" "B" 1 0) init) in
  exists o, show_utilization s = Raised o ZeroDivisionError s.
Proof.
  intros s.
  apply (proj1 (show_utilization_raises_iff s
                  (reach_exec _ _ reach_init))).
  exists "A", "B", {| weight := 1; capacity := 0 |}. split; reflexivity.
Defined.

(** ** Adding nodes and links *)

(** X22 - [add_link], lines 28-31: the call always returns; afterwards the link
    carries the given weight and capacity in both directions and both its
    counters are zero, also when the link existed with traffic counted on it;
    every other link and counter is as before, the two end points are nodes, and
    flow tables, traffic descriptors and backups are untouched. *)
Theorem add_link_effect s u v w c :
  let s' := state_of (add_link u v w c s) in
  add_link u v w c s = Done [] s' /\
  (forall a b,
      nx.edge_data (topology s') a b
      = if keqb (a, b) (u, v) || keqb (a, b) (v, u)
        then Some {| weight := w; capacity := c |}
        else nx.edge_data (topology s) a b) /\
  (forall k,
      OD.get k (link_utilization s')
      = if keqb k (u, v) || keqb k (v, u) then Some 0
        else OD.get k (link_utilization s)) /\
  (forall n, In n (nx.nodes (topology s')) <->
             n = u \/ n = v \/ In n (nx.nodes (topology s))) /\
  flow_tables s' = flow_tables s /\ traffic s' = traffic s /\
  backup_paths s' = backup_paths s.
Proof.
  cbn. split; [reflexivity|]. split; [|split; [|split; [|auto]]].
  - intros a b. rewrite edge_data_add_edge, !keqb_pair.
    destruct (keqb a v && keqb b u); [now rewrite orb_true_r|].
    now destruct (keqb a u && keqb b v).
  - intros k. rewrite !get_set.
    destruct (keqb k (v, u)); [now rewrite orb_true_r|].
    now destruct (keqb k (u, v)).
  - intros n. apply In_nodes_add_edge.
Qed.

Lemma add_node_run ns : forall s,
  add_node ns s = Done (map AddedNode ns) (state_of (add_node ns s)) /\
  (forall n, In n (nx.nodes (topology (state_of (add_node ns s)))) <->
             In n ns \/ In n (nx.nodes (topology s))) /\
  (forall n, OD.get n (flow_tables (state_of (add_node ns s)))
             = if existsb (keqb n) ns then Some []
               else OD.get n (flow_tables s)).
Proof.
  unfold add_node. induction ns as [|m ns IH]; intros s.
  - cbn. split; [reflexivity|]. split; [tauto|reflexivity].
  - set (s1 := set_flow_tables (OD.set m [] (flow_tables s))
                 (set_topology (nx.add_node m (topology s)) s)).
    destruct (IH s1) as (Hrun & Hn & Hf).
    assert (E : for_each (m :: ns) add_one_node s
                = Done (AddedNode m :: map AddedNode ns)
                    (state_of (for_each ns add_one_node s1))).
    { cbn [for_each]. unfold add_one_node at 1. fold s1. cbn [bind].
      rewrite Hrun at 1. reflexivity. }
    rewrite E. cbn [state_of map]. split; [reflexivity|]. split.
    + intros n. rewrite Hn. unfold s1.
      cbn [topology set_flow_tables set_topology].
      rewrite In_nodes_add_node. cbn [In]. intuition congruence.
    + intros n. rewrite Hf. unfold s1.
      cbn [flow_tables set_flow_tables existsb].
      rewrite get_set. destruct (keqb n m); cbn [orb];
        now destruct (existsb (keqb n) ns).
Qed.

(** X23 - [add_node], lines 22-26: the call always returns, with one line for
    each argument; afterwards the nodes of the topology are the old ones and the
    arguments, each argument owns an empty flow table, whatever it owned before,
    every other flow table is as before, and links, counters, traffic
    descriptors and backups are untouched. *)
Theorem add_node_effect ns s :
  let s' := state_of (add_node ns s) in
  add_node ns s = Done (map AddedNode ns) s' /\
  (forall n, In n (nx.nodes (topology s')) <->
             In n ns \/ In n (nx.nodes (topology s))) /\
  (forall n, OD.get n (flow_tables s')
             = if existsb (keqb n) ns then Some []
               else OD.get n (flow_tables s)) /\
  (forall u v, nx.edge_data (topology s') u v = nx.edge_data (topology s) u v) /\
  link_utilization s' = link_utilization s /\
  traffic s' = traffic s /\ backup_paths s' = backup_paths s.
Proof.
  cbv zeta. destruct (add_node_run ns s) as (Hrun & Hn & Hf).
  destruct (add_node_fields ns s) as (Hl & He & _).
  split; [exact Hrun|]. split; [exact Hn|]. split; [exact Hf|].
  split; [exact He|]. split; [exact Hl|].
  unfold add_node.
  apply (for_each_invariant
           (fun s' => traffic s' = traffic s /\
                      backup_paths s' = backup_paths s)); [|auto].
  intros n s0 H. exact H.
Qed.

(** X24 - [exec] over lines 22-128: no call takes a node out of the topology and
    no call takes a flow table away from its owner, however the call ends. *)
Theorem nodes_and_tables_persist c s n :
  (In n (nx.nodes (topology s)) ->
   In n (nx.nodes (topology (state_of (exec c s))))) /\
  (OD.mem n (flow_tables s) = true ->
   OD.mem n (flow_tables (state_of (exec c s))) = true).
Proof.
  destruct c as [ns|u v w c|u v|src dst ty| |]; cbn [exec].
  - destruct (add_node_run ns s) as (_ & Hn & Hf). split.
    + intros H. apply Hn. now right.
    + unfold OD.mem. rewrite Hf. now destruct (existsb (keqb n) ns).
  - cbn. split; [apply nodes_add_edge|auto].
  - unfold remove_link. destruct (nx.has_edge u v (topology s)); [|auto].
    unfold _handle_link_failure.
    match goal with |- context [for_each ?l reroute ?s0] =>
      destruct (failure_loop_fields l s0) as (Ht & _) end.
    rewrite Ht, failure_loop_owners. cbn. split; [apply nodes_remove_edge|auto].
  - destruct (inject_flow_fields src dst ty s) as (Ht & Hf & _).
    rewrite Ht, Hf. auto.
  - destruct (compute_paths_same_inputs s) as (Ht & _ & _ & Hm).
    rewrite Ht, Hm. auto.
  - rewrite show_utilization_state. auto.
Qed.

Lemma nodes_and_tables_persist_witness :
  In "A" (nx.nodes (topology triangle)) /\
  In "A" (nx.nodes (topology (state_of (exec (RemoveLink "A" "B") triangle)))).
Proof.
  split; [vm_compute; auto|].
  apply (proj1 (nodes_and_tables_persist (RemoveLink "A" "B") triangle "A")).
  vm_compute. auto.
Defined.

(** ** The command line *)

Lemma cli_state_and_then r after : cli_state (and_then r after) = state_of r.
Proof. now destruct r. Qed.

(** X25 - [SDNCLI], lines 160-208: whatever is typed, and however [split] and
    [int] read it, a command of the command line leaves the controller in a
    state that the controller's own operations reach, so that every invariant of
    the reachable states holds at the prompt. *)
Theorem command_line_stays_reachable split int arg s :
  reachable s ->
  reachable (cli_state (do_add_node split arg s)) /\
  reachable (cli_state (do_add_link split int arg s)) /\
  reachable (cli_state (do_remove_link split arg s)) /\
  reachable (cli_state (do_inject_flow split arg s)) /\
  reachable (cli_state (do_fail_link split arg s)) /\
  reachable (cli_state (do_show_util arg s)) /\
  reachable (cli_state (do_compute_paths arg s)).
Proof.
  intros Hr.
  unfold do_add_node, do_add_link, do_remove_link, do_inject_flow,
    do_fail_link, do_show_util, do_compute_paths.
  repeat split.
  - rewrite cli_state_and_then. apply (reach_exec (AddNode (split arg)) s Hr).
  - destruct (split arg) as [|u [|v rest]]; try exact Hr.
    destruct (match rest with w :: _ => int w | [] => Some 1 end) as [w|];
      [|exact Hr].
    destruct (match rest with _ :: c :: _ => int c | _ => Some 100 end) as [c|];
      [|exact Hr].
    rewrite cli_state_and_then. apply (reach_exec (AddLink u v w c) s Hr).
  - destruct (split arg) as [|u [|v [|x rest]]]; try exact Hr.
    rewrite cli_state_and_then. apply (reach_exec (RemoveLink u v) s Hr).
  - destruct (split arg) as [|src [|dst rest]]; try exact Hr.
    rewrite cli_state_and_then.
    apply (reach_exec (InjectFlow src dst _) s Hr).
  - destruct (split arg) as [|u [|v [|x rest]]]; try exact Hr.
    rewrite cli_state_and_then. apply (reach_exec (RemoveLink u v) s Hr).
  - rewrite cli_state_and_then. apply (reach_exec ShowUtilization s Hr).
  - rewrite cli_state_and_then. apply (reach_exec ComputePaths s Hr).
Qed.

Lemma command_line_stays_reachable_witness :
  reachable init /\
  reachable (cli_state (do_add_link (fun _ => ["A"; "B"; "7"])
                          (fun _ => Some 7) "A B 7" init)).
Proof.
  split; [apply reach_init|].
  apply (command_line_stays_reachable
           (fun _ => ["A"; "B"; "7"]) (fun _ => Some 7) "A B 7" init reach_init).
Defined.

(** ** Which exceptions an operation can raise *)

Lemma bidi_loop_errors G fuel : forall dir B x,
  nx.bidi_loop fuel G dir B = Err x ->
  x = RecursionLimit \/ x = NetworkXNoPath \/ x = KeyError \/ x = ValueError.
Proof.
  induction fuel as [|fuel IH]; intros dir B x; cbn [nx.bidi_loop].
  - intros [= <-]. auto.
  - destruct (nx.fringe (nx.side0 B)); [intros [= <-]; auto|].
    destruct (nx.fringe (nx.side1 B)); [intros [= <-]; auto|].
    destruct (nx.step G (negb dir) B) as [B'|p|y] eqn:Hstep.
    + apply IH.
    + discriminate.
    + intros [= <-]. apply step_error in Hstep. tauto.
Qed.

Lemma shortest_path_errors G a b x :
  OD.mem a G = true -> OD.mem b G = true ->
  nx.shortest_path G a b = Err x ->
  x = NetworkXNoPath \/ x = KeyError \/ x = ValueError.
Proof.
  intros Ha Hb Hx. pose proof (bidi_loop_total G a b) as Htotal.
  rewrite Hx in Htotal. revert Hx.
  unfold nx.shortest_path, nx.bidirectional_dijkstra. rewrite Ha, Hb.
  cbn [negb orb]. destruct (keqb a b); [discriminate|].
  intros Hx. apply bidi_loop_errors in Hx as [->|Hx]; [congruence|exact Hx].
Qed.

Lemma plan_errors s a b x :
  In a (nx.nodes (topology s)) -> In b (nx.nodes (topology s)) ->
  plan s a b = Err x -> x = KeyError \/ x = ValueError.
Proof.
  intros Ha Hb. unfold plan.
  destruct (nx.all_simple_paths (topology s) a b) as [|p0 ps]; [discriminate|].
  destruct (priority_for a b s =? critical).
  - destruct (nx.shortest_path (topology s) a b) as [p|e] eqn:Hsp;
      [discriminate|].
    apply shortest_path_errors in Hsp as [->|Hsp]; auto using nodes_mem;
      [discriminate|].
    destruct Hsp as [-> | ->]; intros [= <-]; auto.
  - destruct (select_load_balanced_nonempty (link_utilization s) p0 ps)
      as [p ->].
    discriminate.
Qed.

Lemma bump_error p : forall lu e, snd (bump p lu) = Some e -> e = KeyError.
Proof.
  induction p as [|a [|b rest] IH]; intros lu e; try discriminate.
  rewrite bump_cons. destruct (OD.get (a, b) lu); [|now intros [= <-]].
  destruct (OD.get (b, a) _); [apply IH|now intros [= <-]].
Qed.

Lemma bump_utilization_error out p s o e s' :
  bump_utilization out p s = Raised o e s' -> e = KeyError.
Proof.
  unfold bump_utilization. pose proof (bump_error p (link_utilization s)) as H.
  destruct (bump p (link_utilization s)) as [lu [x|]]; [|discriminate].
  intros [= _ <- _]. now apply H.
Qed.

Lemma reroute_error sd s o e s' : reroute sd s = Raised o e s' -> e = KeyError.
Proof.
  destruct sd as [a b]. unfold reroute.
  destruct (OD.get (a, b) (backup_paths s)) as [[|backup rest]|].
  1,3: destruct (assign_flow a b None (flow_tables s)); [discriminate|];
    now intros [= _ <- _].
  cbn [flow_tables set_backup_paths].
  destruct (assign_flow a b (Some backup) (flow_tables s));
    [apply bump_utilization_error|now intros [= _ <- _]].
Qed.

(** X26 - [SDNController], lines 22-128: [add_node] and [add_link] never raise;
    [remove_link] and [inject_flow] raise nothing but [KeyError];
    [compute_paths] raises nothing but [KeyError] and [ValueError], the one
    networkx has for negative weights; and from a reachable state
    [show_utilization] raises nothing but [ZeroDivisionError]. *)
Theorem exceptions_by_operation c s o e s' :
  reachable s ->
  exec c s = Raised o e s' ->
  match c with
  | AddNode _ | AddLink _ _ _ _ => False
  | RemoveLink _ _ | InjectFlow _ _ _ => e = KeyError
  | ComputePaths => e = KeyError \/ e = ValueError
  | ShowUtilization => e = ZeroDivisionError
  end.
Proof.
  intros Hr. destruct c as [ns|u v w c|u v|src dst ty| |]; cbn [exec].
  - destruct (add_node_run ns s) as (-> & _). discriminate.
  - discriminate.
  - unfold remove_link. destruct (nx.has_edge u v (topology s)); [|discriminate].
    unfold _handle_link_failure. intros Hrun.
    apply for_each_Raised_inv in Hrun
      as (l1 & sd & l2 & o1 & s1 & o2 & _ & _ & Hstep & _).
    now apply reroute_error in Hstep.
  - unfold inject_flow. cbn [flow_tables set_traffic].
    destruct (flow_entry (flow_tables s) src dst) as [[[|n p]|]|];
      try discriminate.
    apply bump_utilization_error.
  - unfold compute_paths. intros Hrun.
    apply for_each_Raised_inv in Hrun
      as (l1 & [a b] & l2 & o1 & s1 & o2 & Hl & Hpre & Hstep & _).
    apply compute_loop_done in Hpre as (_ & (Ht & _) & _).
    assert (Hin : In (a, b) (ordered_pairs (nx.nodes (topology s)))).
    { rewrite Hl. apply in_elt. }
    apply In_ordered_pairs in Hin as (Ha & Hb & _). rewrite <- Ht in Ha, Hb.
    cbn [fst snd] in Hstep. rewrite compute_step_plan in Hstep.
    destruct (plan s1 a b) as [pl|x] eqn:Hpl.
    + unfold apply_plan in Hstep.
      destruct (assign_flow a b (fst pl) (flow_tables s1)); [discriminate|].
      injection Hstep as _ <- _. now left.
    + injection Hstep as _ <- _. exact (plan_errors s1 a b x Ha Hb Hpl).
  - intros Hrun.
    apply (proj1 (usage_loop_only_zero _ _ _ _ _
                    (counters_have_links s
                       (c_counted s (reachable_consistent s Hr))) Hrun)).
Qed.

Lemma exceptions_by_operation_witness :
  let s := state_of (exec (AddLink "A" "B" 1 10) init) in
  reachable s /\
  exec ComputePaths s = Raised [] KeyError s /\
  (KeyError = KeyError \/ KeyError = ValueError).
Proof.
  split; [repeat apply reach_exec; apply reach_init|].
  split; [vm_compute; reflexivity|].
  apply (exceptions_by_operation ComputePaths
           (state_of (exec (AddLink "A" "B" 1 10) init)) []
           KeyError (state_of (exec (AddLink "A" "B" 1 10) init))).
  - repeat apply reach_exec. apply reach_init.
  - vm_compute. reflexivity.
Defined.

(** ** The priority that an injection records *)

Lemma inject_flow_traffic src dst ty s :
  traffic (state_of (inject_flow src dst ty s))
  = OD.set (src, dst) {| ttype := ty; priority := priority_of ty |} (traffic s).
Proof.
  unfold inject_flow. cbn [flow_tables set_traffic].
  destruct (flow_entry (flow_tables s) src dst) as [[[|n p]|]|]; try reflexivity.
  match goal with |- context [bump_utilization ?o ?p ?s0] =>
    destruct (bump_utilization_fields o p s0) as (_ & _ & Htr & _) end.
  now rewrite Htr.
Qed.

(** X27 - [inject_flow], lines 86-87, read by [_compute_path_with_priority],
    lines 56-59: however the injection ends, the pair has the priority of the
    traffic type, which is 1, 2 or 3; the path computation treats the pair as
    critical exactly when the type is [critical] in whatever case of ASCII
    letters; and the priority of every other pair is unchanged. *)
Theorem injected_priority s src dst ty :
  let s' := state_of (inject_flow src dst ty s) in
  priority_for src dst s' = priority_of ty /\
  1 <= priority_of ty <= 3 /\
  (priority_for src dst s' = critical <-> lower ty = "critical") /\
  forall a b, (a, b) <> (src, dst) -> priority_for a b s' = priority_for a b s.
Proof.
  cbv zeta. unfold priority_for. rewrite inject_flow_traffic.
  rewrite get_set_same. cbn [priority].
  assert (Hcases : (lower ty = "critical" /\ priority_of ty = 3) \/
                   (lower ty <> "critical" /\ 1 <= priority_of ty <= 2)).
  { unfold priority_of, priority_map. cbn [OD.get].
    destruct (keqb_spec (lower ty) "critical") as [E|E]; [left; now split|].
    right. split; [exact E|].
    destruct (keqb (lower ty) "important"); [lia|].
    destruct (keqb (lower ty) "default"); lia. }
  change critical with 3.
  split; [reflexivity|]. split; [|split].
  - destruct Hcases as [[_ ->]|[_ H]]; lia.
  - destruct Hcases as [[E ->]|[E H]]; split; auto; try lia. contradiction.
  - intros a b Hne. rewrite get_set_other by congruence. reflexivity.
Qed.

(** ** Adding a link and taking it away again *)

Section DictRoundTrip.
Context {K V : Type} `{EqKey K}.
Implicit Types (d : OD.t K V) (k : K) (v : V).

Lemma pop_absent k d : OD.get k d = None -> OD.pop k d = d.
Proof.
  induction d as [|[k0 v0] d IH]; simpl; auto.
  destruct (keqb k k0); [discriminate|]. intros E. now rewrite IH.
Qed.

Lemma pop_set_new k v d : OD.get k d = None -> OD.pop k (OD.set k v d) = d.
Proof.
  induction d as [|[k0 v0] d IH]; simpl.
  - now rewrite keqb_refl.
  - destruct (keqb k k0) eqn:E; [discriminate|]. simpl. rewrite E.
    intros E'. now rewrite IH.
Qed.

Lemma pop_set_other k k' v d :
  k <> k' -> OD.pop k (OD.set k' v d) = OD.set k' v (OD.pop k d).
Proof.
  intros Hne. induction d as [|[k0 v0] d IH]; simpl.
  - now rewrite keqb_neq.
  - destruct (keqb_spec k' k0) as [->|Hk']; simpl.
    + rewrite (keqb_neq k k0 Hne). simpl. now rewrite keqb_refl.
    + destruct (keqb_spec k k0) as [->|Hk]; simpl.
      * reflexivity.
      * rewrite (keqb_neq k' k0 Hk'). now rewrite IH.
Qed.

Lemma set_swap k k' v v' d :
  k <> k' -> OD.mem k d = true -> OD.mem k' d = true ->
  OD.set k v (OD.set k' v' d) = OD.set k' v' (OD.set k v d).
Proof.
  unfold OD.mem. intros Hne. induction d as [|[k0 v0] d IH]; simpl;
    [discriminate|].
  destruct (keqb_spec k k0) as [->|Hk]; destruct (keqb_spec k' k0) as [->|Hk'];
    simpl.
  - contradiction.
  - intros _ _. now rewrite keqb_refl, (keqb_neq k' k0 Hk').
  - intros _ _. now rewrite keqb_refl, (keqb_neq k k0 Hk).
  - intros Hm Hm'.
    rewrite (keqb_neq k k0 Hk), (keqb_neq k' k0 Hk'). now rewrite IH.
Qed.

End DictRoundTrip.

Lemma adj_present G u :
  In u (nx.nodes G) -> OD.get u G = Some (nx.adj G u).
Proof.
  intros Hu. apply nodes_mem in Hu. unfold OD.mem in Hu. unfold nx.adj.
  now destruct (OD.get u G).
Qed.

Lemma no_edge_no_neighbour G u v :
  nx.has_edge u v G = false -> OD.get v (nx.adj G u) = None.
Proof.
  unfold nx.has_edge, nx.adj, OD.mem. destruct (OD.get u G) as [a|];
    [|reflexivity].
  now destruct (OD.get v a).
Qed.

Lemma remove_add_edge u v e G :
  well_formed G -> In u (nx.nodes G) -> In v (nx.nodes G) ->
  nx.has_edge u v G = false ->
  nx.remove_edge u v (nx.add_edge u v e G) = G.
Proof.
  intros HG Hu Hv He.
  assert (He' : nx.has_edge v u G = false)
    by (now rewrite has_edge_data, (wf_sym _ HG), <- has_edge_data).
  pose proof (adj_present G u Hu) as Hau. pose proof (adj_present G v Hv) as Hav.
  pose proof (no_edge_no_neighbour G u v He) as Hnu.
  pose proof (no_edge_no_neighbour G v u He') as Hnv.
  unfold nx.add_edge. cbv zeta.
  rewrite (nx_add_node_present u G Hu), (nx_add_node_present v G Hv).
  unfold nx.remove_edge. cbv zeta.
  destruct (keqb_spec u v) as [<-|Hne].
  - unfold nx.adj at 1 2. rewrite !get_set_same, !set_set.
    rewrite pop_set_new by exact Hnu. now apply set_id.
  - assert (Hadj2 : nx.adj (OD.set u (OD.set v e (nx.adj G u)) G) v = nx.adj G v).
    { unfold nx.adj at 1 3. now rewrite get_set_other. }
    rewrite Hadj2.
    set (G3 := OD.set v (OD.set u e (nx.adj G v))
                 (OD.set u (OD.set v e (nx.adj G u)) G)).
    assert (Hadj3 : nx.adj G3 u = OD.set v e (nx.adj G u)).
    { unfold nx.adj at 1, G3.
      rewrite get_set_other by congruence. now rewrite get_set_same. }
    rewrite Hadj3, pop_set_new by exact Hnu.
    assert (Hadj4 : nx.adj (OD.set u (nx.adj G u) G3) v = OD.set u e (nx.adj G v)).
    { unfold nx.adj at 1, G3.
      rewrite get_set_other by exact Hne. now rewrite get_set_same. }
    rewrite Hadj4, pop_set_new by exact Hnv.
    unfold G3. rewrite (set_swap u v).
    + rewrite !set_set, (set_id u _ G Hau). now apply set_id.
    + exact Hne.
    + unfold OD.mem. now rewrite get_set_same.
    + unfold OD.mem. rewrite get_set_other by exact Hne. now rewrite Hav.
Qed.

Lemma mem_get_None' {K V} `{EqKey K} (k : K) (d : OD.t K V) :
  OD.mem k d = false -> OD.get k d = None.
Proof. unfold OD.mem. now destruct (OD.get k d). Qed.

Lemma pop_pop_set_set (u v : node) (lu : OD.t (node * node) Z) :
  OD.get (u, v) lu = None -> OD.get (v, u) lu = None ->
  OD.pop (v, u) (OD.pop (u, v) (OD.set (v, u) 0 (OD.set (u, v) 0 lu))) = lu.
Proof.
  intros Huv Hvu. destruct (keqb_spec (u, v) (v, u)) as [E|Hne].
  - rewrite <- E. rewrite set_set, pop_set_new by exact Huv.
    now apply pop_absent.
  - rewrite pop_set_other by exact Hne.
    rewrite (pop_set_new (u, v) 0 lu Huv). now apply pop_set_new.
Qed.

(** X28 - [add_link] and [remove_link], lines 28-38: from a reachable state,
    adding a link between two nodes that have none, when no installed path
    claims to run over it, and removing it again gives back the very same state.
    *)
Theorem add_then_remove_link s u v w c :
  reachable s ->
  In u (nx.nodes (topology s)) -> In v (nx.nodes (topology s)) ->
  nx.has_edge u v (topology s) = false ->
  (forall src dst p, flow_entry (flow_tables s) src dst = Some (Some p) ->
                     uses_link u v p = false) ->
  remove_link u v (state_of (add_link u v w c s)) = Done [] s.
Proof.
  intros Hr Hu Hv He Hfree. pose proof (reachable_consistent s Hr) as Hs.
  unfold remove_link. cbn [add_link state_of topology flow_tables
    link_utilization set_link_utilization set_topology].
  assert (Hnew : nx.has_edge u v
                   (nx.add_edge u v {| weight := w; capacity := c |} (topology s))
                 = true).
  { rewrite has_edge_data, edge_data_add_edge, !keqb_refl. cbn [andb].
    match goal with |- context [if ?b then _ else _] => now destruct b end. }
  rewrite Hnew. unfold _handle_link_failure.
  cbn [flow_tables set_link_utilization set_topology].
  assert (Hnone : affected_flows u v (flow_tables s) = []).
  { destruct (affected_flows u v (flow_tables s)) as [|[a b] l] eqn:E;
      [reflexivity|].
    assert (Hin : In (a, b) (affected_flows u v (flow_tables s)))
      by (rewrite E; now left).
    apply (In_affected_flows u v _ a b (c_shape s Hs)) in Hin
      as (n & p & Hp & Hu').
    rewrite (Hfree a b _ Hp) in Hu'. discriminate. }
  rewrite Hnone. cbn [for_each]. f_equal.
  rewrite (remove_add_edge u v _ _ (c_wf s Hs) Hu Hv He).
  assert (He' : nx.has_edge v u (topology s) = false)
    by (now rewrite has_edge_data, (wf_sym _ (c_wf s Hs)), <- has_edge_data).
  pose proof (c_counted s Hs u v) as Hcu. pose proof (c_counted s Hs v u) as Hcv.
  rewrite He in Hcu. rewrite He' in Hcv.
  rewrite pop_pop_set_set by (now apply mem_get_None').
  now destruct s.
Qed.

Lemma add_then_remove_link_witness :
  remove_link "A" "C" (state_of (add_link "A" "C" 5 10 chain)) = Done [] chain.
Proof.
  apply (add_then_remove_link chain "A" "C" 5 10).
  - unfold chain. repeat apply reach_exec. apply reach_init.
  - vm_compute. auto.
  - vm_compute. auto.
  - vm_compute. reflexivity.
  - intros src dst p.
    let ft := eval vm_compute in (flow_tables chain) in
    assert (E : flow_tables chain = ft) by (vm_compute; reflexivity).
    rewrite E. clear E. unfold flow_entry. intros Hp.
    destruct (OD.get src _) as [row|] eqn:Hrow in Hp; [|discriminate].
    apply get_In in Hrow. apply get_In in Hp.
    repeat (destruct Hrow as [Hrow|Hrow];
            [injection Hrow as <- <-;
             repeat (destruct Hp as [Hp|Hp];
                     [injection Hp as <- <-; reflexivity|]);
             destruct Hp|]).
    destruct Hrow.
Defined.

(** ** What the failure handler counts *)

Lemma option_shift (x : option Z) n m :
  option_map (fun y => y + m) (option_map (fun y => y + n) x)
  = option_map (fun y => y + (n + m)) x.
Proof. destruct x; cbn; [f_equal; lia|reflexivity]. Qed.

Lemma option_shift_zero (x : option Z) : option_map (fun y => y + 0) x = x.
Proof. destruct x; cbn; [f_equal; lia|reflexivity]. Qed.

Lemma reroute_counts a b s o s1 :
  reroute (a, b) s = Done o s1 ->
  (forall b0 rest, OD.get (a, b) (backup_paths s) = Some (b0 :: rest) ->
                   NoDup b0) ->
  forall k,
    OD.get k (link_utilization s1)
    = if moved_over s k (a, b)
      then option_map (fun x => x + 1) (OD.get k (link_utilization s))
      else OD.get k (link_utilization s).
Proof.
  unfold reroute, moved_over, next_route.
  destruct (OD.get (a, b) (backup_paths s)) as [[|b0 rest]|].
  1,3: destruct (assign_flow a b None (flow_tables s)); [|discriminate];
    now intros [= _ <-].
  cbn [flow_tables set_backup_paths].
  destruct (assign_flow a b (Some b0) (flow_tables s)) as [ft|]; [|discriminate].
  rewrite bump_utilization_outcome.
  cbn [link_utilization set_flow_tables set_backup_paths].
  destruct (hops_present (link_utilization s) b0) eqn:Hp; [|discriminate].
  intros [= _ <-] Hnd [u v]. cbn [link_utilization set_link_utilization fst snd].
  apply (bump_simple b0 _ (Hnd b0 rest eq_refl) Hp).
Qed.

Lemma failure_loop_counts l : forall s o s',
  NoDup l ->
  (forall sd b0 rest,
      In sd l -> OD.get sd (backup_paths s) = Some (b0 :: rest) -> NoDup b0) ->
  for_each l reroute s = Done o s' ->
  forall k,
    OD.get k (link_utilization s')
    = option_map
        (fun x => x + Z.of_nat (List.length (filter (moved_over s k) l)))
        (OD.get k (link_utilization s)).
Proof.
  induction l as [|[a b] l IH]; intros s o s' Hnd Hsimple Hrun k.
  - injection Hrun as _ <-. cbn. now rewrite option_shift_zero.
  - inversion Hnd as [|? ? Hfresh Hnd']; subst. cbn [for_each] in Hrun.
    apply bind_Done_inv in Hrun as (o1 & s1 & o2 & Hstep & Hrest & _).
    destruct (reroute_done a b s o1 s1 Hstep) as (_ & Hb & _).
    assert (Hbk : forall sd, In sd l ->
              OD.get sd (backup_paths s1) = OD.get sd (backup_paths s)).
    { intros sd Hin. rewrite Hb, keqb_neq; [reflexivity|].
      intros ->. contradiction. }
    rewrite (IH s1 o2 s' Hnd') with (k := k); [| |exact Hrest].
    + rewrite (reroute_counts a b s o1 s1 Hstep) with (k := k)
        by (intros b0 rest; apply Hsimple; now left).
      rewrite (filter_ext_in (moved_over s1 k) (moved_over s k)).
      * cbn [filter]. destruct (moved_over s k (a, b)).
        -- cbn [List.length].
           match goal with |- context [Z.of_nat (S ?n)] =>
             replace (Z.of_nat (S n)) with (1 + Z.of_nat n) by lia end.
           now rewrite option_shift.
        -- reflexivity.
      * intros sd Hin. unfold moved_over. now rewrite Hbk.
    + intros sd b0 rest Hin. rewrite (Hbk sd Hin). apply Hsimple. now right.
Qed.

(** X29 - [_handle_link_failure], lines 116-118: when every call so far has
    returned, no weight is negative and the removal of an existing link returns
    too, every remaining counter has grown by the number of rerouted flows whose
    new path runs over its link: the handler counts a rerouted flow as an
    injection on the backup. *)
Theorem remove_link_counts s u v o s' a b :
  steady s ->
  nx.has_edge u v (topology s) = true ->
  remove_link u v s = Done o s' ->
  (a, b) <> (u, v) -> (a, b) <> (v, u) ->
  OD.get (a, b) (link_utilization s')
  = option_map (fun x => x + rerouted_over s u v (a, b))
      (OD.get (a, b) (link_utilization s)).
Proof.
  intros Hst He Hrun Huv Hvu.
  destruct (steady_sound s Hst) as (Hr & _ & _ & Hbj).
  pose proof (reachable_consistent s Hr) as Hs.
  unfold remove_link in Hrun. rewrite He in Hrun.
  unfold _handle_link_failure in Hrun.
  cbn [flow_tables set_link_utilization set_topology] in Hrun.
  assert (Hsimple : forall sd b0 rest,
             In sd (affected_flows u v (flow_tables s)) ->
             OD.get sd (backup_paths s) = Some (b0 :: rest) -> NoDup b0).
  { intros [src dst] b0 rest _ Hbk. apply (Hbj src dst _ b0 Hbk). now left. }
  match type of Hrun with for_each ?l reroute ?s0 = _ =>
    rewrite (failure_loop_counts l s0 o s'
               (NoDup_affected_flows u v _ (c_shape s Hs)) Hsimple Hrun (a, b))
  end.
  cbn [link_utilization set_link_utilization].
  rewrite !get_pop_other by congruence. reflexivity.
Qed.

Lemma remove_link_counts_witness :
  let s' := state_of (remove_link "A" "B" triangle) in
  steady triangle /\
  OD.get ("A", "C") (link_utilization s')
  = option_map (fun x => x + rerouted_over triangle "A" "B" ("A", "C"))
      (OD.get ("A", "C") (link_utilization triangle)).
Proof.
  assert (H : steady triangle).
  { unfold triangle.
    repeat (apply steady_exec; [|reflexivity|vm_compute; reflexivity]).
    apply steady_init. }
  split; [exact H|].
  apply (remove_link_counts triangle "A" "B"
           [Rerouted "A" "B" ["A"; "C"; "B"]; Rerouted "A" "C" ["A"; "C"];
            Rerouted "B" "A" ["B"; "C"; "A"]; Rerouted "B" "C" ["B"; "C"];
            Rerouted "C" "A" ["C"; "A"]]
           (state_of (remove_link "A" "B" triangle)) "A" "C" H).
  - vm_compute. reflexivity.
  - vm_compute. reflexivity.
  - discriminate.
  - discriminate.
Defined.

(** ** Careful use, all calls returned

    What is left of the faults of the engine under careful use. *)

(** X30 - [SDNController], lines 22-128: when every link was added between nodes
    added before and with a non-negative weight, and every call so far has
    returned, the only calls that can raise are [remove_link], on a backup that
    has gone stale, and [show_utilization], on a link of capacity zero. *)
Theorem only_removal_and_display_raise s c o e s' :
  careful s -> steady s ->
  exec c s = Raised o e s' ->
  (exists u v, c = RemoveLink u v /\ e = KeyError) \/
  (c = ShowUtilization /\ e = ZeroDivisionError).
Proof.
  intros Hc Hst Hrun.
  destruct (steady_sound s Hst) as (Hr & _ & Hrv & _).
  destruct c as [ns|u v w c|u v|src dst ty| |]; cbn [exec] in Hrun.
  - destruct (add_node_run ns s) as (E & _). rewrite E in Hrun. discriminate.
  - discriminate.
  - left. exists u, v. split; [reflexivity|].
    unfold remove_link in Hrun.
    destruct (nx.has_edge u v (topology s)); [|discriminate].
    unfold _handle_link_failure in Hrun.
    apply for_each_Raised_inv in Hrun
      as (l1 & sd & l2 & o1 & s1 & o2 & _ & _ & Hstep & _).
    now apply reroute_error in Hstep.
  - destruct (inject_flow_on_valid_routes s src dst ty Hr Hrv) as (o' & s1 & E).
    rewrite E in Hrun. discriminate.
  - destruct (careful_sound s Hc) as (_ & Hnn & Hown).
    destruct (compute_paths_completes s (reachable_well_formed s Hr) Hnn Hown)
      as (s1 & E).
    rewrite E in Hrun. discriminate.
  - right. split; [reflexivity|].
    apply (proj1 (usage_loop_only_zero _ _ _ _ _
                    (counters_have_links s
                       (c_counted s (reachable_consistent s Hr))) Hrun)).
Qed.

Lemma only_removal_and_display_raise_witness :
  let s := state_of (exec (RemoveLink "A" "B") triangle) in
  careful s /\ steady s /\
  ((exists u v, RemoveLink "B" "C" = RemoveLink u v /\ KeyError = KeyError) \/
   (RemoveLink "B" "C" = ShowUtilization /\ KeyError = ZeroDivisionError)).
Proof.
  assert (Hc : careful (state_of (exec (RemoveLink "A" "B") triangle))).
  { unfold triangle.
    repeat (apply careful_exec; [|vm_compute; reflexivity|reflexivity]).
    apply careful_init. }
  assert (Hs : steady (state_of (exec (RemoveLink "A" "B") triangle))).
  { unfold triangle.
    repeat (apply steady_exec; [|reflexivity|vm_compute; reflexivity]).
    apply steady_init. }
  split; [exact Hc|]. split; [exact Hs|].
  apply (only_removal_and_display_raise
           (state_of (exec (RemoveLink "A" "B") triangle))
           (RemoveLink "B" "C")
           [NoBackup "A" "B"; NoBackup "B" "A"; NoBackup "B" "C";
            Rerouted "C" "B" ["C"; "A"; "B"]]
           KeyError
           (state_of (exec (RemoveLink "B" "C")
              (state_of (exec (RemoveLink "A" "B") triangle))))
           Hc Hs).
  vm_compute. reflexivity.
Defined.
